(** * Rotary position embeddings of [max.nn.rotary_embedding]

    A shallow embedding of [src/max/nn/rotary_embedding.py] and the
    properties its specification states about it.

    Conventions of the embedding.

    - A Python [float] and the elements of a graph tensor are real numbers;
      a [cast] between float widths is the identity.  An element of a tensor
      is an [F]: [Some r] for the finite value [r], [None] for an element
      that is not finite (an IEEE infinity or NaN), which is what a division
      by zero or a logarithm outside its domain leaves in a tensor.  A
      non-finite element is data, not a failure: the graph goes on.
    - One float is told apart from the reals by the code itself: [theta] of
      the YaRN engine goes through [int()], which raises on an infinity and
      on NaN.  That field is a [pyfloat], a real or one of these values.
      On the values of the other float fields that are not real numbers the
      code raises nothing; these fields are real numbers, and [float(n)] of
      an integer [n] is the real [n].
    - Python-level arithmetic raises: [//] and [/] on Python numbers raise
      [ZeroDivisionError], [int()] of an infinity raises [OverflowError] and
      of NaN [ValueError], a missing parameter raises [ValueError].  Such
      code lives in the [res] monad.  An operation of the graph library that
      rejects its operands' shapes raises [ShapeError].
    - [dim], [n_heads], [max_seq_len] and tensor dimensions are natural
      numbers; the other Python integers are in [Z].
    - Tensors of fixed rank are nested lists, outermost axis first; shapes
      are static, a [Dim] is a natural number.
    - A comparison of two scalar tensors in a Python [if] ([min == max] in
      the ramp mask) is the comparison of their values. *)

From Stdlib Require Import String.
From Stdlib Require Import Reals Lra Lia List Bool Arith ZArith.
Import ListNotations.

Open Scope R_scope.

(** ** Python-level failures *)

Inductive exn : Type :=
| ValueError (msg : string)
| OverflowError (msg : string)
| ZeroDivisionError
| ShapeError.

Inductive res (A : Type) : Type :=
| Ok (a : A)
| Raise (e : exn).

Arguments Ok {A} a.
Arguments Raise {A} e.

Definition bind {A B : Type} (m : res A) (k : A -> res B) : res B :=
  match m with
  | Ok a => k a
  | Raise e => Raise e
  end.

Notation "x <- m ;; k" := (bind m (fun x => k))
  (at level 61, m at next level, right associativity).

Fixpoint mapM {A B : Type} (f : A -> res B) (l : list A) : res (list B) :=
  match l with
  | [] => Ok []
  | a :: l' => b <- f a ;; bs <- mapM f l' ;; Ok (b :: bs)
  end.

(** Python's [a // b] on non-negative integers. *)
Definition py_floordiv (a b : nat) : res nat :=
  match b with
  | O => Raise ZeroDivisionError
  | S _ => Ok (Nat.div a b)
  end.

(** Python's [a / b] on floats. *)
Definition py_truediv (a b : R) : res R :=
  if Req_dec_T b 0 then Raise ZeroDivisionError else Ok (a / b).

(** A Python [float] with its values that are not real numbers. *)
Inductive pyfloat : Type :=
| Finite (r : R)
| Infinity (negative : bool)
| NaN.

(** Truncation towards zero. *)
Definition py_trunc (x : R) : Z :=
  if Rle_dec 0 x then Zfloor x else (- Zfloor (- x))%Z.

(** Python's [int(x)] on a float. *)
Definition py_int (x : pyfloat) : res Z :=
  match x with
  | Finite r => Ok (py_trunc r)
  | Infinity _ =>
      Raise (OverflowError "cannot convert float infinity to integer"%string)
  | NaN => Raise (ValueError "cannot convert float NaN to integer"%string)
  end.

(** ** Tensor elements *)

Definition F : Type := option R.

Definition lift1 (f : R -> R) (a : F) : F :=
  match a with
  | Some x => Some (f x)
  | None => None
  end.

Definition lift2 (f : R -> R -> R) (a b : F) : F :=
  match a, b with
  | Some x, Some y => Some (f x y)
  | _, _ => None
  end.

Definition fadd : F -> F -> F := lift2 Rplus.
Definition fsub : F -> F -> F := lift2 Rminus.
Definition fmul : F -> F -> F := lift2 Rmult.
Definition fmax : F -> F -> F := lift2 Rmax.
Definition fmin : F -> F -> F := lift2 Rmin.
Definition fcos : F -> F := lift1 cos.
Definition fsin : F -> F := lift1 sin.

(** Division: a zero divisor leaves a non-finite element. *)
Definition fdiv (a b : F) : F :=
  match a, b with
  | Some x, Some y => if Req_dec_T y 0 then None else Some (x / y)
  | _, _ => None
  end.

(** [b ** y] for a Python float [b]: [Rpower] is the power function on a
    positive base; [0 ** 0] and [b ** 0] are 1, [0 ** y] is 0 for positive
    [y]; elsewhere the element is taken as non-finite. *)
Definition fpow (b : R) (y : F) : F :=
  match y with
  | Some e =>
      if Rlt_dec 0 b then Some (Rpower b e)
      else if Req_dec_T e 0 then Some 1
      else if Req_dec_T b 0 then (if Rlt_dec 0 e then Some 0 else None)
      else None
  | None => None
  end.

(** [b ** y] for the float [b] of a field.  What a base that is not finite
    leaves in the tensor is not modelled: the one place where such a base
    can occur, [_compute_yarn_freqs], raises at [int(self.theta)] before
    any of these elements is stored or returned. *)
Definition float_pow (b : pyfloat) (y : F) : F :=
  match b with
  | Finite r => fpow r y
  | Infinity _ | NaN => None
  end.

(** Natural logarithm: finite on positive arguments only. *)
Definition flog (a : F) : F :=
  match a with
  | Some x => if Rlt_dec 0 x then Some (ln x) else None
  | None => None
  end.

Definition ffloor (a : F) : F := lift1 (fun x => IZR (Zfloor x)) a.

(** Comparisons give no answer on a non-finite element. *)
Definition flt (a b : F) : option bool :=
  match a, b with
  | Some x, Some y => Some (if Rlt_dec x y then true else false)
  | _, _ => None
  end.

Definition fgt (a b : F) : option bool := flt b a.

(** [ops.select(cond, x, y)] on one element. *)
Definition select (c : option bool) (x y : F) : F :=
  match c with
  | Some true => x
  | Some false => y
  | None => None
  end.

Definition const (r : R) : F := Some r.

(** ** Graph operations on rank-1 and rank-2 tensors *)

(** [ops.range(start, stop, step, out_dim)]: the arithmetic progression
    from [start] by [step]; the static length of the result is [out_dim],
    the bound [stop] is not consulted. *)
Definition ops_range (start stop step : R) (out_dim : nat) : list F :=
  map (fun k => const (start + INR k * step)) (seq 0 out_dim).

(** [ops.outer(t, v)]. *)
Definition ops_outer (t v : list F) : list (list F) :=
  map (fun a => map (fun b => fmul a b) v) t.

(** [ops.stack([a, b], axis=-1)] on rank-2 tensors of one shape. *)
Definition stack_last2 (a b : list (list F)) : list (list (list F)) :=
  map (fun '(ra, rb) => map (fun '(x, y) => [x; y]) (combine ra rb))
      (combine a b).

(** ** The engine *)

Record Llama3RopeScalingParams : Type := {
  factor : R;
  low_freq_factor : R;
  high_freq_factor : R;
  orig_max_position : Z
}.

(** The cached table: rank 3, or rank 2 once flattened. *)
Inductive FreqsCis : Type :=
| Freqs3 (t : list (list (list F)))
| Freqs2 (t : list (list F)).

(** The classes that share [RotaryEmbedding.__call__]. *)
Inductive cls : Type :=
| Base
| Optimized
| Llama3 (scaling_params : option Llama3RopeScalingParams).

Record RotaryEmbedding : Type := {
  klass : cls;
  dim : nat;
  n_heads : nat;
  theta : R;
  max_seq_len : nat;
  _freqs_cis : option FreqsCis;
  interleaved : bool;
  (** the slot of the [cached_property] [freqs_cis] *)
  freqs_cis_slot : option FreqsCis
}.

(** The dataclass constructor followed by [__post_init__]: it stores its
    arguments and checks nothing. *)
Definition build (k : cls) (dim n_heads : nat) (theta : R) (max_seq_len : nat)
    (interleaved : bool) : res RotaryEmbedding :=
  Ok {| klass := k; dim := dim; n_heads := n_heads; theta := theta;
        max_seq_len := max_seq_len; _freqs_cis := None;
        interleaved := interleaved; freqs_cis_slot := None |}.

(** [RotaryEmbedding._compute_inv_freqs]. *)
Definition base_compute_inv_freqs (self : RotaryEmbedding) : res (list F) :=
  n <- py_floordiv (dim self) (n_heads self) ;;
  let iota := ops_range 0 (INR n - 1) 2 (n / 2) in
  let inv_freq :=
    map (fun e => fdiv (const 1) (fpow (theta self) (fdiv e (const (INR n)))))
        iota in
  Ok inv_freq.

(** [Llama3RotaryEmbedding._compute_inv_freqs] works on whole tensors with
    elementwise operations; the three definitions below give what it does
    to one component [f] of [inv_freqs]. *)

(** The tensor [smooth] at the component whose wavelength is [wave_len]. *)
Definition llama3_smooth (sp : Llama3RopeScalingParams) (wave_len : F) : F :=
  if Req_dec_T (low_freq_factor sp) (high_freq_factor sp)
  then const 0
  else fdiv (fsub (fdiv (const (IZR (orig_max_position sp))) wave_len)
                  (const (low_freq_factor sp)))
            (const (high_freq_factor sp - low_freq_factor sp)).

(** [(1 - smooth) * inv_freqs / factor + smooth * inv_freqs]. *)
Definition llama3_blend (sp : Llama3RopeScalingParams) (smooth f : F) : F :=
  fadd (fdiv (fmul (fsub (const 1) smooth) f) (const (factor sp)))
       (fmul smooth f).

Definition llama3_scale (sp : Llama3RopeScalingParams)
    (low_freq_wavelen high_freq_wavelen : R) (f : F) : F :=
  let wave_len := fdiv (const (2 * PI)) f in
  let smooth := llama3_smooth sp wave_len in
  select (flt wave_len (const high_freq_wavelen))
         f
         (select (fgt wave_len (const low_freq_wavelen))
                 (fdiv f (const (factor sp)))
                 (llama3_blend sp smooth f)).

Definition llama3_compute_inv_freqs (self : RotaryEmbedding)
    (scaling_params : option Llama3RopeScalingParams) : res (list F) :=
  inv_freqs <- base_compute_inv_freqs self ;;
  match scaling_params with
  | Some sp =>
      low_freq_wavelen <-
        py_truediv (IZR (orig_max_position sp)) (low_freq_factor sp) ;;
      high_freq_wavelen <-
        py_truediv (IZR (orig_max_position sp)) (high_freq_factor sp) ;;
      Ok (map (llama3_scale sp low_freq_wavelen high_freq_wavelen) inv_freqs)
  | None => Ok inv_freqs
  end.

(** Method resolution of [self._compute_inv_freqs()]. *)
Definition _compute_inv_freqs (self : RotaryEmbedding) : res (list F) :=
  match klass self with
  | Llama3 sp => llama3_compute_inv_freqs self sp
  | Base | Optimized => base_compute_inv_freqs self
  end.

Definition set_freqs_cis (self : RotaryEmbedding) (t : FreqsCis)
    : RotaryEmbedding :=
  {| klass := klass self; dim := dim self; n_heads := n_heads self;
     theta := theta self; max_seq_len := max_seq_len self;
     _freqs_cis := Some t; interleaved := interleaved self;
     freqs_cis_slot := freqs_cis_slot self |}.

Definition set_slot (self : RotaryEmbedding) (t : FreqsCis)
    : RotaryEmbedding :=
  {| klass := klass self; dim := dim self; n_heads := n_heads self;
     theta := theta self; max_seq_len := max_seq_len self;
     _freqs_cis := _freqs_cis self; interleaved := interleaved self;
     freqs_cis_slot := Some t |}.

(** The table of [freqs_cis_base] (lines 71-80): cosine and sine of the
    outer product of the positions [0 .. 2 * max_seq_len) with
    [inv_freqs], stacked on a last axis. *)
Definition cis_table (max_seq_len : nat) (inv_freqs : list F)
    : list (list (list F)) :=
  let t := ops_range 0 (INR max_seq_len * 2) 1 (max_seq_len * 2) in
  let freqs := ops_outer t inv_freqs in
  stack_last2 (map (map fcos) freqs) (map (map fsin) freqs).

(** [RotaryEmbedding.freqs_cis_base]: the engine after the call, and the
    table or the exception. *)
Definition freqs_cis_base (self : RotaryEmbedding)
    : RotaryEmbedding * res FreqsCis :=
  match _freqs_cis self with
  | Some t => (self, Ok t)
  | None =>
      match _compute_inv_freqs self with
      | Raise e => (self, Raise e)
      | Ok inv_freqs =>
          let table := Freqs3 (cis_table (max_seq_len self) inv_freqs) in
          (set_freqs_cis self table, Ok table)
      end
  end.

(** The body of the property [freqs_cis], by class. *)
Definition freqs_cis_body (self : RotaryEmbedding)
    : RotaryEmbedding * res FreqsCis :=
  match klass self with
  | Base =>
      match freqs_cis_base self with
      | (self, Ok t) => (set_freqs_cis self t, Ok t)
      | (self, Raise e) => (self, Raise e)
      end
  | Optimized | Llama3 _ =>
      match freqs_cis_base self with
      | (self, Ok (Freqs3 freqs)) =>
          (* d1, d2, d3 = freqs.shape; reshape to [d1, d2 * d3] *)
          let flat := Freqs2 (map (@concat F) freqs) in
          (set_freqs_cis self flat, Ok flat)
      | (self, Ok (Freqs2 _)) =>
          (self, Raise (ValueError "not enough values to unpack"%string))
      | (self, Raise e) => (self, Raise e)
      end
  end.

(** [self.freqs_cis], a [cached_property]: computed on first access. *)
Definition freqs_cis (self : RotaryEmbedding)
    : RotaryEmbedding * res FreqsCis :=
  match freqs_cis_slot self with
  | Some t => (self, Ok t)
  | None =>
      match freqs_cis_body self with
      | (self, Ok t) => (set_slot self t, Ok t)
      | (self, Raise e) => (self, Raise e)
      end
  end.

(** ** Applying the rotation *)

(** An activation tensor of shape [(batch, seq_len, n_kv_heads, head_dim)]:
    its static shape and its elements. *)
Definition T4 : Type := list (list (list (list F))).

Record Activation : Type := {
  shape : nat * nat * nat * nat;
  elems : T4
}.

Definition shape_last (v : Activation) : nat :=
  let '(_, _, _, d3) := shape v in d3.

Definition shape_last2 (v : Activation) : nat :=
  let '(_, _, d2, _) := shape v in d2.

Fixpoint zipWithM {A B C : Type} (f : A -> B -> res C)
    (xs : list A) (ys : list B) : res (list C) :=
  match xs, ys with
  | [], [] => Ok []
  | x :: xs', y :: ys' =>
      c <- f x y ;; cs <- zipWithM f xs' ys' ;; Ok (c :: cs)
  | _, _ => Raise ShapeError
  end.

(** One axis of a broadcasting elementwise operation: equal lengths pair
    up, an axis of length 1 is repeated along the other operand. *)
Definition bzip {A B C : Type} (f : A -> B -> res C)
    (xs : list A) (ys : list B) : res (list C) :=
  if Nat.eqb (length xs) (length ys) then zipWithM f xs ys
  else match xs, ys with
       | _, [y] => mapM (fun x => f x y) xs
       | [x], _ => mapM (fun y => f x y) ys
       | _, _ => Raise ShapeError
       end.

(** A broadcasting elementwise operation on rank-4 tensors. *)
Definition bop4 (f : F -> F -> F) : T4 -> T4 -> res T4 :=
  bzip (bzip (bzip (bzip (fun a b => Ok (f a b))))).

(** Consecutive pairs of a row; a row of odd length has no such view. *)
Fixpoint pairs_of (row : list F) : res (list (list F)) :=
  match row with
  | [] => Ok []
  | a :: b :: r => ps <- pairs_of r ;; Ok ([a; b] :: ps)
  | [_] => Raise ShapeError
  end.

(** [ops.as_interleaved_complex(v)]: shape [(.., d)] to [(.., d/2, 2)]. *)
Definition as_interleaved_complex (v : T4)
    : res (list (list (list (list (list F))))) :=
  mapM (mapM (mapM pairs_of)) v.

(** [t[..., i]] on the last axis. *)
Definition sel_last (i : nat) (p : list F) : res F :=
  match nth_error p i with
  | Some e => Ok e
  | None => Raise ShapeError
  end.

Definition index_last (i : nat) (t : list (list (list (list (list F)))))
    : res T4 :=
  mapM (mapM (mapM (mapM (sel_last i)))) t.

(** [t[(slice(start, start + len), len)]] on the first axis; a window that
    leaves the table is rejected. *)
Definition slice_rows {A : Type} (start len : nat) (rows : list A)
    : res (list A) :=
  if Nat.leb (start + len) (length rows)
  then Ok (firstn len (skipn start rows))
  else Raise ShapeError.

(** [n] consecutive chunks of [k] elements. *)
Fixpoint chunks {A : Type} (k n : nat) (l : list A) : list (list A) :=
  match n with
  | O => []
  | S n' => firstn k l :: chunks k n' (skipn k l)
  end.

Definition flatten4 (t : T4) : list F :=
  concat (map (fun b => concat (map (@concat F) b)) t).

(** [ops.reshape(t, shape)] of row-major data to a rank-4 shape. *)
Definition reshape4 (data : list F) (sh : nat * nat * nat * nat) : res T4 :=
  let '(d0, d1, d2, d3) := sh in
  if Nat.eqb (length data) (d0 * d1 * d2 * d3)
  then Ok (map (fun b => map (chunks d3 d2) (chunks (d2 * d3) d1 b))
               (chunks (d1 * d2 * d3) d0 data))
  else Raise ShapeError.

(** The two halves of the pairs, by layout (lines 107-119). *)
Definition split_pairs (interleaved : bool) (v : Activation)
    : res (T4 * T4) :=
  if interleaved then
    complex <- as_interleaved_complex (elems v) ;;
    x_re <- index_last 0 complex ;;
    x_im <- index_last 1 complex ;;
    Ok (x_re, x_im)
  else
    let head_dim := shape_last v in
    let half_dim := (head_dim / 2)%nat in
    let x_re := map (map (map (firstn half_dim))) (elems v) in
    if Nat.eqb (head_dim - half_dim) half_dim
    then Ok (x_re, map (map (map (skipn half_dim))) (elems v))
    else Raise ShapeError.

(** The window of the table, brought back to rank 3 (lines 127-134). *)
Definition slice_freqs_cis (table : FreqsCis) (start_pos seq_len : nat)
    : res (list (list (list F))) :=
  match table with
  | Freqs3 t => slice_rows start_pos seq_len t
  | Freqs2 t =>
      freqs_cis_sliced <- slice_rows start_pos seq_len t ;;
      (* d0, d1 = shape; reshape((d0, d1 // 2, 2)) *)
      mapM pairs_of freqs_cis_sliced
  end.

(** The rotation itself and the way back to the shape of [v]
    (lines 141-156). *)
Definition rotate (interleaved : bool) (v : Activation) (x_re x_im : T4)
    (freqs_cis_sliced : list (list (list F))) : res Activation :=
  let freqs_cis_bcast := [map (fun r => [r]) freqs_cis_sliced] in
  freqs_re <- index_last 0 freqs_cis_bcast ;;
  freqs_im <- index_last 1 freqs_cis_bcast ;;
  a <- bop4 fmul x_re freqs_re ;;
  b <- bop4 fmul x_im freqs_im ;;
  rope_re <- bop4 fsub a b ;;
  c <- bop4 fmul x_re freqs_im ;;
  d <- bop4 fmul x_im freqs_re ;;
  rope_im <- bop4 fadd c d ;;
  data <-
    (if interleaved then
       rope_complex <-
         zipWithM (zipWithM (zipWithM (zipWithM
           (fun re im => Ok [re; im])))) rope_re rope_im ;;
       Ok (concat (map (fun b => concat (map (fun s =>
             concat (map (@concat F) s)) b)) rope_complex))
     else
       rope_complex <-
         zipWithM (zipWithM (zipWithM
           (fun re im => Ok (re ++ im)))) rope_re rope_im ;;
       Ok (flatten4 rope_complex)) ;;
  out <- reshape4 data (shape v) ;;
  Ok {| shape := shape v; elems := out |}.

(** [RotaryEmbedding.__call__]. *)
Definition __call__ (self : RotaryEmbedding) (x : Activation)
    (start_pos seq_len : option nat) : RotaryEmbedding * res Activation :=
  let v := x in
  match split_pairs (interleaved self) v with
  | Raise e => (self, Raise e)
  | Ok (x_re, x_im) =>
      let start_pos := match start_pos with Some p => p | None => O end in
      let seq_len :=
        match seq_len with Some n => n | None => shape_last2 v end in
      match freqs_cis self with
      | (self', Raise e) => (self', Raise e)
      | (self', Ok table) =>
          (self',
           freqs_cis_sliced <- slice_freqs_cis table start_pos seq_len ;;
           rotate (interleaved self') v x_re x_im freqs_cis_sliced)
      end
  end.

(** ** YaRN *)

Record DeepseekYarnRopeScalingParams : Type := {
  scaling_factor : R;
  original_max_position_embeddings : Z;
  beta_fast : Z;
  beta_slow : Z;
  mscale : R;
  mscale_all_dim : R
}.

Record DeepseekYarnRotaryEmbedding : Type := {
  y_dim : nat;
  y_n_heads : nat;
  y_theta : pyfloat;
  y_max_seq_len : nat;
  y_freqs_cis : option FreqsCis;
  y_interleaved : bool;
  scaling_params : option DeepseekYarnRopeScalingParams;
  (** the attribute [inv_freq], absent until the first call *)
  inv_freq : option (list F)
}.

Definition set_inv_freq (self : DeepseekYarnRotaryEmbedding) (v : list F)
    : DeepseekYarnRotaryEmbedding :=
  {| y_dim := y_dim self; y_n_heads := y_n_heads self;
     y_theta := y_theta self; y_max_seq_len := y_max_seq_len self;
     y_freqs_cis := y_freqs_cis self; y_interleaved := y_interleaved self;
     scaling_params := scaling_params self; inv_freq := Some v |}.

Definition set_y_freqs_cis (self : DeepseekYarnRotaryEmbedding)
    (t : FreqsCis) : DeepseekYarnRotaryEmbedding :=
  {| y_dim := y_dim self; y_n_heads := y_n_heads self;
     y_theta := y_theta self; y_max_seq_len := y_max_seq_len self;
     y_freqs_cis := Some t; y_interleaved := y_interleaved self;
     scaling_params := scaling_params self; inv_freq := inv_freq self |}.

(** [_yarn_get_mscale]. *)
Definition _yarn_get_mscale (scale mscale : R) : R :=
  if Rle_dec scale 1 then 1 else 1 / 10 * mscale * ln scale + 1.

(** [_yarn_find_correction_dim]. *)
Definition _yarn_find_correction_dim (num_rotations : F) (dim : nat)
    (base : Z) (max_position_embeddings : Z) : F :=
  let max_pos := const (IZR max_position_embeddings) in
  let base_tensor := const (IZR base) in
  let dim_tensor := const (INR dim) in
  fdiv (fmul dim_tensor
             (flog (fdiv max_pos
                         (fmul (fmul num_rotations (const 2)) (const PI)))))
       (fmul (const 2) (flog base_tensor)).

(** [_yarn_find_correction_range]. *)
Definition _yarn_find_correction_range (low_rot high_rot : F) (dim : nat)
    (base : Z) (max_position_embeddings : Z) : F * F :=
  let low :=
    ffloor (_yarn_find_correction_dim low_rot dim base
                                      max_position_embeddings) in
  let high :=
    ffloor (_yarn_find_correction_dim high_rot dim base
                                      max_position_embeddings) in
  (fmax low (const 0), fmin high (const (IZR (Z.of_nat dim - 1)))).

(** [min == max] on two scalars. *)
Definition feqb (a b : F) : bool :=
  match a, b with
  | Some x, Some y => if Req_dec_T x y then true else false
  | _, _ => false
  end.

(** [_yarn_linear_ramp_mask]. *)
Definition _yarn_linear_ramp_mask (min max : F) (dim : nat) : list F :=
  let max := if feqb min max then fadd max (const (1 / 1000)) else max in
  let linear_func :=
    map (fun j => fdiv (fsub j min) (fsub max min))
        (ops_range 0 (INR dim) 1 dim) in
  map (fun e => fmin (fmax e (const 0)) (const 1)) linear_func.

(** The locals [low, high] of [_compute_yarn_freqs] (lines 292-298), or
    the exception of [int(self.theta)] (line 296). *)
Definition yarn_correction_range (self : DeepseekYarnRotaryEmbedding)
    (sp : DeepseekYarnRopeScalingParams) : res (F * F) :=
  base <- py_int (y_theta self) ;;
  Ok (_yarn_find_correction_range
        (const (IZR (beta_fast sp)))
        (const (IZR (beta_slow sp)))
        (y_dim self)
        base
        (original_max_position_embeddings sp)).

(** The tensor [inv_freq] of [_compute_yarn_freqs] (lines 280-308), or the
    exception raised on the way. *)
Definition yarn_inv_freq (self : DeepseekYarnRotaryEmbedding)
    (sp : DeepseekYarnRopeScalingParams) : res (list F) :=
  let dim := (y_dim self / 2)%nat in
  let range_output := ops_range 0 (INR (y_dim self)) 2 dim in
  let freq_base :=
    map (fun e =>
           float_pow (y_theta self) (fdiv e (const (INR (y_dim self)))))
        range_output in
  let freq_extra := map (fun e => fdiv (const 1) e) freq_base in
  let freq_inter :=
    map (fun e => fdiv (const 1) (fmul (const (scaling_factor sp)) e))
        freq_base in
  range <- yarn_correction_range self sp ;;
  let '(low, high) := range in
  let inv_freq_mask :=
    map (fun e => fsub (const 1) e) (_yarn_linear_ramp_mask low high dim) in
  Ok (map (fun '(fi, (fe, m)) =>
             fadd (fmul fi (fsub (const 1) m)) (fmul fe m))
          (combine freq_inter (combine freq_extra inv_freq_mask))).

(** [_compute_yarn_freqs]: the engine after the call, and the pair
    [(freqs_cos, freqs_sin)] or the exception. *)
Definition _compute_yarn_freqs (self : DeepseekYarnRotaryEmbedding)
    (x : Activation)
    : DeepseekYarnRotaryEmbedding * res (list (list F) * list (list F)) :=
  match scaling_params self with
  | None => (self, Raise (ValueError "scaling_params must be provided"%string))
  | Some sp =>
      let seq_len := shape_last2 x in
      match yarn_inv_freq self sp with
      | Raise e => (self, Raise e)
      | Ok inv_freq =>
          let self := set_inv_freq self inv_freq in
          let t := ops_range 0 (INR seq_len) 1 seq_len in
          let freqs := ops_outer t inv_freq in
          match py_truediv
                  (_yarn_get_mscale (scaling_factor sp) (mscale sp))
                  (_yarn_get_mscale (scaling_factor sp)
                                    (mscale_all_dim sp)) with
          | Raise e => (self, Raise e)
          | Ok _mscale =>
              let emb := map (fun r => r ++ r) freqs in
              let freqs_cos :=
                map (map (fun e => fmul (fcos e) (const _mscale))) emb in
              let freqs_sin :=
                map (map (fun e => fmul (fsin e) (const _mscale))) emb in
              (set_y_freqs_cis self (Freqs3 [freqs_cos; freqs_sin]),
               Ok (freqs_cos, freqs_sin))
          end
      end
  end.

(** [DeepseekYarnRotaryEmbedding.__call__]: [start_pos] and [seq_len] are
    accepted and not used. *)
Definition yarn__call__ (self : DeepseekYarnRotaryEmbedding) (x : Activation)
    (start_pos seq_len : option nat)
    : DeepseekYarnRotaryEmbedding * res (list (list (list F))) :=
  match _compute_yarn_freqs self x with
  | (self', Ok (freqs_cos, freqs_sin)) => (self', Ok [freqs_cos; freqs_sin])
  | (self', Raise e) => (self', Raise e)
  end.

(** ** The correction range in the words of the specification

    Two definitions that follow the specification, to be compared with
    [yarn_correction_range]: the first as the specification has it, the
    second with the base and the upper clamp the code uses. *)

(** [correction_dim(r) = dim * ln(max_position / (r * 2 pi)) / (2 * ln b)]. *)
Definition correction_dim_formula (dim : nat) (b : R) (max_position : Z)
    (r : R) : F :=
  fdiv (fmul (const (INR dim))
             (flog (fdiv (const (IZR max_position)) (const (r * (2 * PI))))))
       (fmul (const 2) (flog (const b))).

(** With [theta] as the base, [low] clamped to [>= 0] and [high] to
    [<= dim/2 - 1]. *)
Definition claimed_correction_range (dim : nat) (theta : R)
    (sp : DeepseekYarnRopeScalingParams) : F * F :=
  let cd :=
    correction_dim_formula dim theta
                           (original_max_position_embeddings sp) in
  (fmax (ffloor (cd (IZR (beta_fast sp)))) (const 0),
   fmin (ffloor (cd (IZR (beta_slow sp)))) (const (INR (dim / 2) - 1))).

(** With [int(theta)] as the base, [low] clamped to [>= 0] and [high] to
    [<= dim - 1]. *)
Definition amended_correction_range (dim : nat) (theta : R)
    (sp : DeepseekYarnRopeScalingParams) : F * F :=
  let cd :=
    correction_dim_formula dim (IZR (py_trunc theta))
                           (original_max_position_embeddings sp) in
  (fmax (ffloor (cd (IZR (beta_fast sp)))) (const 0),
   fmin (ffloor (cd (IZR (beta_slow sp)))) (const (INR dim - 1))).

(** ** Names for parts of the ramp, used to state its properties *)

(** The divisor [max - min] of [_yarn_linear_ramp_mask] for finite bounds,
    after the nudge of [max]. *)
Definition ramp_divisor (l h : R) : R :=
  (if Req_dec_T l h then h + 1 / 1000 else h) - l.

(** [min(max(v, 0), 1)]. *)
Definition clamp01 (v : R) : R := Rmin (Rmax v 0) 1.

(** ** Relating the two layouts of the cache *)

Definition same_config (a b : RotaryEmbedding) : Prop :=
  dim a = dim b /\ n_heads a = n_heads b /\ theta a = theta b /\
  max_seq_len a = max_seq_len b /\ interleaved a = interleaved b.

Definition pair_rows (t : list (list (list F))) : Prop :=
  Forall (Forall (fun p => length p = 2%nat)) t.

(** An optimized engine and a base engine of one configuration agree when
    both are as built, or when the cache of the first holds the flattened
    form of the table the second holds. *)
Inductive layouts_agree (opt base : RotaryEmbedding) : Prop :=
| agree_fresh :
    klass opt = Optimized -> klass base = Base -> same_config opt base ->
    _freqs_cis opt = None -> _freqs_cis base = None ->
    freqs_cis_slot opt = None -> freqs_cis_slot base = None ->
    layouts_agree opt base
| agree_cached (t : list (list (list F))) :
    klass opt = Optimized -> klass base = Base -> same_config opt base ->
    pair_rows t ->
    freqs_cis_slot opt = Some (Freqs2 (map (@concat F) t)) ->
    freqs_cis_slot base = Some (Freqs3 t) ->
    layouts_agree opt base.

(** ** Pairs, rotations and shapes, to state what [__call__] returns *)

(** [map] over two lists in step. *)
Definition zmap {A B C : Type} (g : A -> B -> C) (l1 : list A) (l2 : list B)
    : list C :=
  map (fun '(a, b) => g a b) (combine l1 l2).

(** The (real, imaginary) pairs of one row of [head_dim] values:
    neighbours in the interleaved layout, the two halves side by side
    otherwise. *)
Fixpoint deinterleave (row : list F) : list (F * F) :=
  match row with
  | a :: b :: r => (a, b) :: deinterleave r
  | _ => []
  end.

Definition pair_view (interleaved : bool) (row : list F) : list (F * F) :=
  if interleaved then deinterleave row
  else combine (firstn (length row / 2) row) (skipn (length row / 2) row).

(** The row that holds the given pairs. *)
Definition row_of_pairs (interleaved : bool) (ps : list (F * F)) : list F :=
  if interleaved then concat (map (fun '(re, im) => [re; im]) ps)
  else map fst ps ++ map snd ps.

(** The pair [(re, im)] turned by the angle [a]:
    [re' = re cos a - im sin a], [im' = re sin a + im cos a]. *)
Definition rot (p : F * F) (a : F) : F * F :=
  let '(re, im) := p in
  (fsub (fmul re (fcos a)) (fmul im (fsin a)),
   fadd (fmul re (fsin a)) (fmul im (fcos a))).


(** The elements of [x] fill its static shape. *)
Definition wf_activation (x : Activation) : Prop :=
  let '(d0, d1, d2, d3) := shape x in
  length (elems x) = d0 /\
  Forall (fun xb =>
    length xb = d1 /\
    Forall (fun xs =>
      length xs = d2 /\
      Forall (fun row => length row = d3) xs) xb) (elems x).

(** The angles of the window: row [i] holds [(start_pos + i) * f] for
    each inverse frequency [f]. *)
Definition window_angles (inv_freqs : list F) (max_seq_len : nat)
    (start_pos seq_len : nat) : list (list F) :=
  firstn seq_len
    (skipn start_pos
       (ops_outer (ops_range 0 (INR max_seq_len * 2) 1 (max_seq_len * 2))
                  inv_freqs)).

(** A rank-4 tensor made row by row: the row of every head at position
    [i] is [G] of row [i] of [angles] and of the row of [t] there. *)
Definition per_row (G : list F -> list F -> list F)
    (angles : list (list F)) (t : T4) : T4 :=
  map (fun xb => zmap (fun xs a => map (G a) xs) xb angles) t.

(** Every pair at position [i] turned by its angle in row [i] of
    [angles]. *)
Definition rotate_rows (interleaved : bool) (angles : list (list F))
    (t : T4) : T4 :=
  per_row (fun a row =>
             row_of_pairs interleaved (zmap rot (pair_view interleaved row) a))
          angles t.

(** ** Finite tensors and the change of layout *)

(** Every element of [x] is finite. *)
Definition finite_activation (x : Activation) : Prop :=
  Forall (Forall (Forall (Forall (fun e : F => e <> None)))) (elems x).

(** A row in the interleaved layout rewritten in the split-half layout:
    the real parts first, then the imaginary parts. *)
Definition to_split_half (row : list F) : list F :=
  row_of_pairs false (pair_view true row).

(** [g] applied to every row of [x]. *)
Definition map_rows (g : list F -> list F) (x : Activation) : Activation :=
  {| shape := shape x; elems := map (map (map g)) (elems x) |}.

(** One row rotated by the angles [a], pair by pair. *)
Definition rotate_row (interleaved : bool) (a : list F) (row : list F)
    : list F :=
  row_of_pairs interleaved (zmap rot (pair_view interleaved row) a).

(** ** Broadcasting, to state what a call returns *)

(** A list of length 1 repeated [n] times; any other list as it is. *)
Definition expand {A : Type} (n : nat) (l : list A) : list A :=
  match l with
  | [a] => repeat a n
  | _ => l
  end.

(** The angles a call uses at the positions and pairs of [x]: the window
    [A], a single row of it being repeated over the [d1] positions and a
    single angle of a row over the [k] pairs. *)
Definition broadcast_angles (d1 k : nat) (A : list (list F))
    : list (list F) :=
  map (expand k) (expand d1 A).


(** The elements of [t] fill the shape [s]. *)
Definition shaped4 (s : nat * nat * nat * nat) (t : T4) : Prop :=
  let '(d0, d1, d2, d3) := s in
  length t = d0 /\
  Forall (fun xb =>
    length xb = d1 /\
    Forall (fun xs =>
      length xs = d2 /\
      Forall (fun row => length row = d3) xs) xb) t.

(** * Properties *)

(** ** Elementary facts on elements and lists *)

Lemma fdiv_some (x y : R) : y <> 0 -> fdiv (Some x) (Some y) = Some (x / y).
Proof.
  intros Hy. unfold fdiv.
  destruct (Req_dec_T y 0); [contradiction | reflexivity].
Qed.

Lemma fpow_pos (b e : R) : 0 < b -> fpow b (Some e) = Some (Rpower b e).
Proof.
  intros Hb. unfold fpow. destruct (Rlt_dec 0 b); [reflexivity | contradiction].
Qed.

Lemma Rpower_pos (b e : R) : 0 < Rpower b e.
Proof. unfold Rpower. apply exp_pos. Qed.

Lemma half_lt_INR (n k : nat) : (k < n / 2)%nat -> 0 < INR n.
Proof.
  intros Hk. apply lt_0_INR.
  destruct n as [| n]; [simpl in Hk; lia | lia].
Qed.

(** ** The frequency builder *)

(** Component [k] of the base inverse-frequency vector, for a head
    dimension [n]. *)
Lemma inv_freq_component (th : R) (n k : nat) :
  0 < th -> (k < n / 2)%nat ->
  fdiv (const 1)
       (fpow th (fdiv (const (0 + INR k * 2)) (const (INR n))))
  = Some (1 / Rpower th (2 * INR k / INR n)).
Proof.
  intros Hth Hk. unfold const.
  pose proof (half_lt_INR n k Hk) as Hn.
  rewrite fdiv_some by lra.
  rewrite fpow_pos by assumption.
  pose proof (Rpower_pos th ((0 + INR k * 2) / INR n)) as Hp.
  rewrite fdiv_some by lra.
  do 3 f_equal. lra.
Qed.

Lemma base_inv_freqs_eq (self : RotaryEmbedding) :
  n_heads self <> O -> 0 < theta self ->
  base_compute_inv_freqs self
  = Ok (map (fun k => Some (1 / Rpower (theta self)
                              (2 * INR k / INR (dim self / n_heads self))))
            (seq 0 (dim self / n_heads self / 2))).
Proof.
  intros Hh Hth. unfold base_compute_inv_freqs, py_floordiv.
  destruct (n_heads self) as [| h] eqn:E; [contradiction |].
  simpl bind. f_equal. unfold ops_range. rewrite map_map.
  apply map_ext_in. intros k Hk. apply in_seq in Hk.
  apply inv_freq_component; [assumption | lia].
Qed.

(** C1. For a configuration with a positive base [theta] (and a head count
    that is not zero), the frequency builder returns a vector of length
    [head_dim / 2], where [head_dim = dim // n_heads]; its entry [j] is
    [1 / theta ^ (2 j / head_dim)]; and for [theta > 1] every entry is
    positive and the entries are strictly decreasing. *)
Theorem inv_freqs_spec (self : RotaryEmbedding) :
  n_heads self <> O -> 0 < theta self ->
  let head_dim := (dim self / n_heads self)%nat in
  exists v : list F,
    base_compute_inv_freqs self = Ok v /\
    length v = (head_dim / 2)%nat /\
    (forall j, (j < head_dim / 2)%nat ->
       nth j v None
       = Some (1 / Rpower (theta self) (2 * INR j / INR head_dim))) /\
    (1 < theta self ->
       (forall j, (j < head_dim / 2)%nat ->
          exists a, nth j v None = Some a /\ 0 < a) /\
       (forall i j a b, (i < j < head_dim / 2)%nat ->
          nth i v None = Some a -> nth j v None = Some b -> b < a)).
Proof.
  intros Hh Hth head_dim.
  set (g := fun k : nat =>
              Some (1 / Rpower (theta self) (2 * INR k / INR head_dim))).
  assert (Hnth : forall j, (j < head_dim / 2)%nat ->
            nth j (map g (seq 0 (head_dim / 2))) None = g j).
  { intros j Hj.
    rewrite nth_indep with (d' := g O) by (rewrite length_map, length_seq; lia).
    rewrite map_nth, seq_nth by lia. reflexivity. }
  exists (map g (seq 0 (head_dim / 2))). split; [| split; [| split]].
  - apply base_inv_freqs_eq; assumption.
  - rewrite length_map, length_seq. reflexivity.
  - exact Hnth.
  - intros Hth1. split.
    + intros j Hj. eexists. split; [apply Hnth; assumption |].
      apply Rdiv_lt_0_compat; [lra | apply Rpower_pos].
    + intros i j a b [Hij Hj] Ha Hb.
      rewrite Hnth in Ha by lia. rewrite Hnth in Hb by lia.
      unfold g in Ha, Hb. injection Ha as <-. injection Hb as <-.
      pose proof (half_lt_INR head_dim j Hj) as Hn.
      assert (Hlt : Rpower (theta self) (2 * INR i / INR head_dim)
                    < Rpower (theta self) (2 * INR j / INR head_dim)).
      { apply Rpower_lt; [assumption |].
        apply Rmult_lt_compat_r; [apply Rinv_0_lt_compat; assumption |].
        apply lt_INR in Hij. lra. }
      unfold Rdiv. rewrite !Rmult_1_l.
      apply Rinv_lt_contravar; [| assumption].
      apply Rmult_lt_0_compat; apply Rpower_pos.
Qed.

Lemma inv_freqs_spec_witness :
  exists v : list F,
    base_compute_inv_freqs
      {| klass := Base; dim := 8; n_heads := 1; theta := 10000;
         max_seq_len := 4; _freqs_cis := None; interleaved := false;
         freqs_cis_slot := None |} = Ok v /\
    length v = 4%nat.
Proof.
  destruct (inv_freqs_spec
              {| klass := Base; dim := 8; n_heads := 1; theta := 10000;
                 max_seq_len := 4; _freqs_cis := None; interleaved := false;
                 freqs_cis_slot := None |})
    as (v & Hv & Hlen & _).
  - simpl. discriminate.
  - simpl. lra.
  - exists v. split; [exact Hv | exact Hlen].
Defined.

(** ** Construction *)

(** C9 fails as stated: with [dim = 5] and [n_heads = 2] the constructor
    returns an engine. *)
Lemma build_non_divisible_counterexample :
  (5 mod 2 <> 0)%nat /\
  exists self, build Base 5 2 10000 4 true = Ok self.
Proof.
  split; [simpl; discriminate | eexists; reflexivity].
Qed.

(** C9, amended. Construction never fails: whatever [dim] and [n_heads]
    are, [build] returns an engine that holds the arguments and an empty
    cache.  The head dimension is taken later, by the frequency builder, as
    the floor [dim // n_heads]: with a positive [theta] the builder succeeds
    for every [n_heads] other than zero, divisor of [dim] or not, and for
    [n_heads = 0] it is the builder that raises [ZeroDivisionError]. *)
Theorem build_never_fails (k : cls) (d h : nat) (th : R) (m : nat)
    (il : bool) :
  exists self,
    build k d h th m il = Ok self /\
    klass self = k /\ dim self = d /\ n_heads self = h /\
    theta self = th /\ max_seq_len self = m /\ interleaved self = il /\
    _freqs_cis self = None /\ freqs_cis_slot self = None /\
    (h <> O -> 0 < th ->
     exists v, base_compute_inv_freqs self = Ok v /\
               length v = (d / h / 2)%nat) /\
    (h = O -> base_compute_inv_freqs self = Raise ZeroDivisionError).
Proof.
  eexists. split; [reflexivity |]. simpl.
  repeat (split; [reflexivity |]). split.
  - intros Hh Hth. eexists. split.
    + apply base_inv_freqs_eq; assumption.
    + simpl. rewrite length_map, length_seq. reflexivity.
  - intros ->. reflexivity.
Qed.

(** ** Linear-smooth rescaling (Llama 3) *)

Lemma flt_some (x y : R) :
  flt (Some x) (Some y) = Some (if Rlt_dec x y then true else false).
Proof. reflexivity. Qed.

Lemma wave_len_pos (f : R) : 0 < f -> 0 < 2 * PI / f.
Proof.
  intros Hf. apply Rdiv_lt_0_compat; [| assumption].
  pose proof PI_RGT_0. lra.
Qed.

(** The smoothing coefficient at a finite, non-zero wavelength. *)
Lemma llama3_smooth_some (sp : Llama3RopeScalingParams) (w : R) :
  w <> 0 ->
  llama3_smooth sp (Some w)
  = Some (if Req_dec_T (low_freq_factor sp) (high_freq_factor sp) then 0
          else (IZR (orig_max_position sp) / w - low_freq_factor sp)
               / (high_freq_factor sp - low_freq_factor sp)).
Proof.
  intros Hw. unfold llama3_smooth, const.
  destruct (Req_dec_T (low_freq_factor sp) (high_freq_factor sp)) as [E | E];
    [reflexivity |].
  rewrite fdiv_some by assumption. simpl fsub.
  rewrite fdiv_some by lra. reflexivity.
Qed.

Lemma llama3_blend_some (sp : Llama3RopeScalingParams) (s f : R) :
  factor sp <> 0 ->
  llama3_blend sp (Some s) (Some f)
  = Some ((1 - s) * f / factor sp + s * f).
Proof.
  intros Hfac. unfold llama3_blend, const. simpl fsub. simpl fmul.
  rewrite fdiv_some by assumption. reflexivity.
Qed.

(** What [llama3_scale] does to a positive component. *)
Lemma llama3_scale_cases (sp : Llama3RopeScalingParams) (lw hw f : R) :
  0 < f ->
  let wavelen := 2 * PI / f in
  let smooth :=
    if Req_dec_T (low_freq_factor sp) (high_freq_factor sp) then 0
    else (IZR (orig_max_position sp) / wavelen - low_freq_factor sp)
         / (high_freq_factor sp - low_freq_factor sp) in
  (wavelen < hw -> llama3_scale sp lw hw (Some f) = Some f) /\
  (~ wavelen < hw -> lw < wavelen -> factor sp <> 0 ->
   llama3_scale sp lw hw (Some f) = Some (f / factor sp)) /\
  (~ wavelen < hw -> ~ lw < wavelen -> factor sp <> 0 ->
   llama3_scale sp lw hw (Some f)
   = Some ((1 - smooth) * f / factor sp + smooth * f)).
Proof.
  intros Hf wavelen smooth.
  pose proof (wave_len_pos f Hf) as Hw. fold wavelen in Hw.
  unfold llama3_scale, const, fgt.
  rewrite fdiv_some by lra. fold wavelen.
  rewrite !flt_some.
  split; [| split].
  - intros H. destruct (Rlt_dec wavelen hw); [reflexivity | contradiction].
  - intros H1 H2 Hfac.
    destruct (Rlt_dec wavelen hw); [contradiction |].
    destruct (Rlt_dec lw wavelen); [| contradiction].
    simpl. apply fdiv_some. assumption.
  - intros H1 H2 Hfac.
    destruct (Rlt_dec wavelen hw); [contradiction |].
    destruct (Rlt_dec lw wavelen); [contradiction |].
    simpl select. rewrite llama3_smooth_some by lra.
    rewrite llama3_blend_some by assumption. reflexivity.
Qed.

(** C3. With scaling parameters whose two frequency factors are not zero,
    the Llama 3 frequency builder returns, for the component [f] of the
    base vector at each index, [f] itself when its wavelength
    [2 pi / f] is below [high_wavelen]; otherwise [f / factor] when the
    wavelength is above [low_wavelen]; otherwise the blend
    [(1 - smooth) * f / factor + smooth * f], where [smooth] is 0 when the
    two factors are equal (its quotient is then not formed and the entry is
    finite) and [(orig_max_position / wavelen - low_freq_factor) /
    (high_freq_factor - low_freq_factor)] otherwise.  Without scaling
    parameters the base vector is returned as it is. *)
Theorem llama3_inv_freqs_piecewise (self : RotaryEmbedding)
    (sp : Llama3RopeScalingParams) :
  n_heads self <> O -> 0 < theta self ->
  low_freq_factor sp <> 0 -> high_freq_factor sp <> 0 ->
  let low_wavelen := IZR (orig_max_position sp) / low_freq_factor sp in
  let high_wavelen := IZR (orig_max_position sp) / high_freq_factor sp in
  exists base v : list F,
    base_compute_inv_freqs self = Ok base /\
    llama3_compute_inv_freqs self None = Ok base /\
    llama3_compute_inv_freqs self (Some sp) = Ok v /\
    length v = length base /\
    (forall w : F, low_freq_factor sp = high_freq_factor sp ->
       llama3_smooth sp w = Some 0) /\
    forall j, (j < length base)%nat ->
      exists f, nth j base None = Some f /\ 0 < f /\
        let wavelen := 2 * PI / f in
        let smooth :=
          if Req_dec_T (low_freq_factor sp) (high_freq_factor sp) then 0
          else (IZR (orig_max_position sp) / wavelen - low_freq_factor sp)
               / (high_freq_factor sp - low_freq_factor sp) in
        (wavelen < high_wavelen -> nth j v None = Some f) /\
        (~ wavelen < high_wavelen -> low_wavelen < wavelen ->
         factor sp <> 0 -> nth j v None = Some (f / factor sp)) /\
        (~ wavelen < high_wavelen -> ~ low_wavelen < wavelen ->
         factor sp <> 0 ->
         nth j v None = Some ((1 - smooth) * f / factor sp + smooth * f)).
Proof.
  intros Hh Hth Hlo Hhi low_wavelen high_wavelen.
  pose proof (base_inv_freqs_eq self Hh Hth) as Hbase.
  set (n := (dim self / n_heads self)%nat) in *.
  set (g := fun k : nat => Some (1 / Rpower (theta self) (2 * INR k / INR n)))
    in *.
  exists (map g (seq 0 (n / 2))).
  exists (map (llama3_scale sp low_wavelen high_wavelen)
              (map g (seq 0 (n / 2)))).
  split; [exact Hbase |]. split; [| split; [| split; [| split]]].
  - unfold llama3_compute_inv_freqs. rewrite Hbase. reflexivity.
  - unfold llama3_compute_inv_freqs, py_truediv. rewrite Hbase. simpl bind.
    destruct (Req_dec_T (low_freq_factor sp) 0); [contradiction |].
    destruct (Req_dec_T (high_freq_factor sp) 0); [contradiction |].
    reflexivity.
  - rewrite !length_map. reflexivity.
  - intros w E. unfold llama3_smooth.
    destruct (Req_dec_T (low_freq_factor sp) (high_freq_factor sp));
      [reflexivity | contradiction].
  - intros j Hj. rewrite length_map, length_seq in Hj.
    assert (Hg : nth j (map g (seq 0 (n / 2))) None = g j).
    { rewrite nth_indep with (d' := g O)
        by (rewrite length_map, length_seq; lia).
      rewrite map_nth, seq_nth by lia. reflexivity. }
    assert (Hv : nth j (map (llama3_scale sp low_wavelen high_wavelen)
                            (map g (seq 0 (n / 2)))) None
                 = llama3_scale sp low_wavelen high_wavelen (g j)).
    { rewrite nth_indep
        with (d' := llama3_scale sp low_wavelen high_wavelen None)
        by (rewrite !length_map, length_seq; lia).
      rewrite map_nth. f_equal. exact Hg. }
    exists (1 / Rpower (theta self) (2 * INR j / INR n)).
    split; [exact Hg |].
    assert (Hpos : 0 < 1 / Rpower (theta self) (2 * INR j / INR n)).
    { apply Rdiv_lt_0_compat; [lra | apply Rpower_pos]. }
    split; [exact Hpos |].
    rewrite Hv. unfold g.
    exact (llama3_scale_cases sp low_wavelen high_wavelen _ Hpos).
Qed.

Lemma llama3_inv_freqs_piecewise_witness :
  exists base v : list F,
    llama3_compute_inv_freqs
      {| klass := Llama3 None; dim := 8; n_heads := 1; theta := 10000;
         max_seq_len := 4; _freqs_cis := None; interleaved := true;
         freqs_cis_slot := None |}
      (Some {| factor := 8; low_freq_factor := 1; high_freq_factor := 4;
               orig_max_position := 8192 |}) = Ok v /\
    length v = length base.
Proof.
  destruct (llama3_inv_freqs_piecewise
              {| klass := Llama3 None; dim := 8; n_heads := 1;
                 theta := 10000; max_seq_len := 4; _freqs_cis := None;
                 interleaved := true; freqs_cis_slot := None |}
              {| factor := 8; low_freq_factor := 1; high_freq_factor := 4;
                 orig_max_position := 8192 |})
    as (base & v & _ & _ & Hv & Hlen & _).
  - simpl. discriminate.
  - simpl. lra.
  - simpl. lra.
  - simpl. lra.
  - exists base, v. split; [exact Hv | exact Hlen].
Defined.

(** The three regions of [llama3_scale] by the component itself: with
    [fl = 2 pi low_freq_factor / orig_max_position] and
    [fh = 2 pi high_freq_factor / orig_max_position], a component above
    [fh] is kept, one below [fl] is divided by [factor], and between the
    two [smooth] is [K (f - fl)] for
    [K = orig_max_position / (2 pi (high_freq_factor - low_freq_factor))]. *)
Lemma llama3_scale_by_freq (sp : Llama3RopeScalingParams) (f : R) :
  0 < f -> 0 < low_freq_factor sp ->
  low_freq_factor sp < high_freq_factor sp ->
  0 < IZR (orig_max_position sp) -> factor sp <> 0 ->
  let lw := IZR (orig_max_position sp) / low_freq_factor sp in
  let hw := IZR (orig_max_position sp) / high_freq_factor sp in
  let fl := 2 * PI * low_freq_factor sp / IZR (orig_max_position sp) in
  let fh := 2 * PI * high_freq_factor sp / IZR (orig_max_position sp) in
  let K := IZR (orig_max_position sp)
           / (2 * PI * (high_freq_factor sp - low_freq_factor sp)) in
  (fh < f -> llama3_scale sp lw hw (Some f) = Some f) /\
  (f < fl -> llama3_scale sp lw hw (Some f) = Some (f / factor sp)) /\
  (fl <= f <= fh ->
   llama3_scale sp lw hw (Some f)
   = Some ((1 - K * (f - fl)) * f / factor sp + K * (f - fl) * f)).
Proof.
  intros Hf Ha Hab Ho Hc lw hw fl fh K.
  pose proof PI_RGT_0 as Hpi.
  set (o := IZR (orig_max_position sp)) in *.
  set (a := low_freq_factor sp) in *.
  set (b := high_freq_factor sp) in *.
  destruct (llama3_scale_cases sp lw hw f Hf) as (C1 & C2 & C3).
  fold o a b in C3.
  assert (Hlt : forall u w : R, 0 < u -> 0 < w ->
            (2 * PI / f < o / u <-> 2 * PI * u / o < f)).
  { intros u w Hu _. split; intros H.
    - apply Rmult_lt_reg_r with (r := o / u);
        [apply Rdiv_lt_0_compat; lra |].
      replace (2 * PI * u / o * (o / u)) with (2 * PI) by (field; lra).
      apply Rmult_lt_compat_l with (r := f) in H; [| exact Hf].
      replace (f * (2 * PI / f)) with (2 * PI) in H by (field; lra).
      lra.
    - apply Rmult_lt_reg_r with (r := f); [exact Hf |].
      replace (2 * PI / f * f) with (2 * PI) by (field; lra).
      apply Rmult_lt_compat_r with (r := o / u) in H;
        [| apply Rdiv_lt_0_compat; lra].
      replace (2 * PI * u / o * (o / u)) with (2 * PI) in H by (field; lra).
      lra. }
  assert (Hgt : o / a < 2 * PI / f <-> f < 2 * PI * a / o).
  { split; intros H.
    - apply Rmult_lt_reg_r with (r := o / a);
        [apply Rdiv_lt_0_compat; lra |].
      replace (2 * PI * a / o * (o / a)) with (2 * PI) by (field; lra).
      apply Rmult_lt_compat_l with (r := f) in H; [| exact Hf].
      replace (f * (2 * PI / f)) with (2 * PI) in H by (field; lra).
      lra.
    - apply Rmult_lt_reg_r with (r := f); [exact Hf |].
      replace (2 * PI / f * f) with (2 * PI) by (field; lra).
      apply Rmult_lt_compat_r with (r := o / a) in H;
        [| apply Rdiv_lt_0_compat; lra].
      replace (2 * PI * a / o * (o / a)) with (2 * PI) in H by (field; lra).
      lra. }
  assert (Hflh : fl < fh).
  { unfold fl, fh. apply Rmult_lt_compat_r;
      [apply Rinv_0_lt_compat; exact Ho |].
    apply Rmult_lt_compat_l; lra. }
  unfold fl, fh in Hflh.
  split; [| split].
  - intros H. unfold fh in H. apply C1. apply (Hlt b 1); lra.
  - intros H. unfold fl in H. apply C2; [| apply Hgt; exact H | exact Hc].
    intros H'. apply (Hlt b 1) in H'; lra.
  - intros [H1 H2]. unfold fl in H1. unfold fh in H2.
    rewrite C3; [| | | exact Hc].
    + destruct (Req_dec_T a b) as [E | _]; [lra |].
      f_equal. unfold K, fl. field. repeat split; lra.
    + intros H'. apply (Hlt b 1) in H'; lra.
    + intros H'. apply Hgt in H'. lra.
Qed.

(** The blend at the two ends of the mid band. *)
Lemma llama3_blend_at_bounds (sp : Llama3RopeScalingParams) (f : R) :
  0 < f ->
  low_freq_factor sp <> high_freq_factor sp ->
  low_freq_factor sp <> 0 -> high_freq_factor sp <> 0 ->
  factor sp <> 0 ->
  let wave_len := fdiv (const (2 * PI)) (Some f) in
  let blend := llama3_blend sp (llama3_smooth sp wave_len) (Some f) in
  (wave_len = Some (IZR (orig_max_position sp) / high_freq_factor sp) ->
   blend = Some f) /\
  (wave_len = Some (IZR (orig_max_position sp) / low_freq_factor sp) ->
   blend = Some (f / factor sp)).
Proof.
  intros Hf Hne Hlo Hhi Hfac wave_len blend.
  pose proof (wave_len_pos f Hf) as Hw.
  assert (Ewl : wave_len = Some (2 * PI / f)).
  { unfold wave_len, const. apply fdiv_some. lra. }
  assert (Eb : blend
               = Some ((1 - (IZR (orig_max_position sp) / (2 * PI / f)
                             - low_freq_factor sp)
                            / (high_freq_factor sp - low_freq_factor sp))
                       * f / factor sp
                       + (IZR (orig_max_position sp) / (2 * PI / f)
                          - low_freq_factor sp)
                         / (high_freq_factor sp - low_freq_factor sp) * f)).
  { unfold blend. rewrite Ewl. rewrite llama3_smooth_some by lra.
    destruct (Req_dec_T (low_freq_factor sp) (high_freq_factor sp));
      [contradiction |].
    apply llama3_blend_some. assumption. }
  rewrite Ewl, Eb.
  assert (Ho : forall u, 2 * PI / f = IZR (orig_max_position sp) / u ->
            IZR (orig_max_position sp) <> 0).
  { intros u E Z0. rewrite Z0 in E. unfold Rdiv in E at 2.
    rewrite Rmult_0_l in E. lra. }
  split; intros E; injection E as E; pose proof (Ho _ E) as Hz;
    rewrite E; f_equal; field; repeat split; try assumption; lra.
Qed.

Lemma Rabs_prod_lt (d q M delta eps : R) :
  0 < M -> Rabs d < delta -> delta <= eps / M -> - M <= q <= M ->
  Rabs (d * q) < eps.
Proof.
  intros HM Hd Hde Hq. rewrite Rabs_mult.
  assert (Hq' : Rabs q <= M) by (apply Rabs_le; exact Hq).
  apply Rle_lt_trans with (Rabs d * M).
  - apply Rmult_le_compat_l; [apply Rabs_pos | exact Hq'].
  - apply Rlt_le_trans with (delta * M).
    + apply Rmult_lt_compat_r; assumption.
    + apply Rle_trans with (eps / M * M).
      * apply Rmult_le_compat_r; lra.
      * right. field. lra.
Qed.

(** C4 fails as stated: distinct frequency factors are not enough.  With
    [factor = 8], [low_freq_factor = 4], [high_freq_factor = 1] and
    [orig_max_position = 8192], so that [low_wavelen = 2048] is below
    [high_wavelen = 8192], the component [f = pi / 4096] has the wavelength
    [high_wavelen]; the blend formula gives [f] there, but the code selects
    the downscale branch and returns [f / 8], while it returns [f'] for
    every component [f' > f]: the rescaling jumps at [high_wavelen]. *)
Lemma llama3_rescaling_counterexample :
  let sp := {| factor := 8; low_freq_factor := 4; high_freq_factor := 1;
               orig_max_position := 8192 |} in
  let low_wavelen := IZR (orig_max_position sp) / low_freq_factor sp in
  let high_wavelen := IZR (orig_max_position sp) / high_freq_factor sp in
  let f := PI / 4096 in
  low_freq_factor sp <> high_freq_factor sp /\
  2 * PI / f = high_wavelen /\
  llama3_blend sp (llama3_smooth sp (Some (2 * PI / f))) (Some f) = Some f /\
  llama3_scale sp low_wavelen high_wavelen (Some f) = Some (f / 8) /\
  (forall f', f < f' ->
     llama3_scale sp low_wavelen high_wavelen (Some f') = Some f') /\
  f / 8 <> f.
Proof.
  intros sp low_wavelen high_wavelen f. pose proof PI_RGT_0 as Hpi.
  assert (Hf : 0 < f) by (unfold f; lra).
  assert (Ew : 2 * PI / f = 8192) by (unfold f; field; lra).
  unfold low_wavelen, high_wavelen.
  cbn [factor low_freq_factor high_freq_factor orig_max_position sp].
  split; [lra |]. split; [rewrite Ew; lra |]. split; [| split; [| split]].
  - destruct (llama3_blend_at_bounds sp f Hf) as [Bh _];
      cbn [factor low_freq_factor high_freq_factor orig_max_position sp];
      try lra.
    cbn [factor low_freq_factor high_freq_factor orig_max_position sp] in Bh.
    unfold const in Bh. rewrite fdiv_some in Bh by lra.
    apply Bh. f_equal. rewrite Ew. lra.
  - destruct (llama3_scale_cases sp (8192 / 4) (8192 / 1) f Hf)
      as (_ & C2 & _).
    apply C2; cbn [factor sp]; rewrite ?Ew; lra.
  - intros f' Hf'.
    destruct (llama3_scale_cases sp (8192 / 4) (8192 / 1) f'
                ltac:(lra)) as (C1 & _).
    apply C1.
    apply Rmult_lt_reg_r with (r := f'); [lra |].
    replace (2 * PI / f' * f') with (2 * PI) by (field; lra).
    unfold f in Hf'. lra.
  - unfold f. lra.
Qed.

(** C4, amended. For frequency factors [0 < low_freq_factor <
    high_freq_factor] (so that [high_wavelen < low_wavelen]), a scaling
    factor other than zero and a positive component [f]: when the
    wavelength [2 pi / f] equals [high_wavelen] the code returns the
    mid-band blend, which is [f], the value of the unchanged branch; when
    it equals [low_wavelen] the code returns the blend, which is
    [f / factor], the value of the downscale branch; and at both
    boundaries the rescaled value is a continuous function of the
    component: components close to [f] are rescaled to values close to the
    value at [f]. *)
Theorem llama3_rescaling_continuous (sp : Llama3RopeScalingParams) (f : R) :
  0 < f -> 0 < low_freq_factor sp ->
  low_freq_factor sp < high_freq_factor sp -> factor sp <> 0 ->
  let low_wavelen := IZR (orig_max_position sp) / low_freq_factor sp in
  let high_wavelen := IZR (orig_max_position sp) / high_freq_factor sp in
  let wavelen := 2 * PI / f in
  let blend := llama3_blend sp (llama3_smooth sp (Some wavelen)) (Some f) in
  let rescaled := llama3_scale sp low_wavelen high_wavelen in
  (wavelen = high_wavelen -> rescaled (Some f) = blend /\ blend = Some f) /\
  (wavelen = low_wavelen ->
   rescaled (Some f) = blend /\ blend = Some (f / factor sp)) /\
  (wavelen = high_wavelen \/ wavelen = low_wavelen ->
   forall eps, 0 < eps ->
     exists delta, 0 < delta /\
       forall f', 0 < f' -> Rabs (f' - f) < delta ->
         exists v v', rescaled (Some f) = Some v /\
                      rescaled (Some f') = Some v' /\
                      Rabs (v' - v) < eps).
Proof.
  intros Hf Ha Hab Hc low_wavelen high_wavelen wavelen blend rescaled.
  pose proof PI_RGT_0 as Hpi.
  pose proof (wave_len_pos f Hf) as Hw. fold wavelen in Hw.
  set (o := IZR (orig_max_position sp)) in *.
  set (a := low_freq_factor sp) in *.
  set (b := high_freq_factor sp) in *.
  set (c := factor sp) in *.
  assert (Ho : wavelen = high_wavelen \/ wavelen = low_wavelen -> 0 < o).
  { unfold high_wavelen, low_wavelen. intros [E | E]; rewrite E in Hw.
    - replace o with (o / b * b) by (field; lra).
      apply Rmult_lt_0_compat; lra.
    - replace o with (o / a * a) by (field; lra).
      apply Rmult_lt_0_compat; lra. }
  destruct (llama3_blend_at_bounds sp f Hf) as [Bh Bl]; try (fold a b c; lra).
  unfold const in Bh, Bl. rewrite fdiv_some in Bh, Bl by lra.
  fold wavelen o a b c blend in Bh, Bl.
  assert (Ef : forall u, 0 < u -> 0 < o -> wavelen = o / u ->
            f = 2 * PI * u / o).
  { intros u Hu Hop E. unfold wavelen in E.
    assert (E2 : 2 * PI = o / u * f) by (rewrite <- E; field; lra).
    apply Rmult_eq_reg_r with (r := o / u);
      [| apply Rgt_not_eq; apply Rdiv_lt_0_compat; lra].
    replace (2 * PI * u / o * (o / u)) with (2 * PI) by (field; lra).
    lra. }
  set (fl := 2 * PI * a / o).
  set (fh := 2 * PI * b / o).
  set (K := o / (2 * PI * (b - a))).
  assert (Hreg : 0 < o -> forall g, 0 < g ->
            (fh < g -> rescaled (Some g) = Some g) /\
            (g < fl -> rescaled (Some g) = Some (g / c)) /\
            (fl <= g <= fh ->
             rescaled (Some g)
             = Some ((1 - K * (g - fl)) * g / c + K * (g - fl) * g))).
  { intros Hop g Hg.
    exact (llama3_scale_by_freq sp g Hg Ha Hab Hop Hc). }
  assert (HK1 : 0 < o -> K * (fh - fl) = 1).
  { intros Hop. unfold K, fh, fl. field. repeat split; lra. }
  assert (Hfl : 0 < o -> 0 < fl).
  { intros Hop. unfold fl. apply Rdiv_lt_0_compat; [| exact Hop].
    apply Rmult_lt_0_compat; lra. }
  assert (Hflh : 0 < o -> fl < fh).
  { intros Hop. unfold fl, fh. apply Rmult_lt_compat_r;
      [apply Rinv_0_lt_compat; exact Hop |].
    apply Rmult_lt_compat_l; lra. }
  assert (HK : 0 < o -> 0 < K).
  { intros Hop. unfold K. apply Rdiv_lt_0_compat; [exact Hop |].
    apply Rmult_lt_0_compat; lra. }
  assert (Vh : wavelen = high_wavelen -> rescaled (Some f) = Some f).
  { intros E. pose proof (Ho (or_introl E)) as Hop.
    pose proof (Ef b ltac:(lra) Hop E) as Efh. fold fh in Efh.
    destruct (Hreg Hop f Hf) as (_ & _ & R3).
    rewrite R3 by (pose proof (Hflh Hop); lra).
    rewrite Efh. f_equal.
    replace (K * (fh - fl)) with 1 by (symmetry; apply HK1; exact Hop).
    field. exact Hc. }
  assert (Vl : wavelen = low_wavelen -> rescaled (Some f) = Some (f / c)).
  { intros E. pose proof (Ho (or_intror E)) as Hop.
    pose proof (Ef a Ha Hop E) as Efl. fold fl in Efl.
    destruct (Hreg Hop f Hf) as (_ & _ & R3).
    rewrite R3 by (pose proof (Hflh Hop); lra).
    rewrite Efl. f_equal. field. exact Hc. }
  split; [| split].
  - intros E. rewrite (Bh (f_equal Some E)).
    split; [apply Vh; exact E | reflexivity].
  - intros E. rewrite (Bl (f_equal Some E)).
    split; [apply Vl; exact E | reflexivity].
  - intros Hb eps Heps. pose proof (Ho Hb) as Hop.
    pose proof (HK Hop) as HKp. pose proof (Hflh Hop) as Hlh.
    pose proof (Hfl Hop) as Hflp. pose proof (HK1 Hop) as HK1'.
    set (ic := Rabs (/ c)).
    assert (Hic : - ic <= / c <= ic).
    { unfold ic. split.
      - pose proof (Rle_abs (- / c)) as H. rewrite Rabs_Ropp in H. lra.
      - apply Rle_abs. }
    assert (Hic0 : 0 <= ic) by (apply Rabs_pos).
    set (B := K * fh).
    assert (HB : 0 < B) by (apply Rmult_lt_0_compat; lra).
    set (M := 1 + ic + B * (1 + ic)).
    assert (HM : 0 < M) by (unfold M; nra).
    exists (Rmin (fh - fl) (eps / M)).
    split.
    { apply Rmin_glb_lt; [lra | apply Rdiv_lt_0_compat; assumption]. }
    intros g Hg Hd.
    assert (Hd1 : Rabs (g - f) < fh - fl)
      by (eapply Rlt_le_trans; [exact Hd | apply Rmin_l]).
    assert (Hd2 : Rmin (fh - fl) (eps / M) <= eps / M) by apply Rmin_r.
    apply Rabs_def2 in Hd1. destruct Hd1 as [Hd1 Hd1'].
    destruct (Hreg Hop g Hg) as (R1 & R2 & R3).
    assert (HP : forall P, 0 <= P <= B -> - (B * ic) <= P * / c <= B * ic).
    { intros P HP'. split; nra. }
    destruct Hb as [E | E].
    + pose proof (Ef b ltac:(lra) Hop E) as Efh. fold fh in Efh.
      exists f. rewrite (Vh E).
      destruct (Rlt_dec fh g) as [Hgt | Hle].
      * exists g. rewrite (R1 Hgt). split; [reflexivity |].
        split; [reflexivity |].
        replace (g - f) with ((g - f) * 1) by ring.
        apply Rabs_prod_lt with (M := M)
                                (delta := Rmin (fh - fl) (eps / M));
          try assumption. unfold M. nra.
      * eexists. rewrite R3 by lra. split; [reflexivity |].
        split; [reflexivity |].
        replace ((1 - K * (g - fl)) * g / c + K * (g - fl) * g - f)
          with ((g - f) * (1 - (K * g) * / c + K * g))
          by (rewrite Efh; replace (K * (g - fl))
                with (1 - K * (fh - g)) by lra; field; exact Hc).
        apply Rabs_prod_lt with (M := M)
                                (delta := Rmin (fh - fl) (eps / M));
          try assumption.
        assert (HPg : 0 <= K * g <= B) by (unfold B; split; nra).
        pose proof (HP _ HPg). unfold M. nra.
    + pose proof (Ef a Ha Hop E) as Efl. fold fl in Efl.
      exists (f / c). rewrite (Vl E).
      destruct (Rlt_dec g fl) as [Hlt | Hge].
      * exists (g / c). rewrite (R2 Hlt). split; [reflexivity |].
        split; [reflexivity |].
        replace (g / c - f / c) with ((g - f) * / c) by (field; exact Hc).
        apply Rabs_prod_lt with (M := M)
                                (delta := Rmin (fh - fl) (eps / M));
          try assumption. unfold M. nra.
      * eexists. rewrite R3 by lra. split; [reflexivity |].
        split; [reflexivity |].
        replace ((1 - K * (g - fl)) * g / c + K * (g - fl) * g - f / c)
          with ((g - f) * (/ c - (K * g) * / c + K * g))
          by (rewrite Efl; field; exact Hc).
        apply Rabs_prod_lt with (M := M)
                                (delta := Rmin (fh - fl) (eps / M));
          try assumption.
        assert (HPg : 0 <= K * g <= B) by (unfold B; split; nra).
        pose proof (HP _ HPg). unfold M. nra.
Qed.

Lemma llama3_rescaling_continuous_witness :
  let sp := {| factor := 8; low_freq_factor := 1; high_freq_factor := 4;
               orig_max_position := 8192 |} in
  llama3_scale sp (8192 / 1) (8192 / 4) (Some (PI / 1024))
  = Some (PI / 1024) /\
  llama3_scale sp (8192 / 1) (8192 / 4) (Some (PI / 4096))
  = Some (PI / 4096 / 8).
Proof.
  intros sp. pose proof PI_RGT_0 as Hpi.
  split.
  - destruct (llama3_rescaling_continuous sp (PI / 1024)) as [H _];
      cbn [factor low_freq_factor high_freq_factor orig_max_position sp];
      try lra.
    cbn [factor low_freq_factor high_freq_factor orig_max_position sp] in H.
    destruct H as [H1 H2]; [field; lra |].
    rewrite H1. exact H2.
  - destruct (llama3_rescaling_continuous sp (PI / 4096)) as (_ & H & _);
      cbn [factor low_freq_factor high_freq_factor orig_max_position sp];
      try lra.
    cbn [factor low_freq_factor high_freq_factor orig_max_position sp] in H.
    destruct H as [H1 H2]; [field; lra |].
    rewrite H1. exact H2.
Defined.


(** ** The YaRN correction range *)

Lemma correction_dim_eq (r : R) (dim : nat) (base max_pos : Z) :
  _yarn_find_correction_dim (const r) dim base max_pos
  = correction_dim_formula dim (IZR base) max_pos r.
Proof.
  unfold _yarn_find_correction_dim, correction_dim_formula, const.
  change (fmul (fmul (Some r) (Some 2)) (Some PI)) with (Some (r * 2 * PI)).
  replace (r * 2 * PI) with (r * (2 * PI)) by ring. reflexivity.
Qed.

Lemma INR_pred_IZR (n : nat) : IZR (Z.of_nat n - 1) = INR n - 1.
Proof. rewrite minus_IZR, <- INR_IZR_INZ. reflexivity. Qed.

Lemma py_trunc_integer (z : Z) : py_trunc (IZR z) = z.
Proof.
  unfold py_trunc. destruct (Rle_dec 0 (IZR z)).
  - apply ZfloorZ.
  - rewrite <- opp_IZR, ZfloorZ. lia.
Qed.

(** For a finite [theta] the conversion returns and the range is the one
    of [_yarn_find_correction_range] on the truncated base. *)
Lemma yarn_correction_range_finite (self : DeepseekYarnRotaryEmbedding)
    (sp : DeepseekYarnRopeScalingParams) (th : R) :
  y_theta self = Finite th ->
  yarn_correction_range self sp
  = Ok (_yarn_find_correction_range
          (const (IZR (beta_fast sp))) (const (IZR (beta_slow sp)))
          (y_dim self) (py_trunc th)
          (original_max_position_embeddings sp)).
Proof. intros Hth. unfold yarn_correction_range. rewrite Hth. reflexivity. Qed.

Lemma flog_some (x : R) : 0 < x -> flog (Some x) = Some (ln x).
Proof.
  intros Hx. unfold flog. destruct (Rlt_dec 0 x); [reflexivity | contradiction].
Qed.

Lemma ln_gt_0 (x : R) : 1 < x -> 0 < ln x.
Proof. intros Hx. rewrite <- ln_1. apply ln_increasing; lra. Qed.

(** The formula on its domain: a positive rotation count, a positive
    maximal position and a base above 1. *)
Lemma correction_dim_formula_some (dim : nat) (b : R) (mp : Z) (r : R) :
  0 < r -> 0 < IZR mp -> 1 < b ->
  correction_dim_formula dim b mp r
  = Some (INR dim * ln (IZR mp / (r * (2 * PI))) / (2 * ln b)).
Proof.
  intros Hr Hmp Hb. unfold correction_dim_formula, const.
  pose proof PI_RGT_0 as Hpi. pose proof (ln_gt_0 b Hb) as Hl.
  assert (Hd : 0 < r * (2 * PI)) by (apply Rmult_lt_0_compat; lra).
  rewrite fdiv_some by lra.
  rewrite flog_some by (apply Rdiv_lt_0_compat; assumption).
  rewrite flog_some by lra. simpl fmul.
  apply fdiv_some. lra.
Qed.

Lemma fmin_const_le (x : F) (c h : R) : fmin x (const c) = Some h -> h <= c.
Proof.
  destruct x as [v |]; simpl; [| discriminate].
  intros H. injection H as <-. apply Rmin_r.
Qed.

(** C6, amended. For a finite [theta], the correction range of the YaRN
    strategy is [low = max(floor(cd(beta_fast)), 0)] and
    [high = min(floor(cd(beta_slow)), dim - 1)], where
    [cd(r) = dim * ln(max_position / (r * 2 pi)) / (2 * ln(int(theta)))]:
    the base is [theta] truncated to an integer, and [high] is clamped to
    [dim - 1] for the full dimension [dim].  A finite [low] is at least 0
    and a finite [high] at most [dim - 1]; for an integral [theta] the base
    is [theta] itself; and for positive rotation counts, a positive maximal
    position and a base above 1 both bounds are finite and given by the
    formula over the reals. *)
Theorem yarn_correction_range_spec (self : DeepseekYarnRotaryEmbedding)
    (sp : DeepseekYarnRopeScalingParams) (th : R) :
  y_theta self = Finite th ->
  yarn_correction_range self sp
  = Ok (amended_correction_range (y_dim self) th sp) /\
  (forall r l, yarn_correction_range self sp = Ok r ->
     fst r = Some l -> 0 <= l) /\
  (forall r h, yarn_correction_range self sp = Ok r ->
     snd r = Some h -> h <= INR (y_dim self) - 1) /\
  (forall z : Z, th = IZR z -> IZR (py_trunc th) = th) /\
  (0 < IZR (beta_fast sp) -> 0 < IZR (beta_slow sp) ->
   0 < IZR (original_max_position_embeddings sp) ->
   1 < IZR (py_trunc th) ->
   let cd := fun r : R =>
     INR (y_dim self)
     * ln (IZR (original_max_position_embeddings sp) / (r * (2 * PI)))
     / (2 * ln (IZR (py_trunc th))) in
   yarn_correction_range self sp
   = Ok (Some (Rmax (IZR (Zfloor (cd (IZR (beta_fast sp))))) 0),
         Some (Rmin (IZR (Zfloor (cd (IZR (beta_slow sp)))))
                    (INR (y_dim self) - 1)))).
Proof.
  intros Hth.
  assert (E : yarn_correction_range self sp
              = Ok (amended_correction_range (y_dim self) th sp)).
  { rewrite (yarn_correction_range_finite self sp th Hth).
    unfold _yarn_find_correction_range, amended_correction_range.
    rewrite !correction_dim_eq, INR_pred_IZR. reflexivity. }
  split; [exact E |]. rewrite E. unfold amended_correction_range.
  split; [| split; [| split]].
  - intros r l Hr. injection Hr as <-. simpl fst.
    destruct (ffloor _) as [x |]; simpl; [| discriminate].
    intros H. injection H as <-. apply Rmax_r.
  - intros r h Hr. injection Hr as <-. simpl snd.
    destruct (ffloor _) as [x |]; simpl; [| discriminate].
    intros H. injection H as <-. apply Rmin_r.
  - intros z ->. rewrite py_trunc_integer. reflexivity.
  - intros Hf Hs Hm Hb.
    rewrite !correction_dim_formula_some by assumption. reflexivity.
Qed.

Lemma yarn_correction_range_spec_witness :
  let sp := {| scaling_factor := 40;
               original_max_position_embeddings := 80000;
               beta_fast := 32; beta_slow := 1;
               mscale := 1; mscale_all_dim := 1 |} in
  let self := {| y_dim := 4; y_n_heads := 1; y_theta := Finite 10000;
                 y_max_seq_len := 16; y_freqs_cis := None;
                 y_interleaved := true; scaling_params := Some sp;
                 inv_freq := None |} in
  yarn_correction_range self sp
  = Ok (amended_correction_range 4 10000 sp) /\
  IZR (py_trunc 10000) = 10000.
Proof.
  intros sp self.
  destruct (yarn_correction_range_spec self sp 10000 eq_refl)
    as (E & _ & _ & Hz & _).
  split; [exact E | apply (Hz 10000%Z); reflexivity].
Defined.

(** C6 fails as stated: for [dim = 4], [theta = 10000], a maximal position
    of 80000, [beta_fast = 32] and [beta_slow = 1], the code's [high] is at
    least 2, above the bound [dim/2 - 1 = 1] of the claim. *)
Lemma yarn_correction_range_counterexample :
  yarn_correction_range
    {| y_dim := 4; y_n_heads := 1; y_theta := Finite 10000;
       y_max_seq_len := 16;
       y_freqs_cis := None; y_interleaved := true;
       scaling_params := None; inv_freq := None |}
    {| scaling_factor := 40; original_max_position_embeddings := 80000;
       beta_fast := 32; beta_slow := 1; mscale := 1; mscale_all_dim := 1 |}
  <> Ok (claimed_correction_range 4 10000
       {| scaling_factor := 40; original_max_position_embeddings := 80000;
          beta_fast := 32; beta_slow := 1; mscale := 1;
          mscale_all_dim := 1 |}).
Proof.
  intros E. unfold yarn_correction_range in E.
  cbn [y_theta py_int bind] in E. injection E as _ E.
  unfold _yarn_find_correction_range, claimed_correction_range in E.
  cbn [snd y_dim original_max_position_embeddings beta_slow] in E.
  rewrite correction_dim_eq in E.
  rewrite (py_trunc_integer 10000) in E.
  rewrite correction_dim_formula_some in E by lra.
  set (c := INR 4 * ln (80000 / (1 * (2 * PI))) / (2 * ln 10000)) in E.
  assert (Hc : 2 <= c).
  { pose proof PI_RGT_0 as Hpi. pose proof PI_4 as Hpi4.
    assert (Hl : 0 < ln 10000) by (apply ln_gt_0; lra).
    assert (HL : ln 10000 <= ln (80000 / (1 * (2 * PI)))).
    { assert (Hq : 10000 <= 80000 / (1 * (2 * PI))).
      { apply Rmult_le_reg_r with (r := 1 * (2 * PI)); [lra |].
        unfold Rdiv. rewrite Rmult_assoc, Rinv_l by lra. lra. }
      destruct Hq as [Hq | Hq]; [| rewrite <- Hq; lra].
      left. apply ln_increasing; lra. }
    unfold c. replace (INR 4) with 4 by (simpl; lra).
    apply Rmult_le_reg_r with (r := 2 * ln 10000); [lra |].
    unfold Rdiv. rewrite Rmult_assoc, Rinv_l by lra. lra. }
  assert (Hz : 2 <= IZR (Zfloor c)).
  { apply IZR_le. apply Zfloor_lub. exact Hc. }
  simpl ffloor in E. simpl fmin at 1 in E. symmetry in E.
  apply fmin_const_le in E.
  replace (INR (4 / 2) - 1) with 1 in E by (simpl; lra).
  replace (IZR (4 - 1)) with 3 in E by (simpl; lra).
  unfold Rmin in E. destruct (Rle_dec (IZR (Zfloor c)) 3); lra.
Qed.

(** ** The YaRN linear ramp mask *)

Lemma ramp_divisor_neq_0 (l h : R) : ramp_divisor l h <> 0.
Proof.
  unfold ramp_divisor. destruct (Req_dec_T l h); lra.
Qed.

Lemma ramp_divisor_pos (l h : R) : l <= h -> 0 < ramp_divisor l h.
Proof.
  unfold ramp_divisor. destruct (Req_dec_T l h); lra.
Qed.

Lemma ramp_divisor_neg (l h : R) : h < l -> ramp_divisor l h < 0.
Proof.
  unfold ramp_divisor. destruct (Req_dec_T l h); lra.
Qed.

Lemma clamp01_range (v : R) : 0 <= clamp01 v <= 1.
Proof.
  unfold clamp01. split.
  - apply Rmin_glb; [apply Rmax_r | lra].
  - apply Rmin_r.
Qed.

Lemma clamp01_mono (a b : R) : a <= b -> clamp01 a <= clamp01 b.
Proof.
  intros H. unfold clamp01. apply Rmin_glb; [| apply Rmin_r].
  apply Rle_trans with (Rmax a 0); [apply Rmin_l |].
  apply Rmax_lub; [| apply Rmax_r].
  apply Rle_trans with b; [exact H | apply Rmax_l].
Qed.

(** The mask for finite bounds, entry by entry. *)
Lemma ramp_mask_eq (l h : R) (dim : nat) :
  _yarn_linear_ramp_mask (Some l) (Some h) dim
  = map (fun k => Some (clamp01 ((INR k - l) / ramp_divisor l h)))
        (seq 0 dim).
Proof.
  unfold _yarn_linear_ramp_mask, ops_range. rewrite !map_map.
  apply map_ext. intros k.
  assert (E : fsub (if feqb (Some l) (Some h)
                    then fadd (Some h) (const (1 / 1000)) else Some h)
                   (Some l)
              = Some (ramp_divisor l h)).
  { unfold feqb, ramp_divisor. destruct (Req_dec_T l h); reflexivity. }
  rewrite E. unfold const. simpl fsub.
  rewrite fdiv_some by apply ramp_divisor_neq_0.
  simpl. unfold clamp01. do 4 f_equal. ring.
Qed.

(** C7 fails as stated: with [low = 2], [high = 0] and three indices the
    mask is [1, 1/2, 0], which decreases. *)
Lemma ramp_mask_counterexample :
  _yarn_linear_ramp_mask (Some 2) (Some 0) 3
  = [Some 1; Some (1 / 2); Some 0] /\
  1 / 2 < 1.
Proof.
  split; [| lra]. rewrite ramp_mask_eq.
  assert (Ed : ramp_divisor 2 0 = -2).
  { unfold ramp_divisor. destruct (Req_dec_T 2 0); lra. }
  rewrite Ed. simpl.
  assert (Ec : forall v w, 0 <= w <= 1 -> v = w -> clamp01 v = w).
  { intros v w Hw ->. unfold clamp01.
    rewrite Rmax_left by lra. apply Rmin_left. lra. }
  rewrite (Ec ((0 - 2) / -2) 1), (Ec ((1 - 2) / -2) (1 / 2)),
    (Ec ((1 + 1 - 2) / -2) 0) by lra.
  reflexivity.
Qed.

(** C7, amended. For all finite bounds [low] and [high] and every
    dimension, the ramp mask is built without a zero divisor: the divisor
    is [high - low], or [0.001] when the bounds are equal.  Every entry is
    finite and lies in [[0, 1]].  The mask is non-decreasing over the
    dimension index when [low <= high], and non-increasing when
    [high < low]. *)
Theorem ramp_mask_spec (l h : R) (dim : nat) :
  exists m : list R,
    _yarn_linear_ramp_mask (Some l) (Some h) dim = map Some m /\
    length m = dim /\
    ramp_divisor l h <> 0 /\
    (l = h -> ramp_divisor l h = 1 / 1000) /\
    (forall j, (j < dim)%nat ->
       nth j m 0 = Rmin (Rmax ((INR j - l) / ramp_divisor l h) 0) 1) /\
    (forall v, In v m -> 0 <= v <= 1) /\
    (l <= h -> forall i j, (i <= j < dim)%nat -> nth i m 0 <= nth j m 0) /\
    (h < l -> forall i j, (i <= j < dim)%nat -> nth j m 0 <= nth i m 0).
Proof.
  set (g := fun k : nat => clamp01 ((INR k - l) / ramp_divisor l h)).
  assert (Hnth : forall j, (j < dim)%nat -> nth j (map g (seq 0 dim)) 0 = g j).
  { intros j Hj.
    rewrite nth_indep with (d' := g O) by (rewrite length_map, length_seq; lia).
    rewrite map_nth, seq_nth by lia. reflexivity. }
  exists (map g (seq 0 dim)).
  split; [rewrite ramp_mask_eq, map_map; reflexivity |].
  split; [rewrite length_map, length_seq; reflexivity |].
  split; [apply ramp_divisor_neq_0 |].
  split; [intros ->; unfold ramp_divisor;
          destruct (Req_dec_T h h); [lra | contradiction] |].
  split; [exact Hnth |].
  split; [| split].
  - intros v Hv. apply in_map_iff in Hv. destruct Hv as (k & <- & _).
    apply clamp01_range.
  - intros Hle i j [Hij Hj]. rewrite !Hnth by lia. unfold g.
    apply clamp01_mono. pose proof (ramp_divisor_pos l h Hle) as Hd.
    apply Rmult_le_compat_r; [left; apply Rinv_0_lt_compat; exact Hd |].
    apply le_INR in Hij. lra.
  - intros Hlt i j [Hij Hj]. rewrite !Hnth by lia. unfold g.
    apply clamp01_mono. pose proof (ramp_divisor_neg l h Hlt) as Hd.
    apply Rinv_lt_0_compat in Hd. apply le_INR in Hij.
    unfold Rdiv. nra.
Qed.

(** Reversed bounds come out of the code itself: for [dim = 4],
    [theta = 10000] and a maximal position of [10^11] the lower bound is at
    least 4 while the upper bound is clamped to [dim - 1 = 3]. *)
Lemma yarn_range_reversed :
  let sp := {| scaling_factor := 40;
               original_max_position_embeddings := 100000000000;
               beta_fast := 32; beta_slow := 1;
               mscale := 1; mscale_all_dim := 1 |} in
  let self := {| y_dim := 4; y_n_heads := 1; y_theta := Finite 10000;
                 y_max_seq_len := 16; y_freqs_cis := None;
                 y_interleaved := true; scaling_params := Some sp;
                 inv_freq := None |} in
  exists l h : R,
    yarn_correction_range self sp = Ok (Some l, Some h) /\ h < l.
Proof.
  intros sp self.
  unfold yarn_correction_range, _yarn_find_correction_range.
  cbn [y_dim y_theta self sp beta_fast beta_slow
       original_max_position_embeddings py_int bind].
  rewrite !correction_dim_eq, (py_trunc_integer 10000).
  rewrite !correction_dim_formula_some by lra.
  cbn [ffloor lift1 fmax fmin lift2 const].
  do 2 eexists. split; [reflexivity |].
  set (c1 := INR 4 * ln (100000000000 / (32 * (2 * PI))) / (2 * ln 10000)).
  assert (Hc : 4 <= c1).
  { pose proof PI_RGT_0 as Hpi. pose proof PI_4 as Hpi4.
    assert (Hl : 0 < ln 10000) by (apply ln_gt_0; lra).
    assert (HL : 2 * ln 10000 <= ln (100000000000 / (32 * (2 * PI)))).
    { replace (2 * ln 10000) with (ln (10000 * 10000))
        by (rewrite ln_mult by lra; lra).
      assert (Hq : 10000 * 10000 <= 100000000000 / (32 * (2 * PI))).
      { apply Rmult_le_reg_r with (r := 32 * (2 * PI)); [lra |].
        replace (100000000000 / (32 * (2 * PI)) * (32 * (2 * PI)))
          with 100000000000 by (field; lra).
        lra. }
      destruct Hq as [Hq | Hq]; [| rewrite <- Hq; lra].
      left. apply ln_increasing; lra. }
    unfold c1. replace (INR 4) with 4 by (simpl; lra).
    apply Rmult_le_reg_r with (r := 2 * ln 10000); [lra |].
    unfold Rdiv. rewrite Rmult_assoc, Rinv_l by lra. lra. }
  assert (Hz : 4 <= IZR (Zfloor c1)).
  { apply IZR_le. apply Zfloor_lub. exact Hc. }
  apply Rle_lt_trans with (IZR (Z.of_nat 4 - 1)); [apply Rmin_r |].
  apply Rlt_le_trans with (IZR (Zfloor c1)); [| apply Rmax_l].
  replace (IZR (Z.of_nat 4 - 1)) with 3 by (simpl; lra). lra.
Qed.

(** ** Calling the YaRN strategy *)

Lemma py_truediv_ok (a b : R) : b <> 0 -> py_truediv a b = Ok (a / b).
Proof.
  intros Hb. unfold py_truediv.
  destruct (Req_dec_T b 0); [contradiction | reflexivity].
Qed.




(** What [int(self.theta)] makes of the inverse frequencies: a vector for
    a finite [theta], [OverflowError] for an infinity, [ValueError] for
    NaN. *)
Lemma yarn_inv_freq_cases (self : DeepseekYarnRotaryEmbedding)
    (sp : DeepseekYarnRopeScalingParams) :
  match y_theta self with
  | Finite _ => exists v, yarn_inv_freq self sp = Ok v
  | Infinity _ =>
      yarn_inv_freq self sp
      = Raise (OverflowError
                 "cannot convert float infinity to integer"%string)
  | NaN =>
      yarn_inv_freq self sp
      = Raise (ValueError "cannot convert float NaN to integer"%string)
  end.
Proof.
  unfold yarn_inv_freq, yarn_correction_range.
  destruct (y_theta self) as [th | neg |]; cbn [py_int bind];
    try reflexivity.
  destruct (_yarn_find_correction_range _ _ _ _ _) as [l h].
  eexists. reflexivity.
Qed.


(** C10. For two YaRN engines of one configuration and one set of scaling
    parameters, whatever their caches hold, and two activation tensors with
    the same [shape[-2]], the calls return the same result for all values
    of [start_pos] and [seq_len]. *)
Theorem yarn_call_depends_on_seq_axis_only
    (s1 s2 : DeepseekYarnRotaryEmbedding) (x1 x2 : Activation)
    (start_pos1 seq_len1 start_pos2 seq_len2 : option nat) :
  y_dim s1 = y_dim s2 -> y_n_heads s1 = y_n_heads s2 ->
  y_theta s1 = y_theta s2 -> y_max_seq_len s1 = y_max_seq_len s2 ->
  y_interleaved s1 = y_interleaved s2 ->
  scaling_params s1 = scaling_params s2 ->
  shape_last2 x1 = shape_last2 x2 ->
  snd (yarn__call__ s1 x1 start_pos1 seq_len1)
  = snd (yarn__call__ s2 x2 start_pos2 seq_len2).
Proof.
  intros Hd _ Ht _ _ Hs Hx.
  assert (Ei : forall sp, yarn_inv_freq s1 sp = yarn_inv_freq s2 sp).
  { intros sp. unfold yarn_inv_freq, yarn_correction_range.
    rewrite Hd, Ht. reflexivity. }
  unfold yarn__call__, _compute_yarn_freqs.
  rewrite <- Hs, Hx.
  destruct (scaling_params s1) as [sp |]; [| reflexivity].
  rewrite Ei.
  destruct (yarn_inv_freq s2 sp) as [v | e]; [| reflexivity].
  destruct (py_truediv _ _); reflexivity.
Qed.

Lemma yarn_call_depends_on_seq_axis_only_witness :
  let sp := {| scaling_factor := 40;
               original_max_position_embeddings := 4096;
               beta_fast := 32; beta_slow := 1;
               mscale := 1; mscale_all_dim := 1 |} in
  let s1 := {| y_dim := 4; y_n_heads := 1; y_theta := Finite 10000;
               y_max_seq_len := 16; y_freqs_cis := None;
               y_interleaved := true; scaling_params := Some sp;
               inv_freq := None |} in
  let s2 := {| y_dim := 4; y_n_heads := 1; y_theta := Finite 10000;
               y_max_seq_len := 16; y_freqs_cis := Some (Freqs2 []);
               y_interleaved := true; scaling_params := Some sp;
               inv_freq := Some [] |} in
  let x1 := {| shape := (1, 1, 3, 4)%nat;
               elems := [[[[Some 1; Some 2; Some 3; Some 4];
                           [Some 1; Some 2; Some 3; Some 4];
                           [Some 1; Some 2; Some 3; Some 4]]]] |} in
  let x2 := {| shape := (1, 2, 3, 1)%nat;
               elems := [[[[Some 5]; [Some 6]; [Some 7]];
                          [[Some 8]; [Some 9]; [Some 10]]]] |} in
  snd (yarn__call__ s1 x1 None None)
  = snd (yarn__call__ s2 x2 (Some 7%nat) (Some 2%nat)).
Proof.
  intros sp s1 s2 x1 x2.
  apply (yarn_call_depends_on_seq_axis_only s1 s2 x1 x2); reflexivity.
Defined.

(** ** The flattened table *)

Lemma pairs_of_concat (ps : list (list F)) :
  Forall (fun p => length p = 2%nat) ps ->
  pairs_of (concat ps) = Ok ps.
Proof.
  induction 1 as [| p ps Hp _ IH]; [reflexivity |].
  destruct p as [| a [| b [| c p]]]; try discriminate.
  simpl. simpl in IH. rewrite IH. reflexivity.
Qed.

Lemma mapM_pairs_of_flat (rows : list (list (list F))) :
  Forall (Forall (fun p => length p = 2%nat)) rows ->
  mapM pairs_of (map (@concat F) rows) = Ok rows.
Proof.
  induction 1 as [| r rows Hr _ IH]; [reflexivity |].
  simpl. rewrite pairs_of_concat by exact Hr. simpl.
  rewrite IH. reflexivity.
Qed.

Lemma Forall_firstn_skipn {A : Type} (P : A -> Prop) (s n : nat)
    (l : list A) :
  Forall P l -> Forall P (firstn n (skipn s l)).
Proof.
  intros H.
  rewrite <- (firstn_skipn s l) in H. apply Forall_app in H as [_ H].
  rewrite <- (firstn_skipn n (skipn s l)) in H.
  apply Forall_app in H as [H _]. exact H.
Qed.

(** A window of the flattened table, reshaped, is the window of the
    rank-3 table. *)
Lemma slice_flattened (t : list (list (list F))) (start_pos seq_len : nat) :
  pair_rows t ->
  slice_freqs_cis (Freqs2 (map (@concat F) t)) start_pos seq_len
  = slice_freqs_cis (Freqs3 t) start_pos seq_len.
Proof.
  intros Ht. unfold slice_freqs_cis, slice_rows. rewrite length_map.
  destruct (Nat.leb (start_pos + seq_len) (length t)); [| reflexivity].
  simpl bind. rewrite skipn_map, firstn_map.
  apply mapM_pairs_of_flat. apply Forall_firstn_skipn. exact Ht.
Qed.

Lemma stack_last2_pairs (a b : list (list F)) :
  pair_rows (stack_last2 a b).
Proof.
  unfold pair_rows, stack_last2. apply Forall_forall. intros r Hr.
  apply in_map_iff in Hr. destruct Hr as ([ra rb] & <- & _).
  apply Forall_forall. intros p Hp.
  apply in_map_iff in Hp. destruct Hp as ([u v] & <- & _). reflexivity.
Qed.

Lemma base_inv_freqs_config (a b : RotaryEmbedding) :
  dim a = dim b -> n_heads a = n_heads b -> theta a = theta b ->
  base_compute_inv_freqs a = base_compute_inv_freqs b.
Proof.
  intros Hd Hh Ht. unfold base_compute_inv_freqs. rewrite Hd, Hh, Ht.
  reflexivity.
Qed.

(** One call keeps the two engines in agreement and gives them the same
    result. *)
Lemma call_layouts_agree (opt base : RotaryEmbedding) (x : Activation)
    (start_pos seq_len : option nat) :
  layouts_agree opt base ->
  snd (__call__ opt x start_pos seq_len)
  = snd (__call__ base x start_pos seq_len) /\
  layouts_agree (fst (__call__ opt x start_pos seq_len))
                (fst (__call__ base x start_pos seq_len)).
Proof.
  intros Hag. unfold __call__.
  assert (Hil : interleaved opt = interleaved base)
    by (destruct Hag as [_ _ (_ & _ & _ & _ & H) | t _ _ (_ & _ & _ & _ & H)];
        exact H).
  rewrite Hil.
  destruct (split_pairs (interleaved base) x) as [[x_re x_im] | e];
    [| split; [reflexivity | exact Hag]].
  destruct Hag as [Ko Kb Hc Fo Fb So Sb | t Ko Kb Hc Ht So Sb].
  - unfold freqs_cis, freqs_cis_body, freqs_cis_base, _compute_inv_freqs.
    rewrite So, Sb, Ko, Kb, Fo, Fb.
    destruct Hc as (Hd & Hh & Hth & Hm & _).
    rewrite (base_inv_freqs_config opt base Hd Hh Hth), Hm.
    destruct (base_compute_inv_freqs base) as [v | e].
    + cbn [fst snd interleaved set_slot set_freqs_cis]. rewrite Hil. split.
      * rewrite slice_flattened by apply stack_last2_pairs. reflexivity.
      * apply agree_cached with (t := cis_table (max_seq_len base) v);
          cbn; auto.
        -- repeat split; auto.
        -- apply stack_last2_pairs.
    + cbn [fst snd]. split; [reflexivity |].
      apply agree_fresh; auto. repeat split; auto.
  - unfold freqs_cis. rewrite So, Sb. cbn [fst snd]. rewrite Hil. split.
    + rewrite slice_flattened by exact Ht. reflexivity.
    + apply agree_cached with (t := t); auto.
Qed.

(** C5. The flattened layout changes no value.  For every configuration,
    activation tensor, start position and sequence length, the engine
    built as [OptimizedRotaryEmbedding] and the engine built as
    [RotaryEmbedding] return the same result from [__call__] (the same
    tensor, or the same exception), on the first call and on a call that
    follows it and reads the cached table. *)
Theorem optimized_layout_same_output (d h : nat) (th : R) (m : nat)
    (il : bool) (x : Activation) (start_pos seq_len : option nat) :
  exists base opt,
    build Base d h th m il = Ok base /\
    build Optimized d h th m il = Ok opt /\
    snd (__call__ opt x start_pos seq_len)
    = snd (__call__ base x start_pos seq_len) /\
    forall x' start_pos' seq_len',
      snd (__call__ (fst (__call__ opt x start_pos seq_len))
                    x' start_pos' seq_len')
      = snd (__call__ (fst (__call__ base x start_pos seq_len))
                      x' start_pos' seq_len').
Proof.
  do 2 eexists. split; [reflexivity |]. split; [reflexivity |].
  match goal with
  | |- snd (__call__ ?o _ _ _) = snd (__call__ ?b _ _ _) /\ _ =>
      assert (Hag : layouts_agree o b)
        by (apply agree_fresh; cbn; auto; repeat split; reflexivity);
      destruct (call_layouts_agree o b x start_pos seq_len Hag) as [E Hag']
  end.
  split; [exact E |].
  intros x' start_pos' seq_len'.
  apply call_layouts_agree. exact Hag'.
Qed.

(** ** Monadic maps over lists *)

Lemma mapM_ok {A B : Type} (f : A -> res B) (g : A -> B) (l : list A) :
  (forall a, In a l -> f a = Ok (g a)) -> mapM f l = Ok (map g l).
Proof.
  induction l as [| a l IH]; intros H; [reflexivity |].
  simpl. rewrite (H a) by (left; reflexivity). simpl.
  rewrite IH by (intros b Hb; apply H; right; exact Hb). reflexivity.
Qed.

Lemma mapM_map {A B C : Type} (f : B -> res C) (g : A -> B) (l : list A) :
  mapM f (map g l) = mapM (fun a => f (g a)) l.
Proof.
  induction l as [| a l IH]; [reflexivity |].
  simpl. rewrite IH. reflexivity.
Qed.

Lemma zipWithM_map_map {A B C D : Type} (f : B -> C -> res D)
    (g1 : A -> B) (g2 : A -> C) (l : list A) :
  zipWithM f (map g1 l) (map g2 l) = mapM (fun a => f (g1 a) (g2 a)) l.
Proof.
  induction l as [| a l IH]; [reflexivity |].
  simpl. rewrite IH. reflexivity.
Qed.

Lemma bzip_map_map {A B C D : Type} (f : B -> C -> res D)
    (g1 : A -> B) (g2 : A -> C) (l : list A) :
  bzip f (map g1 l) (map g2 l) = mapM (fun a => f (g1 a) (g2 a)) l.
Proof.
  unfold bzip. rewrite !length_map, Nat.eqb_refl.
  apply zipWithM_map_map.
Qed.

Lemma bzip_singleton {A B C : Type} (f : A -> B -> res C) (xs : list A)
    (y : B) :
  bzip f xs [y] = mapM (fun x => f x y) xs.
Proof.
  unfold bzip. destruct xs as [| x [| x' xs]]; reflexivity.
Qed.

Lemma zipWithM_leaf {A B C : Type} (f : A -> B -> C) (l1 : list A)
    (l2 : list B) :
  length l1 = length l2 ->
  zipWithM (fun a b => Ok (f a b)) l1 l2 = Ok (zmap f l1 l2).
Proof.
  revert l2. induction l1 as [| a l1 IH]; intros [| b l2] H;
    try discriminate; [reflexivity |].
  simpl in H. injection H as H. simpl. rewrite IH by exact H. reflexivity.
Qed.

Lemma bzip_leaf {A B C : Type} (f : A -> B -> C) (l1 : list A) (l2 : list B) :
  length l1 = length l2 ->
  bzip (fun a b => Ok (f a b)) l1 l2 = Ok (zmap f l1 l2).
Proof.
  intros H. unfold bzip. rewrite H, Nat.eqb_refl.
  apply zipWithM_leaf. exact H.
Qed.

Lemma zmap_fst {A B C : Type} (g : A -> C) (l1 : list A) (l2 : list B) :
  (length l1 <= length l2)%nat ->
  zmap (fun a _ => g a) l1 l2 = map g l1.
Proof.
  unfold zmap. revert l2. induction l1 as [| a l1 IH]; intros l2 H;
    [reflexivity |].
  destruct l2 as [| b l2]; [simpl in H; lia |].
  simpl. rewrite IH by (simpl in H; lia). reflexivity.
Qed.

Lemma zmap_snd {A B C : Type} (g : B -> C) (l1 : list A) (l2 : list B) :
  (length l2 <= length l1)%nat ->
  zmap (fun _ b => g b) l1 l2 = map g l2.
Proof.
  unfold zmap. revert l1. induction l2 as [| b l2 IH]; intros l1 H.
  - destruct l1; reflexivity.
  - destruct l1 as [| a l1]; [simpl in H; lia |].
    simpl. rewrite IH by (simpl in H; lia). reflexivity.
Qed.

Lemma length_zmap {A B C : Type} (g : A -> B -> C) (l1 : list A)
    (l2 : list B) :
  length (zmap g l1 l2) = Nat.min (length l1) (length l2).
Proof. unfold zmap. rewrite length_map. apply length_combine. Qed.

Lemma zmap_ext_in {A B C : Type} (g h : A -> B -> C) (l1 : list A)
    (l2 : list B) :
  (forall a b, In (a, b) (combine l1 l2) -> g a b = h a b) ->
  zmap g l1 l2 = zmap h l1 l2.
Proof.
  intros H. unfold zmap. apply map_ext_in. intros [a b] Hab. apply H, Hab.
Qed.

(** ** Broadcasting operations on tensors given row by row *)

Lemma per_row_ext_in (G H : list F -> list F -> list F)
    (A : list (list F)) (X : T4) :
  (forall xb xs a row,
     In xb X -> In (xs, a) (combine xb A) -> In row xs ->
     G a row = H a row) ->
  per_row G A X = per_row H A X.
Proof.
  intros E. unfold per_row. apply map_ext_in. intros xb Hxb.
  apply zmap_ext_in. intros xs a Hxa.
  apply map_ext_in. intros row Hrow. eapply E; eassumption.
Qed.

(** Two tensors over the rows of one tensor. *)
Lemma bop4_per_row (f : F -> F -> F) (G1 G2 : list F -> list F -> list F)
    (A : list (list F)) (X : T4) :
  (forall xb xs a row,
     In xb X -> In (xs, a) (combine xb A) -> In row xs ->
     length (G1 a row) = length (G2 a row)) ->
  bop4 f (per_row G1 A X) (per_row G2 A X)
  = Ok (per_row (fun a row => zmap f (G1 a row) (G2 a row)) A X).
Proof.
  intros Hlen. unfold bop4, per_row.
  rewrite bzip_map_map. apply mapM_ok. intros xb Hxb.
  unfold zmap at 1 2. rewrite bzip_map_map.
  unfold zmap at 1. apply mapM_ok. intros [xs a] Hxa.
  rewrite bzip_map_map. apply mapM_ok. intros row Hrow.
  apply bzip_leaf. eapply Hlen; eassumption.
Qed.

(** A tensor over the rows of [X] against the table [c], given per
    position and repeated over batches and heads. *)
Lemma bop4_bcast (f : F -> F -> F) (G1 : list F -> list F -> list F)
    (c : list F -> list F) (A : list (list F)) (X : T4) :
  (forall xb, In xb X -> length xb = length A) ->
  (forall xb xs a row,
     In xb X -> In (xs, a) (combine xb A) -> In row xs ->
     length (G1 a row) = length (c a)) ->
  bop4 f (per_row G1 A X) [map (fun a => [c a]) A]
  = Ok (per_row (fun a row => zmap f (G1 a row) (c a)) A X).
Proof.
  intros Hs Hlen. unfold bop4, per_row.
  rewrite bzip_singleton, mapM_map. apply mapM_ok. intros xb Hxb.
  rewrite <- (zmap_snd (fun a => [c a]) xb A) by (rewrite (Hs xb Hxb); lia).
  unfold zmap at 1 2. rewrite bzip_map_map.
  unfold zmap at 1. apply mapM_ok. intros [xs a] Hxa.
  rewrite bzip_singleton, mapM_map. apply mapM_ok. intros row Hrow.
  apply bzip_leaf. eapply Hlen; eassumption.
Qed.

(** ** Rows and their pairs *)

Lemma map_fst_combine {A B : Type} (l1 : list A) (l2 : list B) :
  (length l1 <= length l2)%nat -> map fst (combine l1 l2) = l1.
Proof.
  revert l2. induction l1 as [| a l1 IH]; intros l2 H; [reflexivity |].
  destruct l2 as [| b l2]; [simpl in H; lia |].
  simpl. rewrite IH by (simpl in H; lia). reflexivity.
Qed.

Lemma map_snd_combine {A B : Type} (l1 : list A) (l2 : list B) :
  (length l2 <= length l1)%nat -> map snd (combine l1 l2) = l2.
Proof.
  revert l1. induction l2 as [| b l2 IH]; intros l1 H.
  - destruct l1; reflexivity.
  - destruct l1 as [| a l1]; [simpl in H; lia |].
    simpl. rewrite IH by (simpl in H; lia). reflexivity.
Qed.

Lemma combine_fst_snd {A B : Type} (l : list (A * B)) :
  combine (map fst l) (map snd l) = l.
Proof.
  induction l as [| [a b] l IH]; [reflexivity |].
  simpl. rewrite IH. reflexivity.
Qed.

Lemma pairs_of_even (k : nat) (row : list F) :
  length row = (2 * k)%nat ->
  pairs_of row = Ok (map (fun '(a, b) => [a; b]) (deinterleave row)).
Proof.
  revert row. induction k as [| k IH]; intros row H.
  - destruct row; [reflexivity | discriminate].
  - destruct row as [| a [| b row]]; try (simpl in H; lia).
    simpl. rewrite IH by (simpl in H; lia). reflexivity.
Qed.

Lemma length_deinterleave (k : nat) (row : list F) :
  length row = (2 * k)%nat -> length (deinterleave row) = k.
Proof.
  revert row. induction k as [| k IH]; intros row H.
  - destruct row; [reflexivity | discriminate].
  - destruct row as [| a [| b row]]; try (simpl in H; lia).
    simpl. rewrite IH by (simpl in H; lia). reflexivity.
Qed.

Lemma half_double (k : nat) : (2 * k / 2 = k)%nat.
Proof. rewrite Nat.mul_comm. apply Nat.div_mul. discriminate. Qed.

Lemma length_pair_view (il : bool) (k : nat) (row : list F) :
  length row = (2 * k)%nat -> length (pair_view il row) = k.
Proof.
  intros H. destruct il; unfold pair_view.
  - apply length_deinterleave. exact H.
  - rewrite length_combine, length_firstn, length_skipn, H, half_double. lia.
Qed.

Lemma deinterleave_pairs (ps : list (F * F)) :
  deinterleave (concat (map (fun '(re, im) => [re; im]) ps)) = ps.
Proof.
  induction ps as [| [re im] ps IH]; [reflexivity |].
  simpl. rewrite IH. reflexivity.
Qed.

Lemma length_row_of_pairs (il : bool) (ps : list (F * F)) :
  length (row_of_pairs il ps) = (2 * length ps)%nat.
Proof.
  destruct il; simpl.
  - induction ps as [| [re im] ps IH]; [reflexivity |].
    simpl. rewrite IH. lia.
  - rewrite length_app, !length_map. lia.
Qed.

(** The pairs of the row that holds [ps] are [ps]. *)
Lemma pair_view_row_of_pairs (il : bool) (ps : list (F * F)) :
  pair_view il (row_of_pairs il ps) = ps.
Proof.
  destruct il.
  - apply deinterleave_pairs.
  - unfold pair_view.
    rewrite (length_row_of_pairs false), half_double. simpl.
    rewrite firstn_app, skipn_app, !length_map, Nat.sub_diag.
    rewrite firstn_all2 by (rewrite length_map; lia).
    rewrite skipn_all2 by (rewrite length_map; lia).
    simpl. rewrite app_nil_r. apply combine_fst_snd.
Qed.

Lemma rot_fst (ps : list (F * F)) (a : list F) :
  zmap fsub (zmap fmul (map fst ps) (map fcos a))
            (zmap fmul (map snd ps) (map fsin a))
  = map fst (zmap rot ps a).
Proof.
  unfold zmap. revert a. induction ps as [| [re im] ps IH]; intros a;
    [reflexivity |].
  destruct a as [| x a]; [reflexivity |].
  simpl. rewrite IH. reflexivity.
Qed.

Lemma rot_snd (ps : list (F * F)) (a : list F) :
  zmap fadd (zmap fmul (map fst ps) (map fsin a))
            (zmap fmul (map snd ps) (map fcos a))
  = map snd (zmap rot ps a).
Proof.
  unfold zmap. revert a. induction ps as [| [re im] ps IH]; intros a;
    [reflexivity |].
  destruct a as [| x a]; [reflexivity |].
  simpl. rewrite IH. reflexivity.
Qed.

Lemma stack_pairs (qs : list (F * F)) :
  concat (zmap (fun re im => [re; im]) (map fst qs) (map snd qs))
  = row_of_pairs true qs.
Proof.
  unfold zmap. rewrite combine_fst_snd. reflexivity.
Qed.



(** ** The table *)

Lemma stack_last2_map (g1 g2 : F -> F) (M : list (list F)) :
  stack_last2 (map (map g1) M) (map (map g2) M)
  = map (map (fun e => [g1 e; g2 e])) M.
Proof.
  unfold stack_last2.
  assert (C : forall (A B C : Type) (u : A -> B) (v : A -> C) (l : list A),
            combine (map u l) (map v l) = map (fun e => (u e, v e)) l).
  { intros A B C u v l. induction l as [| e l IH]; [reflexivity |].
    simpl. rewrite IH. reflexivity. }
  rewrite C, map_map. apply map_ext. intros r.
  rewrite C, map_map. reflexivity.
Qed.

Lemma cis_table_eq (m : nat) (v : list F) :
  cis_table m v
  = map (map (fun a => [fcos a; fsin a]))
        (ops_outer (ops_range 0 (INR m * 2) 1 (m * 2)) v).
Proof. unfold cis_table. apply stack_last2_map. Qed.

Lemma length_cis_table (m : nat) (v : list F) :
  length (cis_table m v) = (m * 2)%nat.
Proof.
  rewrite cis_table_eq. unfold ops_outer, ops_range.
  rewrite !length_map, length_seq. reflexivity.
Qed.

Lemma window_rows (v : list F) (m start_pos seq_len : nat) :
  (start_pos + seq_len <= m * 2)%nat ->
  length (window_angles v m start_pos seq_len) = seq_len /\
  Forall (fun a => length a = length v)
         (window_angles v m start_pos seq_len).
Proof.
  intros H. unfold window_angles. split.
  - rewrite length_firstn, length_skipn. unfold ops_outer, ops_range.
    rewrite !length_map, length_seq. lia.
  - apply Forall_firstn_skipn. unfold ops_outer.
    apply Forall_forall. intros a Ha. apply in_map_iff in Ha.
    destruct Ha as (t & <- & _). apply length_map.
Qed.

(** The window of the table, in either layout, is the cosine and sine of
    the window's angles. *)
Lemma slice_cis_table (flat : bool) (v : list F) (m start_pos seq_len : nat) :
  (start_pos + seq_len <= m * 2)%nat ->
  slice_freqs_cis (if flat then Freqs2 (map (@concat F) (cis_table m v))
                   else Freqs3 (cis_table m v)) start_pos seq_len
  = Ok (map (map (fun a => [fcos a; fsin a]))
            (window_angles v m start_pos seq_len)).
Proof.
  intros H.
  assert (E : slice_freqs_cis (Freqs3 (cis_table m v)) start_pos seq_len
              = Ok (map (map (fun a => [fcos a; fsin a]))
                        (window_angles v m start_pos seq_len))).
  { unfold slice_freqs_cis, slice_rows. rewrite length_cis_table.
    destruct (Nat.leb_spec (start_pos + seq_len) (m * 2)); [| lia].
    rewrite cis_table_eq, skipn_map, firstn_map. reflexivity. }
  destruct flat; [| exact E].
  rewrite slice_flattened; [exact E |].
  unfold cis_table. apply stack_last2_pairs.
Qed.

Lemma index_last_cis (A : list (list F)) :
  index_last 0 [map (fun r => [r]) (map (map (fun a => [fcos a; fsin a])) A)]
  = Ok [map (fun a => [map fcos a]) A] /\
  index_last 1 [map (fun r => [r]) (map (map (fun a => [fcos a; fsin a])) A)]
  = Ok [map (fun a => [map fsin a]) A].
Proof.
  unfold index_last. split.
  - simpl mapM at 1. rewrite !mapM_map.
    rewrite mapM_ok with (g := fun a => [map fcos a]); [reflexivity |].
    intros a _. simpl. rewrite mapM_map.
    rewrite mapM_ok with (g := fcos); [reflexivity |].
    intros x _. reflexivity.
  - simpl mapM at 1. rewrite !mapM_map.
    rewrite mapM_ok with (g := fun a => [map fsin a]); [reflexivity |].
    intros a _. simpl. rewrite mapM_map.
    rewrite mapM_ok with (g := fsin); [reflexivity |].
    intros x _. reflexivity.
Qed.

(** ** Shapes *)

Lemma wf_activation_inv (x : Activation) (d0 d1 d2 d3 : nat) :
  shape x = (d0, d1, d2, d3) -> wf_activation x ->
  length (elems x) = d0 /\
  (forall xb, In xb (elems x) -> length xb = d1) /\
  (forall xb xs, In xb (elems x) -> In xs xb -> length xs = d2) /\
  (forall xb xs row,
     In xb (elems x) -> In xs xb -> In row xs -> length row = d3).
Proof.
  intros Hs Hwf. unfold wf_activation in Hwf. rewrite Hs in Hwf.
  destruct Hwf as [H0 H]. rewrite Forall_forall in H.
  split; [exact H0 |]. split; [| split].
  - intros xb Hxb. apply (H xb Hxb).
  - intros xb xs Hxb Hxs. destruct (H xb Hxb) as [_ H2].
    rewrite Forall_forall in H2. apply (H2 xs Hxs).
  - intros xb xs row Hxb Hxs Hrow. destruct (H xb Hxb) as [_ H2].
    rewrite Forall_forall in H2. destruct (H2 xs Hxs) as [_ H3].
    rewrite Forall_forall in H3. apply (H3 row Hrow).
Qed.

Lemma length_concat_uniform {A : Type} (k : nat) (l : list (list A)) :
  (forall r, In r l -> length r = k) ->
  length (concat l) = (length l * k)%nat.
Proof.
  induction l as [| r l IH]; intros H; [reflexivity |].
  simpl. rewrite length_app, IH by (intros r' Hr'; apply H; right; exact Hr').
  rewrite (H r) by (left; reflexivity). reflexivity.
Qed.

Lemma chunks_concat {A : Type} (k : nat) (l : list (list A)) :
  (forall r, In r l -> length r = k) ->
  chunks k (length l) (concat l) = l.
Proof.
  induction l as [| r l IH]; intros H; [reflexivity |].
  assert (Hr : length r = k) by (apply H; left; reflexivity).
  simpl. rewrite firstn_app, skipn_app, Hr, Nat.sub_diag.
  rewrite firstn_all2, skipn_all2 by lia.
  simpl. rewrite app_nil_r, IH by (intros r' Hr'; apply H; right; exact Hr').
  reflexivity.
Qed.

(** Reshaping the row-major data of a tensor to its own shape gives the
    tensor back. *)
Lemma reshape4_flatten (Z : T4) (d0 d1 d2 d3 : nat) :
  length Z = d0 ->
  (forall zb, In zb Z -> length zb = d1) ->
  (forall zb zs, In zb Z -> In zs zb -> length zs = d2) ->
  (forall zb zs row, In zb Z -> In zs zb -> In row zs -> length row = d3) ->
  reshape4 (flatten4 Z) (d0, d1, d2, d3) = Ok Z.
Proof.
  intros H0 H1 H2 H3. unfold reshape4, flatten4.
  assert (Hb : forall zb, In zb Z ->
            length (concat (map (@concat F) zb)) = (d1 * d2 * d3)%nat).
  { intros zb Hzb.
    rewrite length_concat_uniform with (k := (d2 * d3)%nat).
    - rewrite length_map, (H1 zb Hzb). lia.
    - intros r Hr. apply in_map_iff in Hr. destruct Hr as (zs & <- & Hzs).
      rewrite length_concat_uniform with (k := d3).
      + rewrite (H2 zb zs Hzb Hzs). reflexivity.
      + intros row Hrow. apply (H3 zb zs row Hzb Hzs Hrow). }
  rewrite length_concat_uniform with (k := (d1 * d2 * d3)%nat).
  2:{ intros r Hr. apply in_map_iff in Hr. destruct Hr as (zb & <- & Hzb).
      apply Hb, Hzb. }
  rewrite length_map, H0.
  replace (d0 * (d1 * d2 * d3))%nat with (d0 * d1 * d2 * d3)%nat by lia.
  rewrite Nat.eqb_refl. f_equal.
  rewrite <- H0 at 1.
  rewrite <- (length_map (fun b => concat (map (@concat F) b)) Z).
  rewrite chunks_concat.
  2:{ intros r Hr. apply in_map_iff in Hr. destruct Hr as (zb & <- & Hzb).
      apply Hb, Hzb. }
  rewrite map_map. rewrite <- (map_id Z) at 2.
  apply map_ext_in. intros zb Hzb.
  rewrite <- (H1 zb Hzb) at 1. rewrite <- (length_map (@concat F) zb).
  rewrite chunks_concat.
  2:{ intros r Hr. apply in_map_iff in Hr. destruct Hr as (zs & <- & Hzs).
      rewrite length_concat_uniform with (k := d3).
      - rewrite (H2 zb zs Hzb Hzs). reflexivity.
      - intros row Hrow. apply (H3 zb zs row Hzb Hzs Hrow). }
  rewrite map_map. rewrite <- (map_id zb) at 2.
  apply map_ext_in. intros zs Hzs.
  rewrite <- (H2 zb zs Hzb Hzs). apply chunks_concat.
  intros row Hrow. apply (H3 zb zs row Hzb Hzs Hrow).
Qed.

(** The shapes of the two layouts: [2 * max_seq_len] rows in both; a row
    of the table holds one (cos, sin) pair per inverse frequency, a row of
    the flattened table twice as many values. *)
Lemma cis_table_shape (m : nat) (v : list F) :
  length (cis_table m v) = (m * 2)%nat /\
  Forall (fun r => length r = length v /\
                   Forall (fun p => length p = 2%nat) r) (cis_table m v) /\
  length (map (@concat F) (cis_table m v)) = (m * 2)%nat /\
  Forall (fun r => length r = (2 * length v)%nat)
         (map (@concat F) (cis_table m v)).
Proof.
  split; [apply length_cis_table |].
  assert (Hrows : Forall (fun r => length r = length v /\
                    Forall (fun p => length p = 2%nat) r) (cis_table m v)).
  { rewrite cis_table_eq. unfold ops_outer. rewrite map_map.
    apply Forall_forall. intros r Hr. apply in_map_iff in Hr.
    destruct Hr as (t & <- & _). rewrite !length_map.
    split; [reflexivity |].
    apply Forall_forall. intros p Hp. apply in_map_iff in Hp.
    destruct Hp as (a & <- & _). reflexivity. }
  split; [exact Hrows |].
  split; [rewrite length_map; apply length_cis_table |].
  rewrite Forall_forall in Hrows.
  apply Forall_forall. intros r Hr. apply in_map_iff in Hr.
  destruct Hr as (r3 & <- & Hr3). destruct (Hrows r3 Hr3) as [Hl Hp].
  rewrite Forall_forall in Hp.
  rewrite length_concat_uniform with (k := 2%nat) by exact Hp.
  rewrite Hl. lia.
Qed.

Lemma per_row_const (g : list F -> list F) (A : list (list F)) (X : T4) :
  (forall xb, In xb X -> length xb = length A) ->
  map (map (map g)) X = per_row (fun _ row => g row) A X.
Proof.
  intros H. unfold per_row. apply map_ext_in. intros xb Hxb.
  symmetry. apply (zmap_fst (map g)). rewrite (H xb Hxb). lia.
Qed.

(** The shape of a tensor given row by row. *)
Lemma per_row_shape (G : list F -> list F -> list F) (A : list (list F))
    (X : T4) (d0 d1 d2 d3 : nat) :
  length X = d0 -> length A = d1 ->
  (forall xb, In xb X -> length xb = d1) ->
  (forall xb xs, In xb X -> In xs xb -> length xs = d2) ->
  (forall xb xs a row,
     In xb X -> In (xs, a) (combine xb A) -> In row xs ->
     length (G a row) = d3) ->
  length (per_row G A X) = d0 /\
  (forall zb, In zb (per_row G A X) -> length zb = d1) /\
  (forall zb zs, In zb (per_row G A X) -> In zs zb -> length zs = d2) /\
  (forall zb zs row,
     In zb (per_row G A X) -> In zs zb -> In row zs -> length row = d3).
Proof.
  intros H0 HA H1 H2 H3. unfold per_row.
  split; [rewrite length_map; exact H0 |].
  split; [| split].
  - intros zb Hzb. apply in_map_iff in Hzb. destruct Hzb as (xb & <- & Hxb).
    rewrite length_zmap, (H1 xb Hxb), HA. lia.
  - intros zb zs Hzb Hzs.
    apply in_map_iff in Hzb. destruct Hzb as (xb & <- & Hxb).
    apply in_map_iff in Hzs. destruct Hzs as ([xs a] & <- & Hxa).
    rewrite length_map. apply (H2 xb xs Hxb). eapply in_combine_l, Hxa.
  - intros zb zs row Hzb Hzs Hrow.
    apply in_map_iff in Hzb. destruct Hzb as (xb & <- & Hxb).
    apply in_map_iff in Hzs. destruct Hzs as ([xs a] & <- & Hxa).
    apply in_map_iff in Hrow. destruct Hrow as (r & <- & Hr).
    eapply H3; eassumption.
Qed.

(** ** Splitting into real and imaginary parts *)

Lemma split_pairs_ok (il : bool) (x : Activation) (d0 d1 d2 k : nat) :
  shape x = (d0, d1, d2, (2 * k)%nat) -> wf_activation x ->
  split_pairs il x
  = Ok (map (map (map (fun row => map fst (pair_view il row)))) (elems x),
        map (map (map (fun row => map snd (pair_view il row)))) (elems x)).
Proof.
  intros Hs Hwf.
  destruct (wf_activation_inv x _ _ _ _ Hs Hwf) as (_ & _ & _ & H3).
  unfold split_pairs. destruct il.
  - unfold as_interleaved_complex.
    rewrite mapM_ok
      with (g := map (map (fun row =>
                             map (fun '(a, b) => [a; b]) (deinterleave row)))).
    2:{ intros xb Hxb. apply mapM_ok. intros xs Hxs. apply mapM_ok.
        intros row Hrow. apply pairs_of_even with (k := k).
        apply (H3 xb xs row Hxb Hxs Hrow). }
    simpl bind. unfold index_last.
    assert (E : forall (i : nat) (pr : F * F -> F),
              (forall a b, sel_last i [a; b] = Ok (pr (a, b))) ->
              mapM (mapM (mapM (mapM (sel_last i))))
                (map (map (map (fun row =>
                   map (fun '(a, b) => [a; b]) (deinterleave row))))
                   (elems x))
              = Ok (map (map (map (fun row => map pr (deinterleave row))))
                        (elems x))).
    { intros i pr Hpr. rewrite mapM_map. apply mapM_ok. intros xb _.
      rewrite mapM_map. apply mapM_ok. intros xs _.
      rewrite mapM_map. apply mapM_ok. intros row _.
      rewrite mapM_map. apply mapM_ok. intros [a b] _. apply Hpr. }
    rewrite (E 0%nat fst), (E 1%nat snd) by reflexivity. reflexivity.
  - unfold shape_last. rewrite Hs, half_double.
    replace (2 * k - k)%nat with k by lia. rewrite Nat.eqb_refl.
    f_equal. f_equal.
    + apply map_ext_in. intros xb Hxb. apply map_ext_in. intros xs Hxs.
      apply map_ext_in. intros row Hrow. unfold pair_view.
      rewrite (H3 xb xs row Hxb Hxs Hrow), half_double.
      rewrite map_fst_combine; [reflexivity |].
      rewrite length_firstn, length_skipn.
      rewrite (H3 xb xs row Hxb Hxs Hrow). lia.
    + apply map_ext_in. intros xb Hxb. apply map_ext_in. intros xs Hxs.
      apply map_ext_in. intros row Hrow. unfold pair_view.
      rewrite (H3 xb xs row Hxb Hxs Hrow), half_double.
      rewrite map_snd_combine; [reflexivity |].
      rewrite length_firstn, length_skipn.
      rewrite (H3 xb xs row Hxb Hxs Hrow). lia.
Qed.

(** ** The rotation *)

Lemma stack_per_row (G1 G2 : list F -> list F -> list F)
    (A : list (list F)) (X : T4) :
  (forall xb xs a row,
     In xb X -> In (xs, a) (combine xb A) -> In row xs ->
     length (G1 a row) = length (G2 a row)) ->
  zipWithM (zipWithM (zipWithM (zipWithM (fun re im => Ok [re; im]))))
           (per_row G1 A X) (per_row G2 A X)
  = Ok (map (fun xb =>
               zmap (fun xs a =>
                       map (fun row =>
                              zmap (fun re im => [re; im])
                                   (G1 a row) (G2 a row)) xs)
                    xb A) X).
Proof.
  intros Hlen. unfold per_row.
  rewrite zipWithM_map_map. apply mapM_ok. intros xb Hxb.
  unfold zmap at 1 2. rewrite zipWithM_map_map.
  unfold zmap at 1. apply mapM_ok. intros [xs a] Hxa.
  rewrite zipWithM_map_map. apply mapM_ok. intros row Hrow.
  apply zipWithM_leaf. eapply Hlen; eassumption.
Qed.

Lemma concat_per_row (G1 G2 : list F -> list F -> list F)
    (A : list (list F)) (X : T4) :
  zipWithM (zipWithM (zipWithM (fun re im => Ok (re ++ im))))
           (per_row G1 A X) (per_row G2 A X)
  = Ok (per_row (fun a row => G1 a row ++ G2 a row) A X).
Proof.
  unfold per_row.
  rewrite zipWithM_map_map. apply mapM_ok. intros xb Hxb.
  unfold zmap at 1 2. rewrite zipWithM_map_map.
  unfold zmap at 1. apply mapM_ok. intros [xs a] Hxa.
  rewrite zipWithM_map_map. apply mapM_ok. intros row Hrow.
  reflexivity.
Qed.

(** The side conditions of the lemmas above: the two operands of an
    operation have rows of one length, by the lengths [Hpv] gives for the
    pairs of a row and for its angles. *)
Ltac row_lengths Hpv :=
  let xb := fresh "xb" in
  let xs := fresh "xs" in
  let a := fresh "a" in
  let row := fresh "row" in
  let Hxb := fresh "Hxb" in
  let Hxa := fresh "Hxa" in
  let Hrow := fresh "Hrow" in
  let E1 := fresh "E" in
  let E2 := fresh "E" in
  intros xb xs a row Hxb Hxa Hrow;
  destruct (Hpv xb xs a row Hxb Hxa Hrow) as [E1 E2];
  rewrite ?length_zmap, ?length_map; congruence.

Lemma flatten_stacked (H : list F -> list F -> list (list F))
    (A : list (list F)) (X : T4) :
  concat (map (fun b => concat (map (fun s => concat (map (@concat F) s)) b))
              (map (fun xb => zmap (fun xs a => map (H a) xs) xb A) X))
  = flatten4 (per_row (fun a row => concat (H a row)) A X).
Proof.
  unfold flatten4, per_row. rewrite !map_map. f_equal.
  apply map_ext. intros xb. f_equal.
  unfold zmap. rewrite !map_map. apply map_ext. intros [xs a].
  rewrite map_map. reflexivity.
Qed.

(** With the real and imaginary parts of [x] and the cosines and sines of
    one row of angles per position, lines 141-156 turn every pair of [x]
    by its angle and return the result in the shape of [x]. *)
Lemma rotate_ok (il : bool) (x : Activation) (d0 d1 d2 k : nat)
    (A : list (list F)) :
  shape x = (d0, d1, d2, (2 * k)%nat) -> wf_activation x ->
  length A = d1 -> Forall (fun a => length a = k) A ->
  rotate il x
    (map (map (map (fun row => map fst (pair_view il row)))) (elems x))
    (map (map (map (fun row => map snd (pair_view il row)))) (elems x))
    (map (map (fun a => [fcos a; fsin a])) A)
  = Ok {| shape := shape x; elems := rotate_rows il A (elems x) |}.
Proof.
  intros Hs Hwf HA Hk.
  destruct (wf_activation_inv x _ _ _ _ Hs Hwf) as (H0 & H1 & H2 & H3).
  rewrite Forall_forall in Hk.
  assert (HsA : forall xb, In xb (elems x) -> length xb = length A)
    by (intros xb Hxb; rewrite (H1 xb Hxb), HA; reflexivity).
  assert (Hpv : forall xb xs a row,
            In xb (elems x) -> In (xs, a) (combine xb A) -> In row xs ->
            length (pair_view il row) = k /\ length a = k).
  { intros xb xs a row Hxb Hxa Hrow. split.
    - apply length_pair_view. apply (H3 xb xs row Hxb); [| exact Hrow].
      eapply in_combine_l, Hxa.
    - apply Hk. eapply in_combine_r, Hxa. }
  unfold rotate. destruct (index_last_cis A) as [-> ->]. simpl bind.
  rewrite (per_row_const (fun row => map fst (pair_view il row)) A),
    (per_row_const (fun row => map snd (pair_view il row)) A) by exact HsA.
  rewrite (bop4_bcast fmul _ (map fcos)); [simpl bind | exact HsA |].
  2:{ row_lengths Hpv. }
  rewrite (bop4_bcast fmul _ (map fsin)); [simpl bind | exact HsA |].
  2:{ row_lengths Hpv. }
  rewrite bop4_per_row; [simpl bind |].
  2:{ row_lengths Hpv. }
  rewrite (bop4_bcast fmul _ (map fsin)); [simpl bind | exact HsA |].
  2:{ row_lengths Hpv. }
  rewrite (bop4_bcast fmul _ (map fcos)); [simpl bind | exact HsA |].
  2:{ row_lengths Hpv. }
  rewrite bop4_per_row; [simpl bind |].
  2:{ row_lengths Hpv. }
  assert (Hdata :
    (if il then
       rope_complex <-
         zipWithM (zipWithM (zipWithM (zipWithM
           (fun re im => Ok [re; im]))))
           (per_row (fun a row =>
              zmap fsub
                (zmap fmul (map fst (pair_view il row)) (map fcos a))
                (zmap fmul (map snd (pair_view il row)) (map fsin a)))
              A (elems x))
           (per_row (fun a row =>
              zmap fadd
                (zmap fmul (map fst (pair_view il row)) (map fsin a))
                (zmap fmul (map snd (pair_view il row)) (map fcos a)))
              A (elems x)) ;;
       Ok (concat (map (fun b => concat (map (fun s =>
             concat (map (@concat F) s)) b)) rope_complex))
     else
       rope_complex <-
         zipWithM (zipWithM (zipWithM
           (fun re im => Ok (re ++ im))))
           (per_row (fun a row =>
              zmap fsub
                (zmap fmul (map fst (pair_view il row)) (map fcos a))
                (zmap fmul (map snd (pair_view il row)) (map fsin a)))
              A (elems x))
           (per_row (fun a row =>
              zmap fadd
                (zmap fmul (map fst (pair_view il row)) (map fsin a))
                (zmap fmul (map snd (pair_view il row)) (map fcos a)))
              A (elems x)) ;;
       Ok (flatten4 rope_complex))
    = Ok (flatten4 (rotate_rows il A (elems x)))).
  { destruct il.
    - rewrite stack_per_row.
      2:{ row_lengths Hpv. }
      simpl bind. rewrite flatten_stacked. do 2 f_equal.
      unfold rotate_rows. apply per_row_ext_in. intros xb xs a row _ _ _.
      rewrite rot_fst, rot_snd. apply stack_pairs.
    - rewrite concat_per_row. simpl bind. f_equal. f_equal.
      unfold rotate_rows. apply per_row_ext_in. intros xb xs a row _ _ _.
      rewrite rot_fst, rot_snd. reflexivity. }
  rewrite Hdata. simpl bind. rewrite Hs.
  assert (Hshape := per_row_shape
    (fun a row => row_of_pairs il (zmap rot (pair_view il row) a))
    A (elems x) d0 d1 d2 (2 * k)%nat H0 HA H1 H2).
  destruct Hshape as (S0 & S1 & S2 & S3).
  { intros xb xs a row Hxb Hxa Hrow.
    destruct (Hpv xb xs a row Hxb Hxa Hrow) as [E1 E2].
    rewrite length_row_of_pairs, length_zmap, E1, E2. lia. }
  unfold rotate_rows.
  rewrite (reshape4_flatten _ d0 d1 d2 (2 * k)%nat S0 S1 S2 S3).
  reflexivity.
Qed.




(** ** The engine as built *)

Lemma compute_inv_freqs_total (self : RotaryEmbedding) :
  n_heads self <> O ->
  (forall sp, klass self = Llama3 (Some sp) ->
     low_freq_factor sp <> 0 /\ high_freq_factor sp <> 0) ->
  exists v, _compute_inv_freqs self = Ok v /\
            length v = (dim self / n_heads self / 2)%nat.
Proof.
  intros Hh Hsp.
  assert (Hb : exists v, base_compute_inv_freqs self = Ok v /\
                 length v = (dim self / n_heads self / 2)%nat).
  { unfold base_compute_inv_freqs, py_floordiv.
    destruct (n_heads self) as [| h'] eqn:E; [contradiction |].
    simpl bind. eexists. split; [reflexivity |].
    unfold ops_range. rewrite !length_map, length_seq. reflexivity. }
  destruct Hb as (v & Hv & Hlen).
  unfold _compute_inv_freqs.
  destruct (klass self) as [| | [sp |]] eqn:K;
    try (exists v; split; assumption).
  - destruct (Hsp sp eq_refl) as [Hlo Hhi].
    unfold llama3_compute_inv_freqs. rewrite Hv. simpl bind.
    rewrite !py_truediv_ok by assumption. simpl bind.
    eexists. split; [reflexivity |]. rewrite length_map. exact Hlen.
  - unfold llama3_compute_inv_freqs. rewrite Hv. simpl bind.
    exists v. split; [reflexivity | exact Hlen].
Qed.

(** The first access to [freqs_cis] on an engine as built. *)
Lemma freqs_cis_first (self : RotaryEmbedding) (v : list F) :
  freqs_cis_slot self = None -> _freqs_cis self = None ->
  _compute_inv_freqs self = Ok v ->
  exists self' (flat : bool),
    freqs_cis self
    = (self', Ok (if flat
                  then Freqs2 (map (@concat F)
                                   (cis_table (max_seq_len self) v))
                  else Freqs3 (cis_table (max_seq_len self) v))) /\
    interleaved self' = interleaved self.
Proof.
  intros Hslot Hfc Hv.
  unfold freqs_cis, freqs_cis_body, freqs_cis_base.
  rewrite Hslot, Hfc, Hv.
  destruct (klass self) as [| | sp].
  - eexists. exists false. split; reflexivity.
  - eexists. exists true. split; reflexivity.
  - eexists. exists true. split; reflexivity.
Qed.

(** What [__call__] returns on an engine as built, for an activation of
    the engine's head dimension and a window inside the table. *)
Lemma call_rotates (self : RotaryEmbedding) (v : list F) (x : Activation)
    (start_pos seq_len : option nat) (d0 d1 d2 k : nat) :
  freqs_cis_slot self = None -> _freqs_cis self = None ->
  _compute_inv_freqs self = Ok v -> length v = k ->
  shape x = (d0, d1, d2, (2 * k)%nat) -> wf_activation x ->
  let start := match start_pos with Some p => p | None => O end in
  let len := match seq_len with Some n => n | None => d2 end in
  len = d1 -> (start + len <= max_seq_len self * 2)%nat ->
  snd (__call__ self x start_pos seq_len)
  = Ok {| shape := shape x;
          elems := rotate_rows (interleaved self)
                     (window_angles v (max_seq_len self) start len)
                     (elems x) |}.
Proof.
  intros Hslot Hfc Hv Hlen Hs Hwf start len Hl Hwin.
  unfold __call__.
  rewrite (split_pairs_ok (interleaved self) x d0 d1 d2 k Hs Hwf).
  destruct (freqs_cis_first self v Hslot Hfc Hv) as (self' & flat & -> & Hil).
  cbn [snd]. rewrite Hil.
  replace (shape_last2 x) with d2
    by (unfold shape_last2; rewrite Hs; reflexivity).
  fold start. fold len.
  rewrite slice_cis_table by exact Hwin. simpl bind.
  destruct (window_rows v (max_seq_len self) start len Hwin) as [W1 W2].
  apply rotate_ok with (d0 := d0) (d1 := d1) (d2 := d2) (k := k);
    try assumption.
  - rewrite W1. exact Hl.
  - rewrite Hlen in W2. exact W2.
Qed.

(** ** Operations that return *)




Lemma shaped4_inv (T : T4) (d0 d1 d2 d3 : nat) :
  shaped4 (d0, d1, d2, d3) T ->
  length T = d0 /\
  (forall xb, In xb T -> length xb = d1) /\
  (forall xb xs, In xb T -> In xs xb -> length xs = d2) /\
  (forall xb xs row, In xb T -> In xs xb -> In row xs -> length row = d3).
Proof.
  intros [H0 H]. rewrite Forall_forall in H.
  split; [exact H0 |]. split; [| split].
  - intros xb Hxb. apply (H xb Hxb).
  - intros xb xs Hxb Hxs. destruct (H xb Hxb) as [_ H2].
    rewrite Forall_forall in H2. apply (H2 xs Hxs).
  - intros xb xs row Hxb Hxs Hrow. destruct (H xb Hxb) as [_ H2].
    rewrite Forall_forall in H2. destruct (H2 xs Hxs) as [_ H3].
    rewrite Forall_forall in H3. apply (H3 row Hrow).
Qed.






(** ** Broadcasting the table over the positions and pairs of [x] *)

Lemma expand_map {A B : Type} (g : A -> B) (n : nat) (l : list A) :
  expand n (map g l) = map g (expand n l).
Proof.
  destruct l as [| a [| a' l]]; try reflexivity.
  simpl. symmetry. apply map_repeat.
Qed.

Lemma length_expand {A : Type} (n : nat) (l : list A) :
  (length l = n \/ length l = 1)%nat -> length (expand n l) = n.
Proof.
  destruct l as [| a [| a' l]]; simpl; intros [H | H];
    try discriminate; try exact H.
  - apply repeat_length.
  - apply repeat_length.
Qed.

Lemma In_expand {A : Type} (n : nat) (l : list A) (a : A) :
  In a (expand n l) -> In a l.
Proof.
  destruct l as [| b [| b' l]]; simpl; try tauto.
  intros H. apply repeat_spec in H. left. symmetry. exact H.
Qed.

Lemma expand_same {A : Type} (n : nat) (l : list A) :
  length l = n -> expand n l = l.
Proof.
  destruct l as [| a [| a' l]]; try reflexivity.
  simpl. intros <-. reflexivity.
Qed.

Lemma zipWithM_repeat {A B C : Type} (f : A -> B -> res C) (xs : list A)
    (y : B) :
  zipWithM f xs (repeat y (length xs)) = mapM (fun x => f x y) xs.
Proof.
  induction xs as [| x xs IH]; [reflexivity |].
  simpl. rewrite IH. reflexivity.
Qed.

(** An operand that is as long as the other or of length 1 can be
    repeated first. *)
Lemma bzip_expand {A B C : Type} (f : A -> B -> res C) (xs : list A)
    (ys : list B) :
  (length ys = length xs \/ length ys = 1)%nat ->
  bzip f xs ys = zipWithM f xs (expand (length xs) ys).
Proof.
  intros H. destruct ys as [| y [| y' ys]].
  - destruct H as [H | H]; [| discriminate].
    unfold bzip. rewrite <- H. reflexivity.
  - rewrite bzip_singleton. simpl. symmetry. apply zipWithM_repeat.
  - destruct H as [H | H]; [| discriminate].
    unfold bzip. rewrite <- H, Nat.eqb_refl. reflexivity.
Qed.

Lemma mapM_ext_in {A B : Type} (f g : A -> res B) (l : list A) :
  (forall a, In a l -> f a = g a) -> mapM f l = mapM g l.
Proof.
  induction l as [| a l IH]; intros H; [reflexivity |].
  simpl. rewrite (H a) by (left; reflexivity).
  rewrite IH by (intros b Hb; apply H; right; exact Hb). reflexivity.
Qed.

Lemma zipWithM_ext_in {A B C : Type} (f g : A -> B -> res C)
    (xs : list A) (ys : list B) :
  (forall x y, In x xs -> In y ys -> f x y = g x y) ->
  zipWithM f xs ys = zipWithM g xs ys.
Proof.
  revert ys. induction xs as [| x xs IH]; intros [| y ys] H;
    try reflexivity.
  simpl. rewrite (H x y) by (left; reflexivity).
  rewrite IH by (intros x' y' Hx Hy; apply H; right; assumption).
  reflexivity.
Qed.

Lemma zipWithM_map_r {A B B' C : Type} (f : A -> B' -> res C)
    (g : B -> B') (xs : list A) (ys : list B) :
  zipWithM f xs (map g ys) = zipWithM (fun x y => f x (g y)) xs ys.
Proof.
  revert ys. induction xs as [| x xs IH]; intros [| y ys]; try reflexivity.
  simpl. rewrite IH. reflexivity.
Qed.

Lemma length_broadcast_angles (d1 k : nat) (A : list (list F)) :
  (length A = d1 \/ length A = 1)%nat ->
  Forall (fun a => length a = k \/ length a = 1%nat) A ->
  length (broadcast_angles d1 k A) = d1 /\
  Forall (fun a => length a = k) (broadcast_angles d1 k A).
Proof.
  intros HA Hk. unfold broadcast_angles. rewrite length_map.
  split; [apply length_expand; exact HA |].
  rewrite Forall_forall in Hk. rewrite Forall_map. apply Forall_forall.
  intros a Ha. apply length_expand. apply Hk. eapply In_expand, Ha.
Qed.

Lemma broadcast_angles_same (d1 k : nat) (A : list (list F)) :
  length A = d1 -> Forall (fun a => length a = k) A ->
  broadcast_angles d1 k A = A.
Proof.
  intros HA Hk. unfold broadcast_angles. rewrite (expand_same d1 A HA).
  rewrite <- (map_id A) at 2. apply map_ext_in. intros a Ha.
  apply expand_same. rewrite Forall_forall in Hk. apply Hk, Ha.
Qed.

(** The operand built from the table stands for the table repeated over
    the positions and the pairs of the other operand. *)
Lemma bop4_expand (f : F -> F -> F) (g : F -> F) (X : T4)
    (A : list (list F)) (d0 d1 d2 k : nat) :
  shaped4 (d0, d1, d2, k) X ->
  (length A = d1 \/ length A = 1)%nat ->
  Forall (fun a => length a = k \/ length a = 1%nat) A ->
  bop4 f X [map (fun a => [map g a]) A]
  = bop4 f X [map (fun a => [map g a]) (broadcast_angles d1 k A)].
Proof.
  intros HX HA Hk.
  destruct (shaped4_inv X _ _ _ _ HX) as (_ & X1 & _ & X3).
  rewrite Forall_forall in Hk.
  unfold bop4. rewrite !bzip_singleton. apply mapM_ext_in. intros xb Hxb.
  rewrite !bzip_expand by (rewrite length_map, ?(X1 xb Hxb);
    unfold broadcast_angles; rewrite ?length_map, ?length_expand; auto).
  rewrite !expand_map.
  rewrite (expand_same (length xb) (broadcast_angles d1 k A))
    by (rewrite (X1 xb Hxb); apply length_broadcast_angles;
        [exact HA | apply Forall_forall; exact Hk]).
  rewrite (X1 xb Hxb). unfold broadcast_angles.
  rewrite map_map, !zipWithM_map_r.
  apply zipWithM_ext_in. intros xs a Hxs Ha.
  rewrite !bzip_singleton. apply mapM_ext_in. intros row Hrow.
  pose proof (X3 xb xs row Hxb Hxs Hrow) as Lr.
  pose proof (Hk a (In_expand _ _ _ Ha)) as La.
  rewrite (bzip_expand _ row (map g a)) by (rewrite length_map, Lr; exact La).
  rewrite expand_map, Lr.
  unfold bzip. rewrite length_map, length_expand, Lr, Nat.eqb_refl
    by exact La.
  reflexivity.
Qed.

Lemma shaped4_map (g : list F -> list F) (X : T4) (d0 d1 d2 d3 k : nat) :
  shaped4 (d0, d1, d2, d3) X ->
  (forall row, length row = d3 -> length (g row) = k) ->
  shaped4 (d0, d1, d2, k) (map (map (map g)) X).
Proof.
  intros [H0 H] Hg. split; [rewrite length_map; exact H0 |].
  rewrite Forall_map. eapply Forall_impl; [| exact H].
  intros xb [H1 H2]. split; [rewrite length_map; exact H1 |].
  rewrite Forall_map. eapply Forall_impl; [| exact H2].
  intros xs [H3 H4]. split; [rewrite length_map; exact H3 |].
  rewrite Forall_map. eapply Forall_impl; [| exact H4].
  intros row. apply Hg.
Qed.

Lemma wf_shaped4 (x : Activation) (d0 d1 d2 d3 : nat) :
  shape x = (d0, d1, d2, d3) -> wf_activation x ->
  shaped4 (d0, d1, d2, d3) (elems x).
Proof.
  intros Hs Hwf. unfold wf_activation in Hwf. rewrite Hs in Hwf. exact Hwf.
Qed.

Lemma split_shaped (il : bool) (x : Activation) (d0 d1 d2 k : nat) :
  shape x = (d0, d1, d2, (2 * k)%nat) -> wf_activation x ->
  shaped4 (d0, d1, d2, k)
    (map (map (map (fun row => map fst (pair_view il row)))) (elems x)) /\
  shaped4 (d0, d1, d2, k)
    (map (map (map (fun row => map snd (pair_view il row)))) (elems x)).
Proof.
  intros Hs Hwf. pose proof (wf_shaped4 x _ _ _ _ Hs Hwf) as HX.
  split; apply (shaped4_map _ _ _ _ _ _ _ HX); intros row Hr;
    rewrite length_map; apply length_pair_view; exact Hr.
Qed.

(** [rotate] with a table that has one row, or one pair per row, is
    [rotate] with that table repeated. *)
Lemma rotate_broadcast (il : bool) (x : Activation) (d0 d1 d2 k : nat)
    (A : list (list F)) :
  shape x = (d0, d1, d2, (2 * k)%nat) -> wf_activation x ->
  (length A = d1 \/ length A = 1)%nat ->
  Forall (fun a => length a = k \/ length a = 1%nat) A ->
  rotate il x
    (map (map (map (fun row => map fst (pair_view il row)))) (elems x))
    (map (map (map (fun row => map snd (pair_view il row)))) (elems x))
    (map (map (fun a => [fcos a; fsin a])) A)
  = Ok {| shape := shape x;
          elems := rotate_rows il (broadcast_angles d1 k A) (elems x) |}.
Proof.
  intros Hs Hwf HA Hk.
  destruct (split_shaped il x d0 d1 d2 k Hs Hwf) as [Hre Him].
  destruct (length_broadcast_angles d1 k A HA Hk) as [LB FB].
  rewrite <- (rotate_ok il x d0 d1 d2 k (broadcast_angles d1 k A) Hs Hwf
                LB FB).
  unfold rotate.
  destruct (index_last_cis A) as [-> ->].
  destruct (index_last_cis (broadcast_angles d1 k A)) as [-> ->].
  cbn [bind].
  rewrite (bop4_expand fmul fcos _ A d0 d1 d2 k Hre HA Hk).
  rewrite (bop4_expand fmul fsin _ A d0 d1 d2 k Him HA Hk).
  rewrite (bop4_expand fmul fsin _ A d0 d1 d2 k Hre HA Hk).
  rewrite (bop4_expand fmul fcos _ A d0 d1 d2 k Him HA Hk).
  reflexivity.
Qed.

(** ** Calls that return *)
















(** A call whose window has one row per position of [x], or a single
    row, returns. *)
Lemma call_rotates_broadcast (self : RotaryEmbedding) (v : list F)
    (x : Activation) (start_pos seq_len : option nat) (d0 d1 d2 k : nat) :
  freqs_cis_slot self = None -> _freqs_cis self = None ->
  _compute_inv_freqs self = Ok v -> length v = k ->
  shape x = (d0, d1, d2, (2 * k)%nat) -> wf_activation x ->
  let start := match start_pos with Some p => p | None => O end in
  let len := match seq_len with Some n => n | None => d2 end in
  (len = d1 \/ len = 1%nat) -> (start + len <= max_seq_len self * 2)%nat ->
  snd (__call__ self x start_pos seq_len)
  = Ok {| shape := shape x;
          elems := rotate_rows (interleaved self)
                     (broadcast_angles d1 k
                        (window_angles v (max_seq_len self) start len))
                     (elems x) |}.
Proof.
  intros Hslot Hfc Hv Hlen Hs Hwf start len Hl Hwin.
  unfold __call__.
  rewrite (split_pairs_ok (interleaved self) x d0 d1 d2 k Hs Hwf).
  destruct (freqs_cis_first self v Hslot Hfc Hv) as (self' & flat & -> & Hil).
  cbn [snd]. rewrite Hil.
  replace (shape_last2 x) with d2
    by (unfold shape_last2; rewrite Hs; reflexivity).
  fold start. fold len.
  rewrite slice_cis_table by exact Hwin. simpl bind.
  destruct (window_rows v (max_seq_len self) start len Hwin) as [W1 W2].
  apply rotate_broadcast with (d0 := d0) (d2 := d2); try assumption.
  - rewrite W1. exact Hl.
  - eapply Forall_impl; [| exact W2]. intros a Ha. left.
    rewrite Ha. exact Hlen.
Qed.


(** ** The YaRN tables *)

Lemma Forall2_map_map {A B C : Type} (R : B -> C -> Prop) (g : A -> B)
    (h : A -> C) (l : list A) :
  (forall a, In a l -> R (g a) (h a)) -> Forall2 R (map g l) (map h l).
Proof.
  induction l as [| a l IH]; intros H; [constructor |].
  simpl. constructor; [apply H; left; reflexivity |].
  apply IH. intros b Hb. apply H. right. exact Hb.
Qed.






(** * Further properties of the code *)

(** ** The magnitude factor of YaRN *)

Lemma get_mscale_ge_1 (scale m : R) : 0 <= m -> 1 <= _yarn_get_mscale scale m.
Proof.
  intros Hm. unfold _yarn_get_mscale.
  destruct (Rle_dec scale 1) as [H | H]; [lra |].
  assert (Hl : 0 < ln scale) by (apply ln_gt_0; lra).
  assert (0 <= m * ln scale) by (apply Rmult_le_pos; lra). lra.
Qed.





(** X2. For a finite [theta]: when [scaling_factor <= 1], or when
    [mscale] and [mscale_all_dim] are equal and their common factor is not
    zero, [_mscale] is 1: the YaRN call returns plain cosines and sines,
    [c^2 + s^2 = 1] at every finite entry. *)
Theorem yarn_tables_unscaled (self : DeepseekYarnRotaryEmbedding)
    (sp : DeepseekYarnRopeScalingParams) (th : R) (x : Activation)
    (start_pos seq_len : option nat) :
  scaling_params self = Some sp -> y_theta self = Finite th ->
  scaling_factor sp <= 1 \/
  (mscale sp = mscale_all_dim sp /\
   _yarn_get_mscale (scaling_factor sp) (mscale sp) <> 0) ->
  exists self' freqs_cos freqs_sin,
    yarn__call__ self x start_pos seq_len
    = (self', Ok [freqs_cos; freqs_sin]) /\
    Forall2 (Forall2 (fun c s =>
       (exists a, c = fcos a /\ s = fsin a) /\
       forall c' s' : R, c = Some c' -> s = Some s' ->
         c' * c' + s' * s' = 1))
      freqs_cos freqs_sin.
Proof.
  intros Hsp Hth Hcase.
  assert (Hms : py_truediv
                  (_yarn_get_mscale (scaling_factor sp) (mscale sp))
                  (_yarn_get_mscale (scaling_factor sp) (mscale_all_dim sp))
                = Ok 1).
  { destruct Hcase as [Hle | [Heq Hne]].
    - unfold _yarn_get_mscale.
      destruct (Rle_dec (scaling_factor sp) 1); [| contradiction].
      rewrite py_truediv_ok by lra. f_equal. lra.
    - rewrite <- Heq. rewrite py_truediv_ok by exact Hne.
      f_equal. field. exact Hne. }
  unfold yarn__call__, _compute_yarn_freqs. rewrite Hsp.
  pose proof (yarn_inv_freq_cases self sp) as Hc. rewrite Hth in Hc.
  destruct Hc as [v ->]. rewrite Hms.
  do 3 eexists. split; [reflexivity |].
  apply Forall2_map_map. intros r _.
  apply Forall2_map_map. intros a _.
  assert (E : forall g : R -> R,
            fmul (lift1 g a) (const 1) = lift1 g a).
  { intros g. destruct a as [t |]; [| reflexivity].
    simpl. f_equal. lra. }
  unfold fcos, fsin. rewrite !E. split.
  - exists a. split; reflexivity.
  - intros c' s' Hc Hs. destruct a as [t |]; [| discriminate].
    simpl in Hc, Hs. injection Hc as <-. injection Hs as <-.
    pose proof (sin2_cos2 t) as H. unfold Rsqr in H. lra.
Qed.

Lemma yarn_tables_unscaled_witness :
  let sp := {| scaling_factor := 40;
               original_max_position_embeddings := 4096;
               beta_fast := 32; beta_slow := 1;
               mscale := 1; mscale_all_dim := 1 |} in
  let self := {| y_dim := 4; y_n_heads := 1; y_theta := Finite 10000;
                 y_max_seq_len := 16; y_freqs_cis := None;
                 y_interleaved := true; scaling_params := Some sp;
                 inv_freq := None |} in
  let x := {| shape := (1, 1, 2, 2)%nat;
              elems := [[[[Some 1; Some 0]; [Some 0; Some 1]]]] |} in
  exists self' freqs_cos freqs_sin,
    yarn__call__ self x None None = (self', Ok [freqs_cos; freqs_sin]).
Proof.
  intros sp self x.
  destruct (yarn_tables_unscaled self sp 10000 x None None)
    as (self' & C & S & Hc & _).
  - reflexivity.
  - reflexivity.
  - right. split; [reflexivity |].
    apply Rgt_not_eq. apply Rlt_gt.
    apply Rlt_le_trans with 1; [lra |].
    apply get_mscale_ge_1. simpl. lra.
  - exists self', C, S. exact Hc.
Defined.

(** ** The blended inverse frequencies of YaRN *)

Lemma combine_map_map {A B C : Type} (u : A -> B) (v : A -> C) (l : list A) :
  combine (map u l) (map v l) = map (fun e => (u e, v e)) l.
Proof.
  induction l as [| e l IH]; [reflexivity |].
  simpl. rewrite IH. reflexivity.
Qed.

Lemma nth_map_seq {A : Type} (g : nat -> A) (n j : nat) (d : A) :
  (j < n)%nat -> nth j (map g (seq 0 n)) d = g j.
Proof.
  intros Hj.
  rewrite nth_indep with (d' := g O) by (rewrite length_map, length_seq; lia).
  rewrite map_nth, seq_nth by lia. reflexivity.
Qed.

Lemma py_trunc_ge_2 (x : R) : 2 <= x -> 1 < IZR (py_trunc x).
Proof.
  intros H. unfold py_trunc. destruct (Rle_dec 0 x); [| lra].
  apply Rlt_le_trans with 2; [lra |].
  apply IZR_le. apply Zfloor_lub. exact H.
Qed.

(** On its domain the correction range is finite, and inside
    [[0, dim - 1]] on both sides. *)
Lemma yarn_range_finite (self : DeepseekYarnRotaryEmbedding)
    (sp : DeepseekYarnRopeScalingParams) (th : R) :
  y_theta self = Finite th -> 2 <= th ->
  0 < IZR (beta_fast sp) -> 0 < IZR (beta_slow sp) ->
  0 < IZR (original_max_position_embeddings sp) ->
  exists l h : R,
    yarn_correction_range self sp = Ok (Some l, Some h) /\
    0 <= l /\ h <= INR (y_dim self) - 1.
Proof.
  intros Hfin Hth Hf Hs Hm. pose proof (py_trunc_ge_2 _ Hth) as Hb.
  rewrite (yarn_correction_range_finite self sp th Hfin).
  unfold _yarn_find_correction_range.
  rewrite !correction_dim_eq, INR_pred_IZR.
  rewrite !correction_dim_formula_some by assumption.
  do 2 eexists. split; [reflexivity |].
  split; [apply Rmax_r | apply Rmin_r].
Qed.

(** The tensor [inv_freq], entry by entry, for a positive base, a scaling
    factor other than zero and finite bounds [l], [h]: with
    [fe = 1 / theta^(2j/dim)], [fi = 1 / (scaling_factor * theta^(2j/dim))]
    and the ramp [r = clamp((j - l) / (h' - l), 0, 1)], the entry is
    [fi * (1 - (1 - r)) + fe * (1 - r)]. *)
Lemma yarn_inv_freq_eq (self : DeepseekYarnRotaryEmbedding)
    (sp : DeepseekYarnRopeScalingParams) (th l h : R) :
  y_theta self = Finite th -> 0 < th -> scaling_factor sp <> 0 ->
  yarn_correction_range self sp = Ok (Some l, Some h) ->
  yarn_inv_freq self sp
  = Ok (map (fun j : nat =>
               let p := Rpower th (2 * INR j / INR (y_dim self)) in
               let r := clamp01 ((INR j - l) / ramp_divisor l h) in
               Some (1 / (scaling_factor sp * p) * (1 - (1 - r))
                     + 1 / p * (1 - r)))
            (seq 0 (y_dim self / 2))).
Proof.
  intros Hfin Hth Hsf Hr. unfold yarn_inv_freq.
  rewrite Hr, Hfin. cbn [bind float_pow]. rewrite ramp_mask_eq. f_equal.
  unfold ops_range. rewrite !map_map.
  rewrite combine_map_map, combine_map_map, map_map.
  apply map_ext_in. intros j Hj. apply in_seq in Hj.
  assert (Hd : 0 < INR (y_dim self)) by (apply (half_lt_INR _ j); lia).
  unfold const. rewrite fdiv_some by lra.
  rewrite fpow_pos by exact Hth.
  replace ((0 + INR j * 2) / INR (y_dim self))
    with (2 * INR j / INR (y_dim self)) by (field; lra).
  pose proof (Rpower_pos th (2 * INR j / INR (y_dim self))) as Hp.
  rewrite fdiv_some by lra.
  change (fmul (Some (scaling_factor sp))
            (Some (Rpower th (2 * INR j / INR (y_dim self)))))
    with (Some (scaling_factor sp
                * Rpower th (2 * INR j / INR (y_dim self)))).
  rewrite fdiv_some by (apply Rmult_integral_contrapositive_currified; lra).
  reflexivity.
Qed.

Lemma clamp01_low (v : R) : v <= 0 -> clamp01 v = 0.
Proof.
  intros H. unfold clamp01. rewrite Rmax_right by exact H.
  apply Rmin_left. lra.
Qed.

Lemma clamp01_high (v : R) : 1 <= v -> clamp01 v = 1.
Proof.
  intros H. unfold clamp01. rewrite Rmax_left by lra.
  apply Rmin_right. exact H.
Qed.

(** X3. On the domain of the correction range (a finite [theta >= 2],
    positive rotation counts and maximal position) and for
    [scaling_factor >= 1], the YaRN inverse-frequency vector has
    [dim // 2] finite entries, and entry [j] lies between the interpolated
    frequency [fe / scaling_factor] and the base frequency
    [fe = 1 / theta^(2j/dim)]. *)
Theorem yarn_inv_freq_between (self : DeepseekYarnRotaryEmbedding)
    (sp : DeepseekYarnRopeScalingParams) (th : R) :
  y_theta self = Finite th ->
  2 <= th -> 1 <= scaling_factor sp ->
  0 < IZR (beta_fast sp) -> 0 < IZR (beta_slow sp) ->
  0 < IZR (original_max_position_embeddings sp) ->
  exists v : list R,
    yarn_inv_freq self sp = Ok (map Some v) /\
    length v = (y_dim self / 2)%nat /\
    forall j, (j < y_dim self / 2)%nat ->
      let fe := 1 / Rpower th (2 * INR j / INR (y_dim self)) in
      fe / scaling_factor sp <= nth j v 0 <= fe.
Proof.
  intros Hfin Hth Hsf Hbf Hbs Hmp.
  destruct (yarn_range_finite self sp th Hfin Hth Hbf Hbs Hmp)
    as (l & h & Hr & _).
  rewrite (yarn_inv_freq_eq self sp th l h) by (try assumption; lra).
  set (g := fun j : nat =>
         1 / (scaling_factor sp
              * Rpower th (2 * INR j / INR (y_dim self)))
         * (1 - (1 - clamp01 ((INR j - l) / ramp_divisor l h)))
         + 1 / Rpower th (2 * INR j / INR (y_dim self))
           * (1 - clamp01 ((INR j - l) / ramp_divisor l h))).
  exists (map g (seq 0 (y_dim self / 2))).
  split; [rewrite map_map; reflexivity |].
  split; [rewrite length_map, length_seq; reflexivity |].
  intros j Hj fe.
  rewrite nth_indep with (d' := g O)
    by (rewrite length_map, length_seq; lia).
  rewrite map_nth, seq_nth by lia. simpl Nat.add. unfold g.
  pose proof (Rpower_pos th (2 * INR j / INR (y_dim self))) as Hp.
  pose proof (clamp01_range ((INR j - l) / ramp_divisor l h)) as Hc.
  set (r := clamp01 ((INR j - l) / ramp_divisor l h)) in *.
  set (p := Rpower th (2 * INR j / INR (y_dim self))) in *.
  assert (Hfe : 0 < 1 / p) by (apply Rdiv_lt_0_compat; lra).
  assert (Efi : 1 / (scaling_factor sp * p) = 1 / p / scaling_factor sp)
    by (field; lra).
  assert (Hfi : 1 / p / scaling_factor sp <= 1 / p).
  { apply Rmult_le_reg_r with (r := scaling_factor sp); [lra |].
    unfold Rdiv at 1. rewrite Rmult_assoc, Rinv_l by lra. nra. }
  unfold fe. rewrite Efi. fold p. split; nra.
Qed.

Lemma yarn_inv_freq_between_witness :
  let sp := {| scaling_factor := 40;
               original_max_position_embeddings := 4096;
               beta_fast := 32; beta_slow := 1;
               mscale := 1; mscale_all_dim := 1 |} in
  let self := {| y_dim := 4; y_n_heads := 1; y_theta := Finite 10000;
                 y_max_seq_len := 16; y_freqs_cis := None;
                 y_interleaved := true; scaling_params := Some sp;
                 inv_freq := None |} in
  exists v : list R,
    yarn_inv_freq self sp = Ok (map Some v) /\ length v = 2%nat.
Proof.
  intros sp self.
  destruct (yarn_inv_freq_between self sp 10000) as (v & Hv & Hl & _);
    try reflexivity; try (simpl; lra).
  exists v. split; [exact Hv | exact Hl].
Defined.

(** X4. With [scaling_factor = 1] the YaRN blend changes nothing: on the
    domain of the correction range (a finite [theta >= 2], positive
    rotation counts and maximal position) the inverse-frequency vector is
    the base one, entry [j] being [1 / theta^(2j/dim)]. *)
Theorem yarn_inv_freq_factor_one (self : DeepseekYarnRotaryEmbedding)
    (sp : DeepseekYarnRopeScalingParams) (th : R) :
  y_theta self = Finite th ->
  2 <= th -> scaling_factor sp = 1 ->
  0 < IZR (beta_fast sp) -> 0 < IZR (beta_slow sp) ->
  0 < IZR (original_max_position_embeddings sp) ->
  yarn_inv_freq self sp
  = Ok (map (fun j : nat =>
               Some (1 / Rpower th (2 * INR j / INR (y_dim self))))
            (seq 0 (y_dim self / 2))).
Proof.
  intros Hfin Hth Hsf Hbf Hbs Hmp.
  destruct (yarn_range_finite self sp th Hfin Hth Hbf Hbs Hmp)
    as (l & h & Hr & _).
  rewrite (yarn_inv_freq_eq self sp th l h) by (try assumption; lra).
  f_equal. apply map_ext. intros j. cbv zeta. rewrite Hsf. f_equal.
  pose proof (Rpower_pos th (2 * INR j / INR (y_dim self))).
  field. lra.
Qed.

Lemma yarn_inv_freq_factor_one_witness :
  let sp := {| scaling_factor := 1;
               original_max_position_embeddings := 4096;
               beta_fast := 32; beta_slow := 1;
               mscale := 1; mscale_all_dim := 1 |} in
  let self := {| y_dim := 4; y_n_heads := 1; y_theta := Finite 10000;
                 y_max_seq_len := 16; y_freqs_cis := None;
                 y_interleaved := true; scaling_params := Some sp;
                 inv_freq := None |} in
  exists v, yarn_inv_freq self sp = Ok v /\ length v = 2%nat.
Proof.
  intros sp self.
  rewrite (yarn_inv_freq_factor_one self sp 10000);
    try reflexivity; try (simpl; lra).
  eexists. split; reflexivity.
Defined.

(** X5. What the ramp does at its two ends: for a finite positive
    [theta], a scaling factor other than zero and finite bounds
    [low < high], a dimension index at or below [low] keeps the base
    frequency [1 / theta^(2j/dim)], and an index at or above [high] gets
    the interpolated one, the base frequency divided by
    [scaling_factor]. *)
Theorem yarn_inv_freq_ends (self : DeepseekYarnRotaryEmbedding)
    (sp : DeepseekYarnRopeScalingParams) (th l h : R) (j : nat) :
  y_theta self = Finite th ->
  0 < th -> scaling_factor sp <> 0 ->
  yarn_correction_range self sp = Ok (Some l, Some h) -> l < h ->
  (j < y_dim self / 2)%nat ->
  let fe := 1 / Rpower th (2 * INR j / INR (y_dim self)) in
  exists v,
    yarn_inv_freq self sp = Ok v /\
    (INR j <= l -> nth j v None = Some fe) /\
    (h <= INR j -> nth j v None = Some (fe / scaling_factor sp)).
Proof.
  intros Hfin Hth Hsf Hr Hlh Hj fe.
  rewrite (yarn_inv_freq_eq self sp th l h) by assumption.
  eexists. split; [reflexivity |].
  rewrite nth_map_seq by exact Hj. cbv zeta.
  assert (Hd : ramp_divisor l h = h - l).
  { unfold ramp_divisor. destruct (Req_dec_T l h); lra. }
  pose proof (Rpower_pos th (2 * INR j / INR (y_dim self))) as Hp.
  split.
  - intros Hjl. rewrite clamp01_low.
    + f_equal. unfold fe. field. split; lra.
    + rewrite Hd. unfold Rdiv.
      assert (0 < / (h - l)) by (apply Rinv_0_lt_compat; lra). nra.
  - intros Hjh. rewrite clamp01_high.
    + f_equal. unfold fe. field. split; lra.
    + rewrite Hd. apply Rmult_le_reg_r with (r := h - l); [lra |].
      unfold Rdiv. rewrite Rmult_assoc, Rinv_l by lra. lra.
Qed.

(** The two correction dimensions of the configuration [dim = 4],
    [theta = 10000], maximal position 80000: below 2 for 32 rotations, at
    least 2 for one rotation. *)
Lemma example_correction_dims :
  INR 4 * ln (80000 / (32 * (2 * PI))) / (2 * ln 10000) < 2 /\
  2 <= INR 4 * ln (80000 / (1 * (2 * PI))) / (2 * ln 10000).
Proof.
  pose proof PI_RGT_0 as Hpi. pose proof PI_4 as Hpi4.
  pose proof PI2_3_2 as Hpi3.
  assert (Hl : 0 < ln 10000) by (apply ln_gt_0; lra).
  replace (INR 4) with 4 by (simpl; lra).
  split.
  - assert (HL : ln (80000 / (32 * (2 * PI))) < ln 10000).
    { apply ln_increasing.
      - apply Rdiv_lt_0_compat; lra.
      - apply Rmult_lt_reg_r with (r := 32 * (2 * PI)); [lra |].
        replace (80000 / (32 * (2 * PI)) * (32 * (2 * PI))) with 80000
          by (field; lra).
        lra. }
    apply Rmult_lt_reg_r with (r := 2 * ln 10000); [lra |].
    unfold Rdiv. rewrite Rmult_assoc, Rinv_l by lra. lra.
  - assert (HL : ln 10000 <= ln (80000 / (1 * (2 * PI)))).
    { assert (Hq : 10000 <= 80000 / (1 * (2 * PI))).
      { apply Rmult_le_reg_r with (r := 1 * (2 * PI)); [lra |].
        replace (80000 / (1 * (2 * PI)) * (1 * (2 * PI))) with 80000
          by (field; lra).
        lra. }
      destruct Hq as [Hq | Hq]; [| rewrite <- Hq; lra].
      left. apply ln_increasing; lra. }
    apply Rmult_le_reg_r with (r := 2 * ln 10000); [lra |].
    unfold Rdiv. rewrite Rmult_assoc, Rinv_l by lra. lra.
Qed.

Lemma Zfloor_lt_IZR (x : R) (z : Z) : x < IZR z -> IZR (Zfloor x) <= IZR z - 1.
Proof.
  intros H. pose proof (Zfloor_bound x) as [Hb _].
  assert (Hz : (Zfloor x < z)%Z) by (apply lt_IZR; lra).
  rewrite <- minus_IZR. apply IZR_le. lia.
Qed.

Lemma yarn_inv_freq_ends_witness :
  let sp := {| scaling_factor := 40;
               original_max_position_embeddings := 80000;
               beta_fast := 32; beta_slow := 1;
               mscale := 1; mscale_all_dim := 1 |} in
  let self := {| y_dim := 4; y_n_heads := 1; y_theta := Finite 10000;
                 y_max_seq_len := 16; y_freqs_cis := None;
                 y_interleaved := true; scaling_params := Some sp;
                 inv_freq := None |} in
  exists (l h : R) (v : list F),
    yarn_correction_range self sp = Ok (Some l, Some h) /\ l < h /\
    yarn_inv_freq self sp = Ok v /\
    nth 0 v None = Some (1 / Rpower 10000 (2 * INR 0 / INR 4)).
Proof.
  intros sp self.
  destruct example_correction_dims as [H32 H1].
  set (c32 := INR 4 * ln (80000 / (32 * (2 * PI))) / (2 * ln 10000)) in *.
  set (c1 := INR 4 * ln (80000 / (1 * (2 * PI))) / (2 * ln 10000)) in *.
  assert (Hr : yarn_correction_range self sp
               = Ok (Some (Rmax (IZR (Zfloor c32)) 0),
                     Some (Rmin (IZR (Zfloor c1)) (INR 4 - 1)))).
  { unfold yarn_correction_range, _yarn_find_correction_range.
    cbn [y_dim y_theta self sp beta_fast beta_slow
         original_max_position_embeddings py_int bind].
    rewrite !correction_dim_eq, (py_trunc_integer 10000), INR_pred_IZR.
    rewrite !correction_dim_formula_some by lra. reflexivity. }
  assert (Hlo : Rmax (IZR (Zfloor c32)) 0 <= 1).
  { apply Rmax_lub; [| lra].
    pose proof (Zfloor_lt_IZR c32 2 H32). lra. }
  assert (Hhi : 2 <= Rmin (IZR (Zfloor c1)) (INR 4 - 1)).
  { apply Rmin_glb; [| simpl; lra].
    apply IZR_le. apply Zfloor_lub. exact H1. }
  assert (Hth : 0 < 10000) by lra.
  assert (Hsf : scaling_factor sp <> 0) by (simpl; lra).
  assert (Hlh : Rmax (IZR (Zfloor c32)) 0
                < Rmin (IZR (Zfloor c1)) (INR 4 - 1)) by lra.
  assert (Hj : (0 < y_dim self / 2)%nat) by (simpl; lia).
  destruct (yarn_inv_freq_ends self sp 10000 _ _ 0%nat eq_refl Hth Hsf Hr
              Hlh Hj) as (v & Hv & Hlow & _).
  exists (Rmax (IZR (Zfloor c32)) 0), (Rmin (IZR (Zfloor c1)) (INR 4 - 1)), v.
  split; [exact Hr |]. split; [lra |]. split; [exact Hv |].
  apply Hlow. apply Rmax_r.
Defined.

(** ** Order of the correction bounds *)

Lemma ramp_mask_mono (l h : R) (dim : nat) :
  l <= h ->
  forall i j, (i <= j < dim)%nat ->
    clamp01 ((INR i - l) / ramp_divisor l h)
    <= clamp01 ((INR j - l) / ramp_divisor l h).
Proof.
  intros Hle i j [Hij _]. apply clamp01_mono.
  pose proof (ramp_divisor_pos l h Hle) as Hd.
  apply Rmult_le_compat_r; [left; apply Rinv_0_lt_compat; exact Hd |].
  apply le_INR in Hij. lra.
Qed.

(** X6. The correction dimension falls as the rotation count grows: for
    a finite [theta >= 2], a positive maximal position and rotation counts
    [0 < beta_slow <= beta_fast], [cd(beta_fast) <= cd(beta_slow)].  When
    moreover [dim >= 1], [cd(beta_slow) >= 0] and [cd(beta_fast) < dim],
    the clamped bounds are in order, [low <= high], and the ramp mask the
    code builds from them is non-decreasing over the index. *)
Theorem yarn_bounds_ordered (self : DeepseekYarnRotaryEmbedding)
    (sp : DeepseekYarnRopeScalingParams) (th : R) :
  y_theta self = Finite th -> 2 <= th ->
  0 < IZR (beta_slow sp) -> IZR (beta_slow sp) <= IZR (beta_fast sp) ->
  0 < IZR (original_max_position_embeddings sp) ->
  let cd := fun r : R =>
    INR (y_dim self)
    * ln (IZR (original_max_position_embeddings sp) / (r * (2 * PI)))
    / (2 * ln (IZR (py_trunc th))) in
  cd (IZR (beta_fast sp)) <= cd (IZR (beta_slow sp)) /\
  ((0 < y_dim self)%nat -> 0 <= cd (IZR (beta_slow sp)) ->
   cd (IZR (beta_fast sp)) < INR (y_dim self) ->
   exists (l h : R) (m : list R),
     yarn_correction_range self sp = Ok (Some l, Some h) /\ l <= h /\
     _yarn_linear_ramp_mask (Some l) (Some h) (y_dim self / 2) = map Some m /\
     forall i j, (i <= j < y_dim self / 2)%nat -> nth i m 0 <= nth j m 0).
Proof.
  intros Hfin Hth Hs Hsf Hm cd.
  pose proof (py_trunc_ge_2 _ Hth) as Hb.
  pose proof PI_RGT_0 as Hpi.
  assert (Hl : 0 < ln (IZR (py_trunc th)))
    by (apply ln_gt_0; exact Hb).
  assert (Hf : 0 < IZR (beta_fast sp)) by lra.
  assert (Hcd : cd (IZR (beta_fast sp)) <= cd (IZR (beta_slow sp))).
  { unfold cd.
    assert (HL : ln (IZR (original_max_position_embeddings sp)
                     / (IZR (beta_fast sp) * (2 * PI)))
                 <= ln (IZR (original_max_position_embeddings sp)
                        / (IZR (beta_slow sp) * (2 * PI)))).
    { assert (Hq : IZR (original_max_position_embeddings sp)
                   / (IZR (beta_fast sp) * (2 * PI))
                   <= IZR (original_max_position_embeddings sp)
                      / (IZR (beta_slow sp) * (2 * PI))).
      { unfold Rdiv. apply Rmult_le_compat_l; [lra |].
        apply Rinv_le_contravar; [| nra].
        apply Rmult_lt_0_compat; lra. }
      destruct Hq as [Hq | Hq]; [| rewrite Hq; lra].
      left. apply ln_increasing; [| exact Hq].
      apply Rdiv_lt_0_compat; [lra |]. apply Rmult_lt_0_compat; lra. }
    unfold Rdiv. apply Rmult_le_compat_r.
    - left. apply Rinv_0_lt_compat. lra.
    - apply Rmult_le_compat_l; [apply pos_INR | exact HL]. }
  split; [exact Hcd |].
  intros Hdim H0 Hd.
  assert (Hr : yarn_correction_range self sp
               = Ok (Some (Rmax (IZR (Zfloor (cd (IZR (beta_fast sp))))) 0),
                     Some (Rmin (IZR (Zfloor (cd (IZR (beta_slow sp)))))
                                (INR (y_dim self) - 1)))).
  { rewrite (yarn_correction_range_finite self sp th Hfin).
    unfold _yarn_find_correction_range.
    rewrite !correction_dim_eq, INR_pred_IZR.
    rewrite !correction_dim_formula_some by assumption. reflexivity. }
  set (l := Rmax (IZR (Zfloor (cd (IZR (beta_fast sp))))) 0) in *.
  set (h := Rmin (IZR (Zfloor (cd (IZR (beta_slow sp)))))
                 (INR (y_dim self) - 1)) in *.
  assert (Hlh : l <= h).
  { unfold l, h. apply Rmax_lub; apply Rmin_glb.
    - apply IZR_le. apply Zfloor_le. exact Hcd.
    - rewrite INR_IZR_INZ in Hd |- *.
      apply Zfloor_lt_IZR. exact Hd.
    - apply IZR_le. apply Zfloor_lub. exact H0.
    - assert (1 <= INR (y_dim self)).
      { replace 1 with (INR 1) by reflexivity. apply le_INR. lia. }
      lra. }
  exists l, h.
  exists (map (fun k => clamp01 ((INR k - l) / ramp_divisor l h))
              (seq 0 (y_dim self / 2))).
  split; [exact Hr |]. split; [exact Hlh |].
  split; [rewrite ramp_mask_eq, map_map; reflexivity |].
  intros i j Hij. rewrite !nth_map_seq by lia.
  apply ramp_mask_mono with (dim := (y_dim self / 2)%nat); assumption.
Qed.

Lemma yarn_bounds_ordered_witness :
  let sp := {| scaling_factor := 40;
               original_max_position_embeddings := 80000;
               beta_fast := 32; beta_slow := 1;
               mscale := 1; mscale_all_dim := 1 |} in
  let self := {| y_dim := 4; y_n_heads := 1; y_theta := Finite 10000;
                 y_max_seq_len := 16; y_freqs_cis := None;
                 y_interleaved := true; scaling_params := Some sp;
                 inv_freq := None |} in
  exists l h : R,
    yarn_correction_range self sp = Ok (Some l, Some h) /\ l <= h.
Proof.
  intros sp self.
  destruct example_correction_dims as [H32 H1].
  destruct (yarn_bounds_ordered self sp 10000) as [_ H];
    try reflexivity; try (simpl; lra).
  destruct H as (l & h & m & Hr & Hlh & _).
  - simpl. lia.
  - cbn [y_dim self sp beta_slow original_max_position_embeddings].
    rewrite (py_trunc_integer 10000). lra.
  - cbn [y_dim self sp beta_fast original_max_position_embeddings].
    rewrite (py_trunc_integer 10000). simpl INR at 2. lra.
  - exists l, h. split; assumption.
Defined.

(** ** Repeating a YaRN call *)

Lemma yarn_inv_freq_config (s1 s2 : DeepseekYarnRotaryEmbedding)
    (sp : DeepseekYarnRopeScalingParams) :
  y_dim s1 = y_dim s2 -> y_theta s1 = y_theta s2 ->
  yarn_inv_freq s1 sp = yarn_inv_freq s2 sp.
Proof.
  intros Hd Ht. unfold yarn_inv_freq, yarn_correction_range.
  rewrite Hd, Ht. reflexivity.
Qed.

(** X7. A YaRN call made again, on any tensor with the same [shape[-2]],
    returns what the first call returned and leaves the engine exactly as
    the first call left it: the call recomputes the same [inv_freq] and
    [_freqs_cis] and stores them over their copies. *)
Theorem yarn_call_idempotent (self : DeepseekYarnRotaryEmbedding)
    (x x' : Activation) (a b a' b' : option nat) :
  shape_last2 x = shape_last2 x' ->
  yarn__call__ (fst (yarn__call__ self x a b)) x' a' b'
  = yarn__call__ self x a b.
Proof.
  intros Hx. unfold yarn__call__, _compute_yarn_freqs. rewrite <- Hx.
  destruct self as [d nh th m fc il [sp |] ifr]; [| reflexivity].
  cbn [scaling_params].
  set (self := {| y_dim := d; y_n_heads := nh; y_theta := th;
                  y_max_seq_len := m; y_freqs_cis := fc;
                  y_interleaved := il; scaling_params := Some sp;
                  inv_freq := ifr |}).
  destruct (yarn_inv_freq self sp) as [v | e0] eqn:Ev; cbn [fst];
    [| cbn [scaling_params self]; rewrite Ev; reflexivity].
  destruct (py_truediv _ _) as [ms |] eqn:E; cbn [fst];
    unfold set_y_freqs_cis, set_inv_freq;
    cbn [scaling_params y_dim y_n_heads y_theta y_max_seq_len y_freqs_cis
         y_interleaved inv_freq self];
    repeat match goal with
           | |- context [yarn_inv_freq ?s sp] =>
               lazymatch s with
               | self => fail
               | _ => rewrite (yarn_inv_freq_config s self sp eq_refl eq_refl)
               end
           end;
    rewrite Ev, E; reflexivity.
Qed.

Lemma yarn_call_idempotent_witness :
  let sp := {| scaling_factor := 40;
               original_max_position_embeddings := 4096;
               beta_fast := 32; beta_slow := 1;
               mscale := 1; mscale_all_dim := 1 |} in
  let self := {| y_dim := 4; y_n_heads := 1; y_theta := Finite 10000;
                 y_max_seq_len := 16; y_freqs_cis := None;
                 y_interleaved := true; scaling_params := Some sp;
                 inv_freq := None |} in
  let x := {| shape := (1, 1, 2, 2)%nat;
              elems := [[[[Some 1; Some 0]; [Some 0; Some 1]]]] |} in
  let x' := {| shape := (1, 1, 2, 1)%nat;
               elems := [[[[Some 5]; [Some 6]]]] |} in
  yarn__call__ (fst (yarn__call__ self x None None)) x' (Some 3%nat) None
  = yarn__call__ self x None None.
Proof.
  intros sp self x x'.
  apply (yarn_call_idempotent self x x'). reflexivity.
Defined.

(** ** More on the Llama 3 rescaling *)

(** A positive component rescaled with [factor >= 1] and frequency factors
    [0 < low_freq_factor < high_freq_factor], for a positive original
    maximal position, stays between [f / factor] and [f]. *)
Lemma llama3_scale_between (sp : Llama3RopeScalingParams) (f : R) :
  0 < f -> 1 <= factor sp ->
  0 < low_freq_factor sp -> low_freq_factor sp < high_freq_factor sp ->
  0 < IZR (orig_max_position sp) ->
  exists g : R,
    llama3_scale sp (IZR (orig_max_position sp) / low_freq_factor sp)
                 (IZR (orig_max_position sp) / high_freq_factor sp) (Some f)
    = Some g /\
    f / factor sp <= g <= f.
Proof.
  intros Hf Hfac Hlo Hlh Ho.
  set (lw := IZR (orig_max_position sp) / low_freq_factor sp).
  set (hw := IZR (orig_max_position sp) / high_freq_factor sp).
  destruct (llama3_scale_cases sp lw hw f Hf) as (C1 & C2 & C3).
  pose proof (wave_len_pos f Hf) as Hw.
  set (w := 2 * PI / f) in *.
  assert (Hdiv : f / factor sp <= f).
  { apply Rmult_le_reg_r with (r := factor sp); [lra |].
    unfold Rdiv. rewrite Rmult_assoc, Rinv_l by lra. nra. }
  assert (Hpos : 0 < f / factor sp) by (apply Rdiv_lt_0_compat; lra).
  destruct (Rlt_dec w hw) as [H1 | H1].
  - exists f. split; [apply C1; exact H1 | lra].
  - destruct (Rlt_dec lw w) as [H2 | H2].
    + exists (f / factor sp). split; [apply C2; (assumption || lra) | lra].
    + eexists. split; [apply C3; (assumption || lra) |].
      destruct (Req_dec_T (low_freq_factor sp) (high_freq_factor sp))
        as [E | _]; [lra |].
      set (s := (IZR (orig_max_position sp) / w - low_freq_factor sp)
                / (high_freq_factor sp - low_freq_factor sp)).
      assert (Hs : 0 <= s <= 1).
      { assert (Hq1 : low_freq_factor sp <= IZR (orig_max_position sp) / w).
        { apply Rmult_le_reg_r with (r := w); [exact Hw |].
          unfold Rdiv at 1. rewrite Rmult_assoc, Rinv_l by lra.
          assert (w <= lw) by lra. unfold lw in H.
          apply Rmult_le_compat_l with (r := low_freq_factor sp) in H;
            [| lra].
          replace (low_freq_factor sp
                   * (IZR (orig_max_position sp) / low_freq_factor sp))
            with (IZR (orig_max_position sp)) in H by (field; lra).
          lra. }
        assert (Hq2 : IZR (orig_max_position sp) / w <= high_freq_factor sp).
        { apply Rmult_le_reg_r with (r := w); [exact Hw |].
          unfold Rdiv at 1. rewrite Rmult_assoc, Rinv_l by lra.
          assert (hw <= w) by lra. unfold hw in H.
          apply Rmult_le_compat_l with (r := high_freq_factor sp) in H;
            [| lra].
          replace (high_freq_factor sp
                   * (IZR (orig_max_position sp) / high_freq_factor sp))
            with (IZR (orig_max_position sp)) in H by (field; lra).
          lra. }
        unfold s. split.
        - apply Rmult_le_pos; [lra |].
          left. apply Rinv_0_lt_compat. lra.
        - apply Rmult_le_reg_r
            with (r := high_freq_factor sp - low_freq_factor sp); [lra |].
          unfold Rdiv at 1. rewrite Rmult_assoc, Rinv_l by lra. lra. }
      replace ((1 - s) * f / factor sp + s * f)
        with ((1 - s) * (f / factor sp) + s * f) by (field; lra).
      split; nra.
Qed.

(** X8. Bounds of the Llama 3 rescaling.  For [factor >= 1], frequency
    factors [0 < low_freq_factor < high_freq_factor] and a positive
    original maximal position, every rescaled component is finite and lies
    between [f / factor] and [f], where [f] is the base component at the
    same index; in particular it stays positive and never grows. *)
Theorem llama3_inv_freqs_between (self : RotaryEmbedding)
    (sp : Llama3RopeScalingParams) :
  n_heads self <> O -> 0 < theta self -> 1 <= factor sp ->
  0 < low_freq_factor sp -> low_freq_factor sp < high_freq_factor sp ->
  0 < IZR (orig_max_position sp) ->
  exists base v : list R,
    base_compute_inv_freqs self = Ok (map Some base) /\
    llama3_compute_inv_freqs self (Some sp) = Ok (map Some v) /\
    length v = length base /\
    forall j, (j < length base)%nat ->
      0 < nth j base 0 / factor sp <= nth j v 0 /\ nth j v 0 <= nth j base 0.
Proof.
  intros Hh Hth Hfac Hlo Hlh Ho.
  pose proof (base_inv_freqs_eq self Hh Hth) as Hbase.
  set (n := (dim self / n_heads self)%nat) in *.
  set (fb := fun k : nat => 1 / Rpower (theta self) (2 * INR k / INR n)).
  assert (Hfb : forall k, 0 < fb k)
    by (intros k; apply Rdiv_lt_0_compat; [lra | apply Rpower_pos]).
  set (lw := IZR (orig_max_position sp) / low_freq_factor sp).
  set (hw := IZR (orig_max_position sp) / high_freq_factor sp).
  set (gv := fun k : nat =>
         match llama3_scale sp lw hw (Some (fb k)) with
         | Some g => g
         | None => 0
         end).
  assert (Hgv : forall k, llama3_scale sp lw hw (Some (fb k)) = Some (gv k)
                          /\ fb k / factor sp <= gv k <= fb k).
  { intros k.
    destruct (llama3_scale_between sp (fb k) (Hfb k) Hfac Hlo Hlh Ho)
      as (g & Hg & Hb).
    fold lw hw in Hg. unfold gv. rewrite Hg. split; [reflexivity | exact Hb]. }
  exists (map fb (seq 0 (n / 2))), (map gv (seq 0 (n / 2))).
  split; [rewrite Hbase, map_map; reflexivity |].
  split; [| split].
  - unfold llama3_compute_inv_freqs. rewrite Hbase. simpl bind.
    rewrite !py_truediv_ok by lra. simpl bind. f_equal.
    rewrite !map_map. apply map_ext. intros k. apply (Hgv k).
  - rewrite !length_map. reflexivity.
  - intros j Hj. rewrite length_map, length_seq in Hj.
    rewrite !nth_map_seq by exact Hj.
    destruct (Hgv j) as [_ Hb].
    assert (0 < fb j / factor sp)
      by (apply Rdiv_lt_0_compat; [apply Hfb | lra]).
    lra.
Qed.

Lemma llama3_inv_freqs_between_witness :
  exists base v : list R,
    llama3_compute_inv_freqs
      {| klass := Llama3 None; dim := 8; n_heads := 1; theta := 10000;
         max_seq_len := 4; _freqs_cis := None; interleaved := true;
         freqs_cis_slot := None |}
      (Some {| factor := 8; low_freq_factor := 1; high_freq_factor := 4;
               orig_max_position := 8192 |}) = Ok (map Some v) /\
    length v = length base.
Proof.
  destruct (llama3_inv_freqs_between
              {| klass := Llama3 None; dim := 8; n_heads := 1;
                 theta := 10000; max_seq_len := 4; _freqs_cis := None;
                 interleaved := true; freqs_cis_slot := None |}
              {| factor := 8; low_freq_factor := 1; high_freq_factor := 4;
                 orig_max_position := 8192 |})
    as (base & v & _ & Hv & Hl & _); try (simpl; lra).
  - simpl. discriminate.
  - exists base, v. split; [exact Hv | exact Hl].
Defined.

(** X9. With [factor = 1] the Llama 3 rescaling is the identity: for
    frequency factors other than zero the builder returns the base
    vector. *)
Theorem llama3_factor_one (self : RotaryEmbedding)
    (sp : Llama3RopeScalingParams) :
  n_heads self <> O -> 0 < theta self -> factor sp = 1 ->
  low_freq_factor sp <> 0 -> high_freq_factor sp <> 0 ->
  llama3_compute_inv_freqs self (Some sp) = base_compute_inv_freqs self.
Proof.
  intros Hh Hth Hfac Hlo Hhi.
  rewrite (base_inv_freqs_eq self Hh Hth).
  unfold llama3_compute_inv_freqs. rewrite (base_inv_freqs_eq self Hh Hth).
  simpl bind. rewrite !py_truediv_ok by assumption. simpl bind. f_equal.
  rewrite map_map. apply map_ext. intros k.
  set (f := 1 / Rpower (theta self)
                       (2 * INR k / INR (dim self / n_heads self))).
  assert (Hf : 0 < f)
    by (apply Rdiv_lt_0_compat; [lra | apply Rpower_pos]).
  match goal with
  | |- llama3_scale sp ?lw ?hw _ = _ =>
      destruct (llama3_scale_cases sp lw hw f Hf) as (C1 & C2 & C3);
      destruct (Rlt_dec (2 * PI / f) hw) as [H1 | H1];
        [apply C1; exact H1 |];
      destruct (Rlt_dec lw (2 * PI / f)) as [H2 | H2]
  end.
  - rewrite C2 by (assumption || lra). f_equal. rewrite Hfac. field.
  - rewrite C3 by (assumption || lra). f_equal. rewrite Hfac. field.
Qed.

Lemma llama3_factor_one_witness :
  llama3_compute_inv_freqs
    {| klass := Llama3 None; dim := 8; n_heads := 1; theta := 10000;
       max_seq_len := 4; _freqs_cis := None; interleaved := true;
       freqs_cis_slot := None |}
    (Some {| factor := 1; low_freq_factor := 1; high_freq_factor := 4;
             orig_max_position := 8192 |})
  = base_compute_inv_freqs
      {| klass := Llama3 None; dim := 8; n_heads := 1; theta := 10000;
         max_seq_len := 4; _freqs_cis := None; interleaved := true;
         freqs_cis_slot := None |}.
Proof.
  apply llama3_factor_one; simpl; try lra. discriminate.
Defined.

(** ** The cache of the engine *)

(** After an access to [freqs_cis] that returned a table, the engine
    returns that table on every later access and changes no more; an
    access that raised left the engine as it was. *)
Lemma freqs_cis_settled (self : RotaryEmbedding) :
  match freqs_cis self with
  | (s1, Ok t) =>
      freqs_cis s1 = (s1, Ok t) /\ interleaved s1 = interleaved self /\
      freqs_cis_slot s1 = Some t
  | (s1, Raise _) => s1 = self
  end.
Proof.
  unfold freqs_cis.
  destruct (freqs_cis_slot self) as [t |] eqn:Hslot.
  - rewrite Hslot. auto.
  - unfold freqs_cis_body, freqs_cis_base.
    destruct (klass self) as [| | sp];
      destruct (_freqs_cis self) as [[t3 | t2] |];
      try destruct (_compute_inv_freqs self) as [v | e];
      cbn; auto.
Qed.

Lemma call_after_call (self : RotaryEmbedding) (x1 x2 : Activation)
    (a1 b1 a2 b2 : option nat) :
  snd (__call__ (fst (__call__ self x1 a1 b1)) x2 a2 b2)
  = snd (__call__ self x2 a2 b2).
Proof.
  unfold __call__ at 2.
  destruct (split_pairs (interleaved self) x1) as [[re1 im1] | e1];
    [| reflexivity].
  pose proof (freqs_cis_settled self) as Hs.
  destruct (freqs_cis self) as [s1 [t | e]] eqn:E; cbn [fst].
  - destruct Hs as (Hs1 & Hil & _).
    unfold __call__. rewrite Hil, Hs1, E.
    destruct (split_pairs (interleaved self) x2) as [[re2 im2] | e2];
      [| reflexivity].
    cbn [snd]. rewrite Hil. reflexivity.
  - subst s1. reflexivity.
Qed.

(** X10. The cache is transparent and settles at once.  What a call
    returns does not depend on the calls made before it: after any first
    call, a second call returns what it would return on the engine the
    first call started from.  And once a call has returned a tensor, later
    calls leave the engine as it is. *)
Theorem call_history_independent (self : RotaryEmbedding)
    (x1 x2 : Activation) (a1 b1 a2 b2 : option nat) :
  snd (__call__ (fst (__call__ self x1 a1 b1)) x2 a2 b2)
  = snd (__call__ self x2 a2 b2) /\
  (forall y, snd (__call__ self x1 a1 b1) = Ok y ->
     fst (__call__ (fst (__call__ self x1 a1 b1)) x2 a2 b2)
     = fst (__call__ self x1 a1 b1)).
Proof.
  split; [apply call_after_call |].
  intros y. unfold __call__ at 1 3 4.
  destruct (split_pairs (interleaved self) x1) as [[re1 im1] | e1];
    [| discriminate].
  pose proof (freqs_cis_settled self) as Hs.
  destruct (freqs_cis self) as [s1 [t | e]] eqn:E; cbn [fst snd];
    [| discriminate].
  intros _. destruct Hs as (Hs1 & Hil & _).
  unfold __call__. rewrite Hs1.
  destruct (split_pairs (interleaved s1) x2) as [[re2 im2] | e2];
    reflexivity.
Qed.

(** X11. [freqs_cis_base] returns whatever [_freqs_cis] holds.  On an
    engine as built, with inverse frequencies [v], it returns the rank-3
    table and stores it.  Once the property [freqs_cis] has been read, the
    base class still gets the rank-3 table from [freqs_cis_base], while
    the optimized classes get the flattened rank-2 table, which their
    property stored over it; nothing is computed again. *)
Theorem freqs_cis_base_after_property (self : RotaryEmbedding)
    (v : list F) :
  freqs_cis_slot self = None -> _freqs_cis self = None ->
  _compute_inv_freqs self = Ok v ->
  let table := cis_table (max_seq_len self) v in
  let flat := map (@concat F) table in
  snd (freqs_cis_base self) = Ok (Freqs3 table) /\
  _freqs_cis (fst (freqs_cis_base self)) = Some (Freqs3 table) /\
  let s1 := fst (freqs_cis self) in
  match klass self with
  | Base =>
      snd (freqs_cis self) = Ok (Freqs3 table) /\
      freqs_cis_base s1 = (s1, Ok (Freqs3 table))
  | Optimized | Llama3 _ =>
      snd (freqs_cis self) = Ok (Freqs2 flat) /\
      freqs_cis_base s1 = (s1, Ok (Freqs2 flat))
  end.
Proof.
  intros Hslot Hfc Hv table flat.
  unfold freqs_cis, freqs_cis_body, freqs_cis_base.
  rewrite Hslot, Hfc, Hv. cbn [fst snd _freqs_cis set_freqs_cis].
  split; [reflexivity |]. split; [reflexivity |].
  destruct (klass self); cbn; split; reflexivity.
Qed.

Lemma freqs_cis_base_after_property_witness :
  let self := {| klass := Optimized; dim := 4; n_heads := 1; theta := 10000;
                 max_seq_len := 2; _freqs_cis := None; interleaved := true;
                 freqs_cis_slot := None |} in
  exists v,
    _compute_inv_freqs self = Ok v /\
    snd (freqs_cis_base self) = Ok (Freqs3 (cis_table 2 v)) /\
    snd (freqs_cis_base (fst (freqs_cis self)))
    = Ok (Freqs2 (map (@concat F) (cis_table 2 v))).
Proof.
  intros self.
  destruct (compute_inv_freqs_total self) as (v & Hv & _).
  - discriminate.
  - intros sp Hsp. discriminate.
  - exists v. split; [exact Hv |].
    destruct (freqs_cis_base_after_property self v eq_refl eq_refl Hv)
      as (H1 & _ & H3).
    split; [exact H1 |]. cbn [klass self] in H3.
    destruct H3 as [_ H3]. rewrite H3. reflexivity.
Defined.

(** ** Failures of a call *)




(** ** Position 0 *)

Lemma rot_zero (p : F * F) (z : R) :
  fst p <> None -> snd p <> None -> z = 0 -> rot p (Some z) = p.
Proof.
  destruct p as [[re |] [im |]]; simpl; intros H1 H2 ->;
    try contradiction.
  rewrite cos_0, sin_0. f_equal; f_equal; ring.
Qed.

Lemma zmap_rot_zero (ps : list (F * F)) (a : list F) :
  length ps = length a ->
  Forall (fun p => fst p <> None /\ snd p <> None) ps ->
  Forall (fun e => e = Some 0) a ->
  zmap rot ps a = ps.
Proof.
  unfold zmap. revert a. induction ps as [| p ps IH]; intros [| e a] Hl Hp Ha;
    try discriminate; [reflexivity |].
  inversion Hp as [| ? ? [Hp1 Hp2] Hp']; subst.
  inversion Ha as [| ? ? He Ha']; subst.
  simpl. rewrite rot_zero by auto. rewrite IH; auto.
Qed.

Lemma deinterleave_concat (k : nat) (row : list F) :
  length row = (2 * k)%nat ->
  concat (map (fun '(re, im) => [re; im]) (deinterleave row)) = row.
Proof.
  revert row. induction k as [| k IH]; intros row H.
  - destruct row; [reflexivity | discriminate].
  - destruct row as [| a [| b row]]; try (simpl in H; lia).
    simpl. rewrite IH by (simpl in H; lia). reflexivity.
Qed.

(** The row that holds the pairs of a row of even length is that row. *)
Lemma row_of_pairs_pair_view (il : bool) (k : nat) (row : list F) :
  length row = (2 * k)%nat -> row_of_pairs il (pair_view il row) = row.
Proof.
  intros H. destruct il; unfold row_of_pairs, pair_view.
  - apply deinterleave_concat with (k := k). exact H.
  - rewrite H, half_double.
    rewrite map_fst_combine, map_snd_combine
      by (rewrite length_firstn, length_skipn, H; lia).
    apply firstn_skipn.
Qed.

Lemma deinterleave_finite (k : nat) (row : list F) :
  length row = (2 * k)%nat -> Forall (fun e => e <> None) row ->
  Forall (fun p => fst p <> None /\ snd p <> None) (deinterleave row).
Proof.
  revert row. induction k as [| k IH]; intros row H Hf.
  - destruct row; [constructor | discriminate].
  - destruct row as [| a [| b row]]; try (simpl in H; lia).
    inversion Hf as [| ? ? Ha Hf1]; subst.
    inversion Hf1 as [| ? ? Hb Hf2]; subst.
    simpl. constructor; [split; assumption |].
    apply IH; [simpl in H; lia | exact Hf2].
Qed.

Lemma pair_view_finite (il : bool) (k : nat) (row : list F) :
  length row = (2 * k)%nat -> Forall (fun e => e <> None) row ->
  Forall (fun p => fst p <> None /\ snd p <> None) (pair_view il row).
Proof.
  intros H Hf. destruct il; unfold pair_view.
  - apply deinterleave_finite with (k := k); assumption.
  - rewrite Forall_forall in Hf. apply Forall_forall. intros [a b] Hab.
    pose proof (in_combine_l _ _ _ _ Hab) as Ha.
    pose proof (in_combine_r _ _ _ _ Hab) as Hb.
    rewrite <- (firstn_skipn (length row / 2) row) in Hf.
    split; apply Hf; apply in_or_app; [left | right]; assumption.
Qed.

Lemma firstn_skipn_seq (n p : nat) :
  (p < n)%nat -> firstn 1 (skipn p (seq 0 n)) = [p].
Proof.
  intros H. replace n with (p + (n - p))%nat by lia.
  rewrite seq_app, skipn_app, length_seq, Nat.sub_diag.
  rewrite skipn_all2 by (rewrite length_seq; lia).
  destruct (n - p)%nat as [| r] eqn:E; [lia |]. reflexivity.
Qed.

(** The window of one position [p]. *)
Lemma window_angles_one (v : list F) (m p : nat) :
  (p + 1 <= m * 2)%nat ->
  window_angles v m p 1 = [map (fmul (const (0 + INR p * 1))) v].
Proof.
  intros H. unfold window_angles, ops_outer, ops_range.
  rewrite map_map, skipn_map, firstn_map, firstn_skipn_seq by lia.
  reflexivity.
Qed.

Lemma rotate_rows_one (il : bool) (a : list F) (X : T4) :
  (forall xb, In xb X -> length xb = 1%nat) ->
  rotate_rows il [a] X
  = map (map (map (fun row =>
           row_of_pairs il (zmap rot (pair_view il row) a)))) X.
Proof.
  intros H. unfold rotate_rows, per_row. apply map_ext_in. intros xb Hxb.
  specialize (H xb Hxb). destruct xb as [| xs [| xs' xb]]; try discriminate.
  reflexivity.
Qed.

(** X13. Rotation at position 0 is the identity.  On an engine of the
    base or optimized class (or Llama 3 without parameters) with a positive
    [theta], a finite activation of one position, of the engine's even head
    dimension, called with start position 0 and sequence length 1, comes
    back unchanged. *)
Theorem rotation_at_zero_is_identity (k : cls) (d h : nat) (th : R)
    (m : nat) (il : bool) (x : Activation) (start_pos seq_len : option nat)
    (d0 d2 d3 : nat) :
  h <> O -> 0 < th -> (forall sp, k <> Llama3 (Some sp)) ->
  shape x = (d0, 1%nat, d2, d3) -> wf_activation x -> finite_activation x ->
  d3 = (d / h)%nat -> Nat.even d3 = true -> (1 <= m)%nat ->
  match start_pos with Some p => p | None => O end = O ->
  match seq_len with Some n => n | None => d2 end = 1%nat ->
  exists self,
    build k d h th m il = Ok self /\
    snd (__call__ self x start_pos seq_len) = Ok x.
Proof.
  intros Hh Hth Hk Hs Hwf Hfin Hd Hev Hm Hstart Hlen.
  set (self := {| klass := k; dim := d; n_heads := h; theta := th;
                  max_seq_len := m; _freqs_cis := None; interleaved := il;
                  freqs_cis_slot := None |}).
  exists self. split; [reflexivity |].
  assert (H2k : d3 = (2 * (d3 / 2))%nat).
  { apply Nat.even_spec in Hev. destruct Hev as [j ->].
    rewrite half_double. reflexivity. }
  set (fb := fun j : nat => 1 / Rpower th (2 * INR j / INR (d / h))).
  assert (Hv : _compute_inv_freqs self
               = Ok (map (fun j => Some (fb j)) (seq 0 (d / h / 2)))).
  { pose proof (base_inv_freqs_eq self Hh Hth) as Hb.
    unfold _compute_inv_freqs, llama3_compute_inv_freqs.
    cbn [klass self]. destruct k as [| | [sp |]];
      try exact Hb; [exfalso; apply (Hk sp); reflexivity |].
    rewrite Hb. reflexivity. }
  set (v := map (fun j => Some (fb j)) (seq 0 (d / h / 2))) in *.
  assert (Hlv : length v = (d3 / 2)%nat)
    by (unfold v; rewrite length_map, length_seq, Hd; reflexivity).
  rewrite H2k in Hs.
  pose proof (call_rotates self v x start_pos seq_len d0 1 d2 (d3 / 2)
                eq_refl eq_refl Hv Hlv Hs Hwf) as Hcall.
  cbv zeta in Hcall. rewrite Hstart, Hlen in Hcall.
  cbn [interleaved max_seq_len self] in Hcall.
  rewrite Hcall by (try reflexivity; lia).
  rewrite window_angles_one by lia.
  destruct (wf_activation_inv x _ _ _ _ Hs Hwf) as (_ & H1 & _ & H3).
  rewrite rotate_rows_one by exact H1.
  unfold finite_activation in Hfin. rewrite Forall_forall in Hfin.
  destruct x as [sh X]. cbn [shape elems] in *. do 2 f_equal.
  rewrite <- (map_id X) at 2.
  apply map_ext_in. intros xb Hxb. rewrite <- (map_id xb) at 2.
  pose proof (Hfin xb Hxb) as Hfb. rewrite Forall_forall in Hfb.
  apply map_ext_in. intros xs Hxs. rewrite <- (map_id xs) at 2.
  pose proof (Hfb xs Hxs) as Hfs. rewrite Forall_forall in Hfs.
  apply map_ext_in. intros row Hrow.
  pose proof (H3 xb xs row Hxb Hxs Hrow) as Hrl.
  rewrite zmap_rot_zero.
  - apply row_of_pairs_pair_view with (k := (d3 / 2)%nat). exact Hrl.
  - rewrite (length_pair_view il (d3 / 2)) by exact Hrl.
    rewrite length_map. symmetry. exact Hlv.
  - apply pair_view_finite with (k := (d3 / 2)%nat);
      [exact Hrl | apply Hfs; exact Hrow].
  - unfold v. rewrite map_map. apply Forall_forall. intros e He.
    apply in_map_iff in He. destruct He as (j & <- & _).
    unfold const. simpl. f_equal. ring.
Qed.

Lemma rotation_at_zero_is_identity_witness :
  let x := {| shape := (1, 1, 1, 2)%nat; elems := [[[[Some 3; Some 4]]]] |} in
  exists self,
    build Base 2 1 10000 4 false = Ok self /\
    snd (__call__ self x None (Some 1%nat)) = Ok x.
Proof.
  intros x.
  apply (rotation_at_zero_is_identity Base 2 1 10000 4 false x None
           (Some 1%nat) 1 1 2); try reflexivity.
  - discriminate.
  - lra.
  - intros sp. discriminate.
  - unfold wf_activation. cbn. repeat constructor.
  - unfold finite_activation. cbn. repeat constructor; discriminate.
  - lia.
Defined.

(** ** The two layouts, and rotations one after the other *)

Lemma zmap_map_l {A A' B C : Type} (g : A' -> B -> C) (h : A -> A')
    (l1 : list A) (l2 : list B) :
  zmap g (map h l1) l2 = zmap (fun a b => g (h a) b) l1 l2.
Proof.
  unfold zmap. revert l2. induction l1 as [| a l1 IH]; intros [| b l2];
    try reflexivity.
  simpl. rewrite IH. reflexivity.
Qed.

Lemma map_zmap {A B C D : Type} (h : C -> D) (g : A -> B -> C)
    (l1 : list A) (l2 : list B) :
  map h (zmap g l1 l2) = zmap (fun a b => h (g a b)) l1 l2.
Proof.
  unfold zmap. rewrite map_map. apply map_ext. intros [a b]. reflexivity.
Qed.

Lemma wf_map_rows (g : list F -> list F) (x : Activation)
    (d0 d1 d2 d3 : nat) :
  shape x = (d0, d1, d2, d3) -> wf_activation x ->
  (forall row, length row = d3 -> length (g row) = d3) ->
  wf_activation (map_rows g x).
Proof.
  intros Hs Hwf Hg. unfold wf_activation, map_rows in *.
  cbn [shape elems]. rewrite Hs in *. destruct Hwf as [H0 H].
  split; [rewrite length_map; exact H0 |].
  rewrite Forall_map. eapply Forall_impl; [| exact H].
  intros xb [H1 H2]. split; [rewrite length_map; exact H1 |].
  rewrite Forall_map. eapply Forall_impl; [| exact H2].
  intros xs [H3 H4]. split; [rewrite length_map; exact H3 |].
  rewrite Forall_map. eapply Forall_impl; [| exact H4].
  intros row. apply Hg.
Qed.

Lemma length_rotate_row (il : bool) (k : nat) (a row : list F) :
  length a = k -> length row = (2 * k)%nat ->
  length (rotate_row il a row) = (2 * k)%nat.
Proof.
  intros Ha Hr. unfold rotate_row.
  rewrite length_row_of_pairs, length_zmap, (length_pair_view il k), Ha
    by exact Hr.
  lia.
Qed.

Lemma length_to_split_half (k : nat) (row : list F) :
  length row = (2 * k)%nat -> length (to_split_half row) = (2 * k)%nat.
Proof.
  intros Hr. unfold to_split_half.
  rewrite length_row_of_pairs, (length_pair_view true k) by exact Hr.
  reflexivity.
Qed.

(** Rotating in the split-half layout the row rewritten in that layout
    is rewriting the row rotated in the interleaved layout. *)
Lemma rotate_row_split_half (a row : list F) :
  rotate_row false a (to_split_half row)
  = to_split_half (rotate_row true a row).
Proof.
  unfold rotate_row, to_split_half.
  rewrite !pair_view_row_of_pairs. reflexivity.
Qed.

Lemma rotate_rows_split_half (A : list (list F)) (X : T4) :
  rotate_rows false A (map (map (map to_split_half)) X)
  = map (map (map to_split_half)) (rotate_rows true A X).
Proof.
  unfold rotate_rows, per_row. rewrite !map_map. apply map_ext. intros xb.
  rewrite zmap_map_l, map_zmap. apply zmap_ext_in. intros xs a _.
  rewrite !map_map. apply map_ext. intros row.
  apply rotate_row_split_half.
Qed.

(** X14. The two layouts compute one rotation.  For two engines as built
    that differ in [interleaved] only, with [n_heads <> 0] (and frequency
    factors other than zero for Llama 3), a well-shaped activation [x] of
    the engines' even head dimension, and a window inside the table whose
    length is [x.shape[1]] or 1: the engine of the split-half layout
    applied to [x] rewritten in that layout (real parts first, then
    imaginary parts) returns the output of the interleaved engine on [x],
    rewritten in the same way. *)
Theorem layouts_compute_same_rotation (k : cls) (d h : nat) (th : R)
    (m : nat) (x : Activation) (start_pos seq_len : option nat)
    (d0 d1 d2 : nat) :
  h <> O ->
  (forall sp, k = Llama3 (Some sp) ->
     low_freq_factor sp <> 0 /\ high_freq_factor sp <> 0) ->
  shape x = (d0, d1, d2, (d / h)%nat) -> Nat.even (d / h) = true ->
  wf_activation x ->
  let start := match start_pos with Some p => p | None => O end in
  let len := match seq_len with Some n => n | None => d2 end in
  (len = d1 \/ len = 1%nat) -> (start + len <= m * 2)%nat ->
  exists a b y,
    build k d h th m true = Ok a /\ build k d h th m false = Ok b /\
    snd (__call__ a x start_pos seq_len) = Ok y /\
    snd (__call__ b (map_rows to_split_half x) start_pos seq_len)
    = Ok (map_rows to_split_half y).
Proof.
  intros Hh Hk Hs Hev Hwf start len Hlen Hwin.
  set (a := {| klass := k; dim := d; n_heads := h; theta := th;
               max_seq_len := m; _freqs_cis := None; interleaved := true;
               freqs_cis_slot := None |}).
  set (b := {| klass := k; dim := d; n_heads := h; theta := th;
               max_seq_len := m; _freqs_cis := None; interleaved := false;
               freqs_cis_slot := None |}).
  destruct (compute_inv_freqs_total a Hh Hk) as (v & Hv & Hlv).
  cbn [dim n_heads a] in Hlv.
  assert (H2k : (d / h)%nat = (2 * (d / h / 2))%nat).
  { apply Nat.even_spec in Hev. destruct Hev as [j ->].
    rewrite half_double. reflexivity. }
  rewrite H2k in Hs.
  pose proof (call_rotates_broadcast a v x start_pos seq_len d0 d1 d2
                (d / h / 2) eq_refl eq_refl Hv Hlv Hs Hwf Hlen Hwin) as Ha.
  assert (Hwf' : wf_activation (map_rows to_split_half x)).
  { apply (wf_map_rows _ x _ _ _ _ Hs Hwf).
    intros row. apply length_to_split_half. }
  assert (Hvb : _compute_inv_freqs b = Ok v) by exact Hv.
  pose proof (call_rotates_broadcast b v (map_rows to_split_half x)
                start_pos seq_len d0 d1 d2 (d / h / 2) eq_refl eq_refl Hvb
                Hlv Hs Hwf' Hlen Hwin) as Hb.
  exists a, b. eexists. split; [reflexivity |]. split; [reflexivity |].
  split; [exact Ha |]. rewrite Hb. unfold map_rows. cbn [shape elems].
  cbn [interleaved max_seq_len a b]. rewrite rotate_rows_split_half.
  reflexivity.
Qed.

Lemma layouts_compute_same_rotation_witness :
  let x := {| shape := (1, 2, 1, 4)%nat;
              elems := [[[[Some 1; Some 2; Some 3; Some 4]];
                         [[Some 5; Some 6; Some 7; Some 8]]]] |} in
  elems (map_rows to_split_half x)
  = [[[[Some 1; Some 3; Some 2; Some 4]];
      [[Some 5; Some 7; Some 6; Some 8]]]] /\
  exists a b y,
    build Base 4 1 10000 4 true = Ok a /\
    build Base 4 1 10000 4 false = Ok b /\
    snd (__call__ a x (Some 1%nat) (Some 2%nat)) = Ok y /\
    snd (__call__ b (map_rows to_split_half x) (Some 1%nat) (Some 2%nat))
    = Ok (map_rows to_split_half y).
Proof.
  intros x. split; [reflexivity |].
  apply (layouts_compute_same_rotation Base 4 1 10000 4 x (Some 1%nat)
           (Some 2%nat) 1 2 1); try reflexivity.
  - discriminate.
  - intros sp. discriminate.
  - unfold wf_activation. cbn. repeat constructor.
  - left. reflexivity.
  - cbn. lia.
Defined.

Lemma rot_add (p : F * F) (a b : F) :
  rot (rot p a) b = rot p (fadd a b).
Proof.
  destruct p as [[re |] [im |]], a as [a |], b as [b |]; simpl;
    try reflexivity.
  rewrite cos_plus, sin_plus. f_equal; f_equal; ring.
Qed.

Lemma zmap_rot_add (ps : list (F * F)) (a b : list F) :
  zmap rot (zmap rot ps a) b = zmap rot ps (zmap fadd a b).
Proof.
  unfold zmap. revert a b.
  induction ps as [| p ps IH]; intros [| x a] [| y b]; try reflexivity.
  simpl. rewrite rot_add, IH. reflexivity.
Qed.

Lemma angles_add (p q : nat) (v : list F) :
  zmap fadd (map (fmul (const (INR p))) v) (map (fmul (const (INR q))) v)
  = map (fmul (const (INR (p + q)))) v.
Proof.
  unfold zmap. induction v as [| [f |] v IH]; [reflexivity | |];
    simpl; rewrite IH; [| reflexivity].
  rewrite plus_INR. unfold const. simpl. do 2 f_equal. ring.
Qed.

(** The rotation of the pairs of a row by [a], then by [b], is the
    rotation by the sums of the angles. *)
Lemma rotate_row_add (il : bool) (a b row : list F) :
  rotate_row il b (rotate_row il a row)
  = rotate_row il (zmap fadd a b) row.
Proof.
  unfold rotate_row. rewrite pair_view_row_of_pairs, zmap_rot_add.
  reflexivity.
Qed.

(** A call on one position [p] turns every row by the angles [p * f]. *)
Lemma call_one_position (self : RotaryEmbedding) (v : list F)
    (x : Activation) (p d0 d2 k : nat) :
  freqs_cis_slot self = None -> _freqs_cis self = None ->
  _compute_inv_freqs self = Ok v -> length v = k ->
  shape x = (d0, 1%nat, d2, (2 * k)%nat) -> wf_activation x ->
  (p + 1 <= max_seq_len self * 2)%nat ->
  snd (__call__ self x (Some p) (Some 1%nat))
  = Ok (map_rows (rotate_row (interleaved self)
                    (map (fmul (const (INR p))) v)) x).
Proof.
  intros Hsl Hfc Hv Hlv Hs Hwf Hp.
  pose proof (call_rotates self v x (Some p) (Some 1%nat) d0 1 d2 k
                Hsl Hfc Hv Hlv Hs Hwf eq_refl Hp) as Hc.
  rewrite Hc. rewrite window_angles_one by exact Hp.
  destruct (wf_activation_inv x _ _ _ _ Hs Hwf) as (_ & H1 & _).
  rewrite rotate_rows_one by exact H1.
  replace (0 + INR p * 1) with (INR p) by ring. reflexivity.
Qed.

(** X15. Rotations compose by adding positions.  On a fresh engine, the
    output of a call on one position [p], given back to the engine for one
    position [q], is the output of one call on position [p + q]. *)
Theorem rotations_compose (k : cls) (d h : nat) (th : R) (m : nat)
    (il : bool) (x : Activation) (p q d0 d2 : nat) :
  h <> O ->
  (forall sp, k = Llama3 (Some sp) ->
     low_freq_factor sp <> 0 /\ high_freq_factor sp <> 0) ->
  shape x = (d0, 1%nat, d2, (d / h)%nat) -> Nat.even (d / h) = true ->
  wf_activation x -> (p + q + 1 <= m * 2)%nat ->
  exists self y,
    build k d h th m il = Ok self /\
    snd (__call__ self x (Some p) (Some 1%nat)) = Ok y /\
    snd (__call__ (fst (__call__ self x (Some p) (Some 1%nat)))
                  y (Some q) (Some 1%nat))
    = snd (__call__ self x (Some (p + q)%nat) (Some 1%nat)).
Proof.
  intros Hh Hk Hs Hev Hwf Hpq.
  set (self := {| klass := k; dim := d; n_heads := h; theta := th;
                  max_seq_len := m; _freqs_cis := None; interleaved := il;
                  freqs_cis_slot := None |}).
  destruct (compute_inv_freqs_total self Hh Hk) as (v & Hv & Hlv).
  cbn [dim n_heads self] in Hlv.
  assert (H2k : (d / h)%nat = (2 * (d / h / 2))%nat).
  { apply Nat.even_spec in Hev. destruct Hev as [j ->].
    rewrite half_double. reflexivity. }
  rewrite H2k in Hs.
  assert (Hcall : forall (z : Activation) (r : nat),
            shape z = (d0, 1%nat, d2, (2 * (d / h / 2))%nat) ->
            wf_activation z -> (r + 1 <= m * 2)%nat ->
            snd (__call__ self z (Some r) (Some 1%nat))
            = Ok (map_rows (rotate_row il (map (fmul (const (INR r))) v))
                    z)).
  { intros z r Hz Hwz Hr.
    apply (call_one_position self v z r d0 d2 (d / h / 2) eq_refl eq_refl
             Hv Hlv Hz Hwz Hr). }
  exists self. eexists. split; [reflexivity |].
  split; [apply (Hcall x p Hs Hwf); lia |].
  rewrite call_after_call.
  rewrite Hcall; [rewrite Hcall by (try assumption; lia) | exact Hs | | lia].
  - unfold map_rows. cbn [shape elems]. do 2 f_equal.
    rewrite !map_map. apply map_ext. intros xb.
    rewrite !map_map. apply map_ext. intros xs.
    rewrite !map_map. apply map_ext. intros row.
    rewrite rotate_row_add, angles_add. reflexivity.
  - apply (wf_map_rows _ x _ _ _ _ Hs Hwf). intros row.
    apply length_rotate_row. rewrite length_map. exact Hlv.
Qed.

Lemma rotations_compose_witness :
  let x := {| shape := (1, 1, 1, 2)%nat; elems := [[[[Some 3; Some 4]]]] |} in
  exists self y,
    build Base 2 1 10000 4 true = Ok self /\
    snd (__call__ self x (Some 2%nat) (Some 1%nat)) = Ok y /\
    snd (__call__ (fst (__call__ self x (Some 2%nat) (Some 1%nat)))
                  y (Some 3%nat) (Some 1%nat))
    = snd (__call__ self x (Some (2 + 3)%nat) (Some 1%nat)).
Proof.
  intros x.
  apply (rotations_compose Base 2 1 10000 4 true x 2 3 1 1);
    try reflexivity.
  - discriminate.
  - intros sp. discriminate.
  - unfold wf_activation. cbn. repeat constructor.
  - lia.
Defined.

(** ** The table in closed form *)

(** X16. The table of [freqs_cis_base] in closed form.  On an engine as
    built, of the base or optimized class (or Llama 3 without parameters),
    with [n_heads <> 0] and [0 < theta], the table has [2 * max_seq_len]
    rows of [n / 2] pairs, [n = dim // n_heads]; the pair of row [i] and
    column [j] is the cosine and the sine of [i * theta ^ (- 2 j / n)],
    a point of the unit circle. *)
Theorem freqs_cis_base_closed_form (self : RotaryEmbedding) :
  n_heads self <> O -> 0 < theta self ->
  (forall sp, klass self <> Llama3 (Some sp)) ->
  _freqs_cis self = None ->
  let n := (dim self / n_heads self)%nat in
  let angle := fun i j : nat =>
    INR i * (1 / Rpower (theta self) (2 * INR j / INR n)) in
  snd (freqs_cis_base self)
  = Ok (Freqs3
          (map (fun i =>
                  map (fun j => [Some (cos (angle i j));
                                 Some (sin (angle i j))])
                      (seq 0 (n / 2)))
               (seq 0 (max_seq_len self * 2)))) /\
  forall i j,
    cos (angle i j) * cos (angle i j) + sin (angle i j) * sin (angle i j)
    = 1.
Proof.
  intros Hh Hth Hk Hfc n angle. split.
  - assert (Hv : _compute_inv_freqs self
                 = Ok (map (fun j => Some (1 / Rpower (theta self)
                                             (2 * INR j / INR n)))
                           (seq 0 (n / 2)))).
    { pose proof (base_inv_freqs_eq self Hh Hth) as Hb.
      unfold _compute_inv_freqs, llama3_compute_inv_freqs.
      destruct (klass self) as [| | [sp |]];
        try exact Hb; [exfalso; apply (Hk sp); reflexivity |].
      rewrite Hb. reflexivity. }
    unfold freqs_cis_base. rewrite Hfc, Hv. cbn [snd]. do 2 f_equal.
    rewrite cis_table_eq. unfold ops_outer, ops_range.
    rewrite !map_map. apply map_ext. intros i.
    rewrite !map_map. apply map_ext. intros j.
    unfold const, angle. simpl.
    replace (0 + INR i * 1) with (INR i) by ring. reflexivity.
  - intros i j. pose proof (sin2_cos2 (angle i j)) as H.
    unfold Rsqr in H. lra.
Qed.

Lemma freqs_cis_base_closed_form_witness :
  let self := {| klass := Base; dim := 4; n_heads := 1; theta := 10000;
                 max_seq_len := 2; _freqs_cis := None; interleaved := true;
                 freqs_cis_slot := None |} in
  let angle := fun i j : nat =>
    INR i * (1 / Rpower 10000 (2 * INR j / INR (4 / 1))) in
  snd (freqs_cis_base self)
  = Ok (Freqs3
          (map (fun i =>
                  map (fun j => [Some (cos (angle i j));
                                 Some (sin (angle i j))])
                      (seq 0 (4 / 1 / 2)))
               (seq 0 (2 * 2)))) /\
  forall i j,
    cos (angle i j) * cos (angle i j) + sin (angle i j) * sin (angle i j)
    = 1.
Proof.
  intros self.
  apply (freqs_cis_base_closed_form self).
  - discriminate.
  - cbn. lra.
  - intros sp. discriminate.
  - reflexivity.
Defined.
